(** * Rivers: stream pipelines over channels, verified against their description

    A shallow embedding of the Go sources of the rivers library
    (emitter, conditional dispatcher, and the stages exercised by the
    test-suite) together with the properties stated about them. *)

From Stdlib Require Import ZArith Lia Bool.
From stdpp Require Import base list relations strings.

Open Scope Z_scope.
Open Scope nat_scope.

(** ** Items flowing through a stream

    [stream.T] is Go's [interface{}].  The test-suite sends integers,
    strings and slices of items; the zero value [nil] is what a receive
    on a closed channel yields. *)
#[warnings="-register-all"]
Inductive T : Type :=
  | TNil : T
  | TInt : Z -> T
  | TStr : string -> T
  | TSlice : list T -> T.

(** [evens := func(data rx.T) bool { return data.(int) % 2 == 0 }], the
    predicate of the tests, as the closure is written: the type assertion
    panics on an item that is not an int ([None]). *)
Definition evens_checked (d : T) : option bool :=
  match d with TInt z => Some (Z.even z) | _ => None end.

(** The same predicate as a total function, for the stages that take one.
    It is the closure on the integers, which is all the tests send; where
    the closure would panic it is given the value [false]. *)
Definition evens (d : T) : bool :=
  match evens_checked d with Some b => b | None => false end.

(** Values a goroutine can panic with. [Done] is [stream.Done], the value
    [emitter.Emit] panics with; the other two are raised by the Go runtime. *)
Inductive panic_value : Type :=
  | Done
  | SendOnClosedChannel
  | CloseOfClosedChannel.

(** Result of one (possibly blocking, possibly panicking) operation. *)
Inductive outcome (A : Type) : Type :=
  | Ok : A -> outcome A
  | Blocked : outcome A
  | Panic : panic_value -> outcome A.
Arguments Ok {A} _.
Arguments Blocked {A}.
Arguments Panic {A} _.

(** ** Channels

    [stream.New(capacity)] is [make(chan T, capacity)].  A channel is its
    buffer, its capacity, whether it was closed, and the items already
    handed to its reader, oldest first. *)
Module Chan.

Record chan : Type := Make {
  buf : list T;
  cap : nat;
  closed : bool;
  taken : list T
}.

Definition New (capacity : nat) : chan :=
  {| buf := []; cap := capacity; closed := false; taken := [] |}.

(** Everything ever written, in the order the reader gets it. *)
Definition contents (c : chan) : list T := taken c ++ buf c.

(** [c <- v].  [rdy] tells whether a reader is parked on the channel: a
    parked reader of an empty channel is handed the item directly (the only
    way through a channel of capacity 0); otherwise the item is appended
    to the buffer if there is room, and the writer blocks if there is none.
    Writing to a closed channel panics. *)
Definition write (rdy : bool) (c : chan) (v : T) : outcome chan :=
  if closed c then Panic SendOnClosedChannel
  else if rdy && bool_decide (buf c = []) then
    Ok {| buf := []; cap := cap c; closed := false; taken := taken c ++ [v] |}
  else if bool_decide (length (buf c) < cap c) then
    Ok {| buf := buf c ++ [v]; cap := cap c; closed := false; taken := taken c |}
  else Blocked.

(** [v, more := <-c] on the reader's side. *)
Definition read (c : chan) : outcome (chan * option T) :=
  match buf c with
  | v :: rest =>
      Ok ({| buf := rest; cap := cap c; closed := closed c; taken := taken c ++ [v] |}, Some v)
  | [] => if closed c then Ok (c, None) else Blocked
  end.

(** [close(c)]. *)
Definition close (c : chan) : outcome chan :=
  if closed c then Panic CloseOfClosedChannel
  else Ok {| buf := buf c; cap := cap c; closed := true; taken := taken c |}.

(** *** Facts about the channel operations *)

Lemma write_Ok rdy c v c' :
  write rdy c v = Ok c' ->
  contents c' = contents c ++ [v] /\
  closed c = false /\ closed c' = false.
Proof.
  unfold write, contents. intros H.
  destruct (closed c) eqn:Hc; [done|].
  destruct (rdy && bool_decide (buf c = [])) eqn:Hr.
  - apply andb_prop in Hr as [_ Hb%bool_decide_eq_true_1].
    simplify_eq; simpl. by rewrite Hb, !app_nil_r.
  - case_bool_decide; simplify_eq; simpl. by rewrite app_assoc.
Qed.

Lemma write_Panic rdy c v p :
  write rdy c v = Panic p -> closed c = true.
Proof. unfold write. repeat case_match; naive_solver. Qed.

Lemma close_Ok c c' :
  close c = Ok c' ->
  contents c' = contents c /\
  closed c = false /\ closed c' = true.
Proof. unfold close. case_match; naive_solver. Qed.

Lemma close_Panic c p : close c = Panic p -> closed c = true.
Proof. unfold close. case_match; naive_solver. Qed.

Lemma close_not_Blocked c : close c <> Blocked.
Proof. unfold close. case_match; naive_solver. Qed.

Lemma read_Ok c c' o :
  read c = Ok (c', o) ->
  contents c' = contents c /\ closed c' = closed c.
Proof.
  unfold read, contents. intros H.
  destruct (buf c) eqn:Hb.
  - destruct (closed c) eqn:Hc; simplify_eq. by rewrite Hb.
  - simplify_eq; simpl. split; [|done]. by rewrite <-app_assoc.
Qed.

End Chan.

(** ** The context, as stages see it

    [stream.Context] is an interface whose implementation is not part of
    the stage code; a stage only polls its two signals.  A signal is [true]
    when a receive on the corresponding channel would not block. *)
Record Context : Type := {
  Closed : bool;
  Failure : bool
}.

(** How a goroutine ended. *)
Inductive exit : Type :=
  | Returned
  | Recovered (p : panic_value)
  | Crashed (p : panic_value).

(** Modelled from the spec: [Context.Recover], deferred first by every
    worker, is not among the sources; it is the worker's guard, which
    catches the unwinding so that the goroutine ends without taking the
    process down. *)
Definition Recover {A} (r : outcome A) : option exit :=
  match r with
  | Ok _ => Some Returned
  | Panic p => Some (Recovered p)
  | Blocked => None
  end.

(** ** The emitter (package stream) *)
Module Emitter.

Record emitter : Type := NewEmitter {
  context : Context;
  writable : Chan.chan
}.

(** [[
    func (emitter *emitter) Emit(data T) {
        select {
        case <-emitter.context.Failure():
            panic(Done)
        default:
            emitter.writable <- data
        }
    }
    ]] *)
Definition Emit (rdy : bool) (e : emitter) (data : T) : outcome Chan.chan :=
  if Failure (context e) then Panic Done
  else Chan.write rdy (writable e) data.

(** A worker whose body is one emission, under the deferred guard. *)
Definition guarded_Emit (rdy : bool) (e : emitter) (data : T) : option exit :=
  Recover (Emit rdy e data).

(** The stream after the call: untouched unless the write went through. *)
Definition stream_after (rdy : bool) (e : emitter) (data : T) : Chan.chan :=
  match Emit rdy e data with
  | Ok c => c
  | _ => writable e
  end.

Lemma write_open_room rdy c v :
  Chan.closed c = false -> length (Chan.buf c) < Chan.cap c ->
  exists c', Chan.write rdy c v = Ok c' /\
             Chan.contents c' = Chan.contents c ++ [v].
Proof.
  intros Hc Hroom. unfold Chan.write. rewrite Hc.
  destruct rdy; simpl.
  - case_bool_decide as Hb.
    + eexists; split; [reflexivity|]. unfold Chan.contents; simpl.
      rewrite Hb. by rewrite !app_nil_r.
    + rewrite bool_decide_eq_true_2 by done.
      eexists; split; [reflexivity|]. unfold Chan.contents; simpl.
      by rewrite app_assoc.
  - rewrite bool_decide_eq_true_2 by done.
    eexists; split; [reflexivity|]. unfold Chan.contents; simpl.
    by rewrite app_assoc.
Qed.

Lemma write_full_blocks rdy c v :
  Chan.closed c = false -> Chan.cap c <= length (Chan.buf c) ->
  rdy = false \/ Chan.buf c <> [] ->
  Chan.write rdy c v = Blocked.
Proof.
  intros Hc Hfull Hne. unfold Chan.write. rewrite Hc.
  assert (rdy && bool_decide (Chan.buf c = []) = false) as ->.
  { destruct Hne as [-> | Hne]; [done|].
    rewrite (bool_decide_eq_false_2 (Chan.buf c = [])) by done.
    apply andb_false_r. }
  rewrite bool_decide_eq_false_2 by lia. done.
Qed.

(** C3. [Emit] looks at the failure signal first, without blocking.  If the
    context has failed, nothing is written: the call panics with [Done],
    the stream is left as it was and the worker's guard turns the unwinding
    into a recovered exit, never a crash.  If the context has not failed,
    the call is exactly the channel write: it appends the item when the
    stream has room and blocks while the stream is full and no reader can
    be handed the item. *)
Theorem Emit_checks_failure_then_writes :
  forall (rdy : bool) (e : emitter) (data : T),
    (Failure (context e) = true ->
       Emit rdy e data = Panic Done /\
       stream_after rdy e data = writable e /\
       guarded_Emit rdy e data = Some (Recovered Done) /\
       (forall p, guarded_Emit rdy e data <> Some (Crashed p))) /\
    (Failure (context e) = false ->
       Emit rdy e data = Chan.write rdy (writable e) data /\
       (Chan.closed (writable e) = false ->
        length (Chan.buf (writable e)) < Chan.cap (writable e) ->
        exists c', Emit rdy e data = Ok c' /\
                   Chan.contents c' = Chan.contents (writable e) ++ [data]) /\
       (Chan.closed (writable e) = false ->
        Chan.cap (writable e) <= length (Chan.buf (writable e)) ->
        rdy = false \/ Chan.buf (writable e) <> [] ->
        Emit rdy e data = Blocked)).
Proof.
  intros rdy e data. split; intros Hf.
  - unfold guarded_Emit, stream_after, Emit. rewrite Hf. simpl.
    repeat split; try done.
  - unfold Emit. rewrite Hf. split; [done|]. split.
    + intros Hc Hroom. by apply write_open_room.
    + intros Hc Hfull Hne. by apply write_full_blocks.
Qed.

(** C9. Only the failure signal decides: on a context that was closed
    without a failure, [Emit] does not abort; it performs the write. *)
Theorem Emit_ignores_closed_signal :
  forall (rdy : bool) (e : emitter) (data : T),
    Closed (context e) = true ->
    Failure (context e) = false ->
    Emit rdy e data <> Panic Done /\
    Emit rdy e data = Chan.write rdy (writable e) data /\
    (Chan.closed (writable e) = false ->
     length (Chan.buf (writable e)) < Chan.cap (writable e) ->
     exists c', Emit rdy e data = Ok c' /\
                Chan.contents c' = Chan.contents (writable e) ++ [data]).
Proof.
  intros rdy e data _ Hf. unfold Emit. rewrite Hf. split; [|split; [done|]].
  - unfold Chan.write. repeat case_match; congruence.
  - intros Hc Hroom. by apply write_open_room.
Qed.

Definition failed_context : Context := {| Closed := false; Failure := true |}.
Definition cancelled_context : Context := {| Closed := true; Failure := false |}.
Definition running_context : Context := {| Closed := false; Failure := false |}.

Lemma Emit_checks_failure_then_writes_witness :
  Emit false (NewEmitter failed_context (Chan.New 1)) (TInt 7) = Panic Done /\
  guarded_Emit false (NewEmitter failed_context (Chan.New 1)) (TInt 7)
    = Some (Recovered Done) /\
  exists c', Emit false (NewEmitter running_context (Chan.New 1)) (TInt 7) = Ok c' /\
             Chan.contents c' = [TInt 7].
Proof.
  destruct (Emit_checks_failure_then_writes false
              (NewEmitter failed_context (Chan.New 1)) (TInt 7)) as [Hfailed _].
  destruct (Hfailed eq_refl) as (Hpanic & _ & Hguard & _).
  destruct (Emit_checks_failure_then_writes false
              (NewEmitter running_context (Chan.New 1)) (TInt 7)) as [_ Hruns].
  destruct (Hruns eq_refl) as (_ & Hroom & _).
  split; [exact Hpanic|]. split; [exact Hguard|].
  apply Hroom; [reflexivity | simpl; lia].
Defined.

Lemma Emit_ignores_closed_signal_witness :
  exists c', Emit false (NewEmitter cancelled_context (Chan.New 1)) (TInt 7) = Ok c' /\
             Chan.contents c' = [TInt 7].
Proof.
  destruct (Emit_ignores_closed_signal false
              (NewEmitter cancelled_context (Chan.New 1)) (TInt 7) eq_refl eq_refl)
    as (_ & _ & Hroom).
  apply Hroom; [reflexivity | simpl; lia].
Defined.

End Emitter.

(** ** The conditional dispatcher (package dispatchers)

    [[
    func (dispatcher *ifDispatcher) Dispatch(in stream.Readable,
                                             writables ...stream.Writable) stream.Readable
    ]]

    [Dispatch] starts one goroutine that ranges over [in] and, for every
    matching item, one more goroutine per listed output.  The goroutines,
    the readers of the outputs and the context run interleaved; the
    embedding is the transition system whose steps are the atomic actions
    of each of them. *)
Module Dispatcher.

(** Where the dispatching goroutine stands. *)
Inductive pc : Type :=
  | Range                      (* for data := range in *)
  | Select (d : T)             (* select { case <-Failure(): ...; default: ... } *)
  | Spawn (d : T) (ws : list nat)  (* for _, writable := range writables { go ... } *)
  | SendRest (d : T)           (* notDispatchedWritable <- data *)
  | Barrier (expected : nat)   (* closeWritables: for i := 0; i < expected; i++ *)
  | CloseAll (ws : list nat)   (* deferred: for _, writable := range writables { close } *)
  | CloseRest                  (* deferred: close(notDispatchedWritable) *)
  | RecoverPt                  (* deferred: dispatcher.context.Recover() *)
  | Finished (e : exit).

(** The two statements of a fan-out goroutine:
    [go func(w, d) { w <- d; done <- true }(writable, data)]. *)
Inductive phase : Type := Sending | Acking.

Record sender : Type := Sender {
  target : nat;
  payload : T;
  at_ : phase
}.

Record state : Type := State {
  main : pc;
  input : list T;            (* what [in] still yields before it ends *)
  rest : Chan.chan;          (* notDispatchedWritable / notDispatchedReadable *)
  outs : list Chan.chan;     (* the channels behind the writables' handles *)
  dispatchedCount : nat;
  done : nat;                (* messages buffered in [done] *)
  senders : list sender;     (* fan-out goroutines still running *)
  ctx : Context;
  panicking : option panic_value;  (* panic unwinding the dispatching goroutine *)
  crashed : option panic_value;    (* unrecovered panic: the process is gone *)
  (* history, not program state *)
  acks : nat;                (* the barrier's loop counter [i] *)
  handled : list T;          (* items that went through the [default] branch *)
  closes : list nat          (* handles the deferred loop has closed, in order *)
}.

(** Actions of the goroutines and of their environment. *)
Inductive action : Type :=
  | AMain (rdy : bool)        (* next statement of the dispatching goroutine;
                                 at the barrier, the [<-done] case *)
  | ABarrierFailure           (* at the barrier, the [<-Failure()] case *)
  | ASender (k : nat) (rdy : bool)  (* next statement of the k-th fan-out goroutine *)
  | ARead (w : nat)           (* the reader of output [w] takes an item *)
  | AReadRest                 (* the caller takes an item of the remainder *)
  | AFail                     (* the context signals failure *)
  | AClose.                   (* the context signals closed *)

Definition conts (chans : list Chan.chan) (w : nat) : list T :=
  match chans !! w with
  | Some c => Chan.contents c
  | None => []
  end.

Definition is_closed (chans : list Chan.chan) (w : nat) : bool :=
  match chans !! w with
  | Some c => Chan.closed c
  | None => false
  end.

Section Dispatch.

Variable fn : T -> bool.              (* dispatcher.fn *)
Variable writables : list nat.        (* handles of the listed outputs *)

Definition init (c : Context) (items : list T) (capacity : nat)
    (chans : list Chan.chan) : state :=
  {| main := Range; input := items; rest := Chan.New capacity; outs := chans;
     dispatchedCount := 0; done := 0; senders := []; ctx := c;
     panicking := None; crashed := None;
     acks := 0; handled := []; closes := [] |}.

Definition goto (p : pc) (s : state) : state :=
  {| main := p; input := input s; rest := rest s; outs := outs s;
     dispatchedCount := dispatchedCount s; done := done s; senders := senders s;
     ctx := ctx s; panicking := panicking s; crashed := crashed s;
     acks := acks s; handled := handled s; closes := closes s |}.

(** [return] out of the loop: the deferred [closeWritables()] starts and
    computes [expectedDoneMessages]. *)
Definition leave_loop (s : state) : state :=
  goto (Barrier (dispatchedCount s * length writables)) s.

(** The next statement of the dispatching goroutine.  [input] is what [in]
    yields before it ends, so the receive of [range in] is taken here on an
    input that has been delivered; the producer's side of [in], and the
    wait at [range in] while [in] is open and empty, are added in
    [DispatcherFacts.live_exec], whose states all stand for states of this
    system. *)
Definition main_step (rdy : bool) (s : state) : option state :=
  match main s with
  | Range =>
      match input s with
      | d :: tl =>
          Some {| main := Select d; input := tl; rest := rest s; outs := outs s;
                  dispatchedCount := dispatchedCount s; done := done s;
                  senders := senders s; ctx := ctx s; panicking := panicking s;
                  crashed := crashed s; acks := acks s; handled := handled s;
                  closes := closes s |}
      | [] => Some (leave_loop s)
      end
  | Select d =>
      if Failure (ctx s) then Some (leave_loop s)
      else if fn d then
        Some {| main := Spawn d writables; input := input s; rest := rest s;
                outs := outs s; dispatchedCount := S (dispatchedCount s);
                done := done s; senders := senders s; ctx := ctx s;
                panicking := panicking s; crashed := crashed s; acks := acks s;
                handled := handled s ++ [d]; closes := closes s |}
      else
        Some {| main := SendRest d; input := input s; rest := rest s;
                outs := outs s; dispatchedCount := dispatchedCount s;
                done := done s; senders := senders s; ctx := ctx s;
                panicking := panicking s; crashed := crashed s; acks := acks s;
                handled := handled s ++ [d]; closes := closes s |}
  | Spawn d [] => Some (goto Range s)
  | Spawn d (w :: ws) =>
      Some {| main := Spawn d ws; input := input s; rest := rest s; outs := outs s;
              dispatchedCount := dispatchedCount s; done := done s;
              senders := senders s ++ [Sender w d Sending]; ctx := ctx s;
              panicking := panicking s; crashed := crashed s; acks := acks s;
              handled := handled s; closes := closes s |}
  | SendRest d =>
      match Chan.write rdy (rest s) d with
      | Ok c =>
          Some {| main := Range; input := input s; rest := c; outs := outs s;
                  dispatchedCount := dispatchedCount s; done := done s;
                  senders := senders s; ctx := ctx s; panicking := panicking s;
                  crashed := crashed s; acks := acks s; handled := handled s;
                  closes := closes s |}
      | Blocked => None
      | Panic p =>
          Some {| main := Barrier (dispatchedCount s * length writables);
                  input := input s; rest := rest s; outs := outs s;
                  dispatchedCount := dispatchedCount s; done := done s;
                  senders := senders s; ctx := ctx s; panicking := Some p;
                  crashed := crashed s; acks := acks s; handled := handled s;
                  closes := closes s |}
      end
  | Barrier expected =>
      if bool_decide (acks s < expected) then
        match done s with
        | S n =>
            Some {| main := Barrier expected; input := input s; rest := rest s;
                    outs := outs s; dispatchedCount := dispatchedCount s;
                    done := n; senders := senders s; ctx := ctx s;
                    panicking := panicking s; crashed := crashed s;
                    acks := S (acks s); handled := handled s; closes := closes s |}
        | O => None
        end
      else Some (goto (CloseAll writables) s)
  | CloseAll [] => Some (goto CloseRest s)
  | CloseAll (w :: ws) =>
      match outs s !! w with
      | Some c =>
          match Chan.close c with
          | Ok c' =>
              Some {| main := CloseAll ws; input := input s; rest := rest s;
                      outs := <[w := c']> (outs s);
                      dispatchedCount := dispatchedCount s; done := done s;
                      senders := senders s; ctx := ctx s;
                      panicking := panicking s; crashed := crashed s;
                      acks := acks s; handled := handled s;
                      closes := closes s ++ [w] |}
          | Panic p =>
              Some {| main := CloseRest; input := input s; rest := rest s;
                      outs := outs s; dispatchedCount := dispatchedCount s;
                      done := done s; senders := senders s; ctx := ctx s;
                      panicking := Some p; crashed := crashed s;
                      acks := acks s; handled := handled s; closes := closes s |}
          | Blocked => None
          end
      | None => None
      end
  | CloseRest =>
      match Chan.close (rest s) with
      | Ok c =>
          Some {| main := RecoverPt; input := input s; rest := c; outs := outs s;
                  dispatchedCount := dispatchedCount s; done := done s;
                  senders := senders s; ctx := ctx s; panicking := panicking s;
                  crashed := crashed s; acks := acks s; handled := handled s;
                  closes := closes s |}
      | Panic p =>
          Some {| main := RecoverPt; input := input s; rest := rest s; outs := outs s;
                  dispatchedCount := dispatchedCount s; done := done s;
                  senders := senders s; ctx := ctx s; panicking := Some p;
                  crashed := crashed s; acks := acks s; handled := handled s;
                  closes := closes s |}
      | Blocked => None
      end
  | RecoverPt =>
      Some (goto (Finished (match panicking s with
                            | Some p => Recovered p
                            | None => Returned
                            end)) s)
  | Finished _ => None
  end.

Definition barrier_failure (s : state) : option state :=
  match main s with
  | Barrier expected =>
      if bool_decide (acks s < expected) && Failure (ctx s)
      then Some (goto (CloseAll writables) s)
      else None
  | _ => None
  end.

Definition sender_step (k : nat) (rdy : bool) (s : state) : option state :=
  match senders s !! k with
  | Some (Sender w d Sending) =>
      match outs s !! w with
      | Some c =>
          match Chan.write rdy c d with
          | Ok c' =>
              Some {| main := main s; input := input s; rest := rest s;
                      outs := <[w := c']> (outs s);
                      dispatchedCount := dispatchedCount s; done := done s;
                      senders := <[k := Sender w d Acking]> (senders s);
                      ctx := ctx s; panicking := panicking s; crashed := crashed s;
                      acks := acks s; handled := handled s; closes := closes s |}
          | Panic p =>
              Some {| main := main s; input := input s; rest := rest s;
                      outs := outs s; dispatchedCount := dispatchedCount s;
                      done := done s; senders := senders s; ctx := ctx s;
                      panicking := panicking s; crashed := Some p;
                      acks := acks s; handled := handled s; closes := closes s |}
          | Blocked => None
          end
      | None => None
      end
  | Some (Sender w d Acking) =>
      (* done := make(chan bool, len(writables)) *)
      if bool_decide (done s < length writables) then
        Some {| main := main s; input := input s; rest := rest s; outs := outs s;
                dispatchedCount := dispatchedCount s; done := S (done s);
                senders := delete k (senders s); ctx := ctx s;
                panicking := panicking s; crashed := crashed s;
                acks := acks s; handled := handled s; closes := closes s |}
      else None
  | None => None
  end.

Definition read_out (w : nat) (s : state) : option state :=
  match outs s !! w with
  | Some c =>
      match Chan.read c with
      | Ok (c', Some _) =>
          Some {| main := main s; input := input s; rest := rest s;
                  outs := <[w := c']> (outs s);
                  dispatchedCount := dispatchedCount s; done := done s;
                  senders := senders s; ctx := ctx s; panicking := panicking s;
                  crashed := crashed s; acks := acks s; handled := handled s;
                  closes := closes s |}
      | _ => None
      end
  | None => None
  end.

Definition read_rest (s : state) : option state :=
  match Chan.read (rest s) with
  | Ok (c', Some _) =>
      Some {| main := main s; input := input s; rest := c'; outs := outs s;
              dispatchedCount := dispatchedCount s; done := done s;
              senders := senders s; ctx := ctx s; panicking := panicking s;
              crashed := crashed s; acks := acks s; handled := handled s;
              closes := closes s |}
  | _ => None
  end.

Definition signal (c : Context) (s : state) : state :=
  {| main := main s; input := input s; rest := rest s; outs := outs s;
     dispatchedCount := dispatchedCount s; done := done s; senders := senders s;
     ctx := c; panicking := panicking s; crashed := crashed s;
     acks := acks s; handled := handled s; closes := closes s |}.

(** One atomic action.  Nothing moves once the process has crashed. *)
Definition exec (a : action) (s : state) : option state :=
  match crashed s with
  | Some _ => None
  | None =>
      match a with
      | AMain rdy => main_step rdy s
      | ABarrierFailure => barrier_failure s
      | ASender k rdy => sender_step k rdy s
      | ARead w => read_out w s
      | AReadRest => read_rest s
      | AFail => Some (signal {| Closed := Closed (ctx s); Failure := true |} s)
      | AClose => Some (signal {| Closed := true; Failure := Failure (ctx s) |} s)
      end
  end.

Definition step (s s' : state) : Prop := exists a, exec a s = Some s'.

(** A schedule: the actions taken, in order. *)
Fixpoint run (sched : list action) (s : state) : option state :=
  match sched with
  | [] => Some s
  | a :: sched' =>
      match exec a s with
      | Some s' => run sched' s'
      | None => None
      end
  end.

Definition reachable (s0 s : state) : Prop := rtc step s0 s.

End Dispatch.

(** *** Facts about the store of channels *)

Lemma conts_insert chans w w' c c' :
  chans !! w' = Some c ->
  conts (<[w' := c']> chans) w =
    if bool_decide (w' = w) then Chan.contents c' else conts chans w.
Proof.
  intros Hl. unfold conts. case_bool_decide as Hw.
  - subst. rewrite list_lookup_insert_eq; [done|]. by eapply lookup_lt_Some.
  - by rewrite list_lookup_insert_ne.
Qed.

Lemma is_closed_insert chans w w' c c' :
  chans !! w' = Some c ->
  is_closed (<[w' := c']> chans) w =
    if bool_decide (w' = w) then Chan.closed c' else is_closed chans w.
Proof.
  intros Hl. unfold is_closed. case_bool_decide as Hw.
  - subst. rewrite list_lookup_insert_eq; [done|]. by eapply lookup_lt_Some.
  - by rewrite list_lookup_insert_ne.
Qed.

(** *** What every reachable state satisfies *)

#[local] Instance phase_eq_dec : EqDecision phase.
Proof. solve_decision. Defined.

(** Goroutines the inner loop has still to launch. *)
Definition tospawn (p : pc) : nat :=
  match p with Spawn _ ws => length ws | _ => 0 end.

Definition in_loop (p : pc) : bool :=
  match p with Range | Select _ | Spawn _ _ | SendRest _ => true | _ => false end.

(** The barrier loop of [closeWritables] is over. *)
Definition past_barrier (p : pc) : bool :=
  match p with CloseAll _ | CloseRest | RecoverPt | Finished _ => true | _ => false end.

(** The deferred [close(notDispatchedWritable)] has run. *)
Definition after_rest (p : pc) : bool :=
  match p with RecoverPt | Finished _ => true | _ => false end.

(** The item received from [in] and not yet through the [select]. *)
Definition cur (p : pc) : list T :=
  match p with Select d => [d] | _ => [] end.

(** The item on its way to the remainder. *)
Definition sending (p : pc) : list T :=
  match p with SendRest d => [d] | _ => [] end.

(** One copy of [d] for each time [w] is listed in [ws]. *)
Definition copies (w : nat) (ws : list nat) (d : T) : list T :=
  (fun _ => d) <$> filter (fun w' => w' = w) ws.

(** Copies of the current item whose goroutine is not launched yet. *)
Definition spawning (w : nat) (p : pc) : list T :=
  match p with Spawn d ws => copies w ws d | _ => [] end.

(** Items held by goroutines that have not written to [w] yet. *)
Definition pending (w : nat) (snd : list sender) : list T :=
  omap (fun x => if bool_decide (target x = w /\ at_ x = Sending)
                 then Some (payload x) else None) snd.

Lemma copies_cons w w' ws d :
  copies w (w' :: ws) d =
    (if bool_decide (w' = w) then [d] else []) ++ copies w ws d.
Proof.
  unfold copies. rewrite filter_cons. case_decide; case_bool_decide; done.
Qed.

Lemma filter_eq_fresh (w : nat) (ws : list nat) :
  w ∉ ws -> filter (fun w' => w' = w) ws = [].
Proof.
  induction ws as [|x ws IH]; [done|].
  intros [Hne Hni]%not_elem_of_cons. rewrite filter_cons.
  rewrite decide_False by congruence. by apply IH.
Qed.

Lemma copies_NoDup w ws d :
  NoDup ws -> w ∈ ws -> copies w ws d = [d].
Proof.
  induction 1 as [|w' ws Hni Hnd IH]; [by intros ?%elem_of_nil|].
  rewrite copies_cons. intros [->|Hin]%elem_of_cons.
  - rewrite bool_decide_eq_true_2 by done. simpl. f_equal.
    unfold copies. by rewrite filter_eq_fresh.
  - rewrite bool_decide_eq_false_2; [by apply IH|].
    intros ->. done.
Qed.

Lemma flat_map_copies_NoDup w ws l :
  NoDup ws -> w ∈ ws -> flat_map (copies w ws) l = l.
Proof.
  intros Hnd Hin. induction l as [|d l IH]; [done|].
  simpl. rewrite copies_NoDup by done. simpl. by rewrite IH.
Qed.

Lemma pending_app w l1 l2 : pending w (l1 ++ l2) = pending w l1 ++ pending w l2.
Proof. unfold pending. by rewrite omap_app. Qed.

Lemma pending_delete_acking w snd k w' d :
  snd !! k = Some (Sender w' d Acking) ->
  pending w (delete k snd) = pending w snd.
Proof.
  revert k. induction snd as [|x snd IH]; intros [|k] Hk; simplify_eq/=; try done.
  - rewrite bool_decide_eq_false_2; [done|]. by intros [_ ?].
  - unfold pending in *. simpl. by rewrite (IH k).
Qed.

Lemma pending_insert_acking w snd k w' d :
  snd !! k = Some (Sender w' d Sending) ->
  pending w snd ≡ₚ
    (if bool_decide (w' = w) then [d] else []) ++
    pending w (<[k := Sender w' d Acking]> snd).
Proof.
  revert k. induction snd as [|x snd IH]; intros [|k] Hk; simplify_eq/=.
  - unfold pending. simpl.
    rewrite (bool_decide_eq_false_2 (w' = w /\ Acking = Sending)); [|by intros [_ ?]].
    destruct (decide (w' = w)) as [Hw|Hw].
    + by rewrite !bool_decide_eq_true_2.
    + rewrite !bool_decide_eq_false_2; [done|done|]. by intros [? _].
  - specialize (IH k Hk). unfold pending in *. simpl.
    destruct (bool_decide (target x = w /\ at_ x = Sending)); simpl; [|done].
    rewrite IH. by rewrite Permutation_middle.
Qed.

Section Invariants.

Variable fn : T -> bool.
Variable writables : list nat.
Variable c0 : Context.
Variable items : list T.
Variable capacity : nat.
Variable chans : list Chan.chan.

Record inv (s : state) : Prop := {
  inv_count :
    acks s + done s + length (senders s) + tospawn (main s)
    = dispatchedCount s * length writables;
  inv_barrier :
    forall n, main s = Barrier n -> n = dispatchedCount s * length writables;
  inv_acks :
    past_barrier (main s) = true ->
    acks s = dispatchedCount s * length writables \/ Failure (ctx s) = true;
  inv_rest_closed : Chan.closed (rest s) = after_rest (main s);
  inv_closes : past_barrier (main s) = false -> closes s = [];
  inv_len : length (outs s) = length chans;
  inv_closed :
    forall w, is_closed (outs s) w = is_closed chans w || bool_decide (w ∈ closes s);
  inv_rest :
    Chan.contents (rest s) ++ sending (main s)
    = List.filter (fun d => negb (fn d)) (handled s);
  inv_outs :
    forall w, conts (outs s) w ++ pending w (senders s) ++ spawning w (main s)
              ≡ₚ conts chans w ++ flat_map (copies w writables) (List.filter fn (handled s));
  inv_input :
    Failure (ctx s) = false ->
    items = handled s ++ cur (main s) ++ input s /\
    (in_loop (main s) = false -> input s = []);
  inv_matches : dispatchedCount s = length (List.filter fn (handled s))
}.

Lemma inv_init : inv (init c0 items capacity chans).
Proof.
  split; simpl; try done; intros w; by rewrite ?orb_false_r, ?app_nil_r.
Qed.

Ltac chan_facts :=
  repeat match goal with
  | H : Chan.write _ _ _ = Ok _ |- _ => apply Chan.write_Ok in H as (? & ? & ?)
  | H : Chan.write _ _ _ = Panic _ |- _ => apply Chan.write_Panic in H
  | H : Chan.close _ = Ok _ |- _ => apply Chan.close_Ok in H as (? & ? & ?)
  | H : Chan.close _ = Panic _ |- _ => apply Chan.close_Panic in H
  | H : Chan.close _ = Blocked |- _ => by apply Chan.close_not_Blocked in H
  | H : Chan.read _ = Ok _ |- _ => apply Chan.read_Ok in H as (? & ?)
  end.

Ltac split_matches H :=
  repeat match type of H with
  | context [match ?x with _ => _ end] => destruct x eqn:?
  end; simplify_eq.

Lemma filter_snoc {A} (f : A -> bool) l x :
  List.filter f (l ++ [x]) = List.filter f l ++ (if f x then [x] else []).
Proof. rewrite List.filter_app. simpl. by destruct (f x). Qed.

Lemma inv_main_step rdy s s' :
  inv s -> main_step fn writables rdy s = Some s' -> inv s'.
Proof.
  intros [Hcnt Hbar Hacks Hrc Hcl Hlen Hclosed Hrest Houts Hin Hmt] Hstep.
  unfold main_step, leave_loop, goto in Hstep.
  destruct (main s) as [|d|d [|w ws]|d|n|[|w ws]| | |e] eqn:Hm; simpl in *.
  all: split_matches Hstep; chan_facts; try congruence.
  all: split; simpl; try done; try lia.
  all: try (intros; simplify_eq; done).
  all: try (intros Hf; destruct Hin as [Hi1 Hi2]; [done || congruence|];
            split; [|done || auto]; rewrite Hi1; by rewrite <-?app_assoc, ?app_nil_r).
  all: try (intros; congruence).
  all: try (rewrite ?filter_snoc; simpl;
            repeat match goal with H : fn _ = _ |- _ => rewrite H; simpl end;
            rewrite ?app_nil_r in *; congruence).
  all: try (rewrite ?length_app, ?length_insert; simpl; lia).
  all: try (rewrite filter_snoc, length_app;
            match goal with H : fn _ = _ |- _ => rewrite H end; simpl; lia).
  - (* a matching item: its copies are scheduled *)
    intros w. specialize (Houts w). rewrite app_nil_r in Houts.
    rewrite filter_snoc, flat_map_app.
    match goal with H : fn _ = _ |- _ => rewrite H end. simpl.
    rewrite (app_nil_r (copies _ _ _)), !app_assoc. by f_equiv.
  - (* a non-matching item changes nothing for the outputs *)
    intros w. rewrite filter_snoc.
    match goal with H : fn _ = _ |- _ => rewrite H end.
    rewrite (app_nil_r (List.filter _ _)). apply Houts.
  - (* one more goroutine launched *)
    intros w0. rewrite pending_app. rewrite <-(Houts w0), copies_cons.
    unfold pending at 2. simpl. case_bool_decide as Hw.
    + rewrite bool_decide_eq_true_2 by apply Hw. by rewrite <-!app_assoc.
    + rewrite bool_decide_eq_false_2 by (intros ->; by apply Hw).
      by rewrite app_nil_r.
  - (* the barrier is over *)
    intros _. left. specialize (Hbar _ eq_refl). case_bool_decide; lia.
  - intros w0. rewrite (is_closed_insert _ _ _ c) by done.
    rewrite Hclosed. case_bool_decide as Hw.
    + subst w0. match goal with H : Chan.closed _ = true |- _ => rewrite H end.
      symmetry. apply orb_true_iff. right. apply bool_decide_eq_true_2.
      apply elem_of_app. right. by apply list_elem_of_singleton.
    + f_equal. apply bool_decide_ext. rewrite elem_of_app, list_elem_of_singleton.
      split; [auto|]. intros [?|?]; [done|congruence].
  - intros w0. rewrite (conts_insert _ _ _ c) by done. case_bool_decide as Hw; [|done].
    subst w0. rewrite <-(Houts w). unfold conts.
    match goal with H : outs s !! w = Some _ |- _ => rewrite H end.
    match goal with H : Chan.contents _ = _ |- _ => by rewrite H end.
Qed.

Lemma inv_barrier_failure s s' :
  inv s -> barrier_failure writables s = Some s' -> inv s'.
Proof.
  intros [Hcnt Hbar Hacks Hrc Hcl Hlen Hclosed Hrest Houts Hin Hmt] Hstep.
  unfold barrier_failure, goto in Hstep.
  destruct (main s) eqn:Hm; try done.
  destruct (bool_decide _ && Failure (ctx s)) eqn:Hb; [|done].
  apply andb_prop in Hb as [_ Hf]. simplify_eq.
  split; simpl in *; try done; try lia; try (by right); intros; congruence.
Qed.

Lemma inv_sender_step k rdy s s' :
  inv s -> sender_step writables k rdy s = Some s' -> inv s'.
Proof.
  intros [Hcnt Hbar Hacks Hrc Hcl Hlen Hclosed Hrest Houts Hin Hmt] Hstep.
  unfold sender_step in Hstep.
  destruct (senders s !! k) as [[w d [|]]|] eqn:Hk; [| |done].
  - (* w <- d *)
    destruct (outs s !! w) as [c|] eqn:Hw; [|done].
    destruct (Chan.write rdy c d) as [c'| |p] eqn:Hwr; [| done |].
    + apply Chan.write_Ok in Hwr as (Hc1 & Hc2 & Hc3). simplify_eq.
      split; simpl; try done.
      * by rewrite length_insert.
      * by rewrite length_insert.
      * intros w0. rewrite (is_closed_insert _ _ _ c) by done.
        case_bool_decide as Hw0; [|done]. subst w0.
        rewrite <-Hclosed. unfold is_closed. by rewrite Hw, Hc2.
      * intros w0. rewrite <-(Houts w0).
        rewrite (conts_insert _ _ _ c) by done.
        rewrite (pending_insert_acking w0 _ _ _ _ Hk).
        case_bool_decide as Hw0; [|done]. subst w0.
        unfold conts. rewrite Hw, Hc1. by rewrite <-!app_assoc.
    + simplify_eq. by split.
  - (* done <- true *)
    case_bool_decide as Hd; [|done]. simplify_eq.
    split; simpl; try done.
    + rewrite length_delete by eauto.
      apply lookup_lt_Some in Hk. lia.
    + intros w0. by rewrite (pending_delete_acking _ _ _ _ _ Hk).
Qed.

Lemma inv_read_out w s s' :
  inv s -> read_out w s = Some s' -> inv s'.
Proof.
  intros [Hcnt Hbar Hacks Hrc Hcl Hlen Hclosed Hrest Houts Hin Hmt] Hstep.
  unfold read_out in Hstep.
  destruct (outs s !! w) as [c|] eqn:Hw; [|done].
  destruct (Chan.read c) as [[c' [v|]]| |] eqn:Hrd; try done.
  apply Chan.read_Ok in Hrd as [Hc1 Hc2]. simplify_eq.
  split; simpl; try done.
  - by rewrite length_insert.
  - intros w0. rewrite (is_closed_insert _ _ _ c) by done.
    case_bool_decide as Hw0; [|done]. subst w0.
    rewrite <-Hclosed. unfold is_closed. by rewrite Hw.
  - intros w0. rewrite <-(Houts w0). rewrite (conts_insert _ _ _ c) by done.
    case_bool_decide as Hw0; [|done]. subst w0.
    unfold conts. by rewrite Hw, Hc1.
Qed.

Lemma inv_read_rest s s' :
  inv s -> read_rest s = Some s' -> inv s'.
Proof.
  intros [Hcnt Hbar Hacks Hrc Hcl Hlen Hclosed Hrest Houts Hin Hmt] Hstep.
  unfold read_rest in Hstep.
  destruct (Chan.read (rest s)) as [[c' [v|]]| |] eqn:Hrd; try done.
  apply Chan.read_Ok in Hrd as [Hc1 Hc2]. simplify_eq.
  split; simpl; try done; congruence.
Qed.

Lemma inv_signal c s :
  (Failure (ctx s) = true -> Failure c = true) ->
  inv s -> inv (signal c s).
Proof.
  intros Hmono [Hcnt Hbar Hacks Hrc Hcl Hlen Hclosed Hrest Houts Hin Hmt].
  split; simpl; try done.
  - intros Hp. destruct (Hacks Hp); auto.
  - intros Hf. apply Hin. destruct (Failure (ctx s)); [|done].
    rewrite Hmono in Hf; done.
Qed.

Lemma inv_exec a s s' :
  inv s -> exec fn writables a s = Some s' -> inv s'.
Proof.
  intros Hinv. unfold exec. destruct (crashed s); [done|].
  destruct a; intros Hstep.
  - by eapply inv_main_step.
  - by eapply inv_barrier_failure.
  - by eapply inv_sender_step.
  - by eapply inv_read_out.
  - by eapply inv_read_rest.
  - simplify_eq. by apply inv_signal.
  - simplify_eq. by apply inv_signal.
Qed.

Lemma inv_reachable s :
  reachable fn writables (init c0 items capacity chans) s -> inv s.
Proof.
  unfold reachable. revert s. apply rtc_ind_r.
  - apply inv_init.
  - intros s1 s2 _ [a Hstep] IH. by eapply inv_exec.
Qed.

Lemma run_reachable sched s s' :
  run fn writables sched s = Some s' -> reachable fn writables s s'.
Proof.
  revert s. induction sched as [|a sched IH]; intros s Hrun; simpl in Hrun.
  - simplify_eq. apply rtc_refl.
  - destruct (exec fn writables a s) as [s1|] eqn:Hstep; [|done].
    eapply rtc_l; [by exists a|]. by apply IH.
Qed.

(** *** The closing protocol, for distinct outputs that start open *)

Definition listed_open : Prop :=
  forall w, w ∈ writables ->
    exists c, chans !! w = Some c /\ Chan.closed c = false.

Definition closing (s : state) : Prop :=
  panicking s = None /\
  match main s with
  | CloseAll ws => closes s ++ ws = writables
  | CloseRest | RecoverPt => closes s = writables
  | Finished e => closes s = writables /\ e = Returned
  | _ => True
  end.

Lemma closing_init : closing (init c0 items capacity chans).
Proof. by split. Qed.

Lemma closing_main_step rdy s s' :
  NoDup writables -> listed_open ->
  inv s -> closing s -> main_step fn writables rdy s = Some s' -> closing s'.
Proof.
  intros Hnd Hopen Hinv [Hp Hc] Hstep.
  pose proof (inv_rest_closed _ Hinv) as Hrc.
  unfold main_step, leave_loop, goto in Hstep.
  destruct (main s) as [|d|d [|w ws]|d|n|[|w ws]| | |e] eqn:Hm; simpl in *.
  all: split_matches Hstep; chan_facts; try congruence.
  all: unfold closing; simpl; try done.
  - split; [done|]. apply inv_closes in Hinv; [|by rewrite Hm].
    by rewrite Hinv.
  - split; [done|]. by rewrite app_nil_r in Hc.
  - split; [done|]. by rewrite <-app_assoc.
  - (* a second close of the same output cannot happen *)
    exfalso.
    match goal with H : outs s !! w = Some ?c |- _ =>
      assert (is_closed (outs s) w = true) as Hcw by (unfold is_closed; by rewrite H)
    end.
    rewrite (inv_closed _ Hinv) in Hcw.
    destruct (Hopen w) as (c' & Hl & Hc').
    { rewrite <-Hc. apply elem_of_app. right. by left. }
    unfold is_closed in Hcw. rewrite Hl, Hc' in Hcw. simpl in Hcw.
    apply bool_decide_eq_true_1 in Hcw.
    rewrite <-Hc in Hnd. apply NoDup_app in Hnd as (_ & Hdisj & _).
    apply (Hdisj w Hcw). by left.
Qed.

Lemma closing_exec a s s' :
  NoDup writables -> listed_open ->
  inv s -> closing s -> exec fn writables a s = Some s' -> closing s'.
Proof.
  intros Hnd Hopen Hinv Hc. unfold exec. destruct (crashed s); [done|].
  destruct a; intros Hstep.
  - by eapply closing_main_step.
  - unfold barrier_failure, goto in Hstep. destruct (main s) eqn:Hm; try done.
    case_match; [|done]. simplify_eq. destruct Hc as [Hp _].
    split; simpl; [done|]. apply inv_closes in Hinv; [|by rewrite Hm].
    by rewrite Hinv.
  - unfold sender_step in Hstep. unfold closing in *.
    split_matches Hstep; simpl; done.
  - unfold read_out in Hstep. unfold closing in *.
    split_matches Hstep; simpl; done.
  - unfold read_rest in Hstep. unfold closing in *.
    split_matches Hstep; simpl; done.
  - by simplify_eq.
  - by simplify_eq.
Qed.

Lemma closing_reachable s :
  NoDup writables -> listed_open ->
  reachable fn writables (init c0 items capacity chans) s -> closing s.
Proof.
  intros Hnd Hopen Hr.
  enough (inv s /\ closing s) by tauto.
  revert s Hr. apply rtc_ind_r.
  - split; [apply inv_init | apply closing_init].
  - intros s1 s2 _ [a Hstep] [Hi Hc]. split.
    + by eapply inv_exec.
    + by eapply closing_exec.
Qed.

(** *** Consequences *)

Local Abbreviation reached := (reachable fn writables (init c0 items capacity chans)).

Lemma failure_free_end s :
  reached s -> in_loop (main s) = false -> Failure (ctx s) = false ->
  handled s = items.
Proof.
  intros Hr Hl Hf. destruct (inv_input _ (inv_reachable _ Hr) Hf) as [-> Hi].
  rewrite (Hi Hl). destruct (main s); simpl in *; try done; by rewrite app_nil_r.
Qed.

Lemma barrier_done_no_senders s :
  reached s -> acks s = dispatchedCount s * length writables ->
  senders s = [] /\ done s = 0.
Proof.
  intros Hr Ha. pose proof (inv_count _ (inv_reachable _ Hr)) as Hc.
  split; [apply length_zero_iff_nil|]; lia.
Qed.

(** C4. Launching a fan-out goroutine never blocks the loop and adds one
    independent sender per listed output.  The remainder holds, in input
    order, the handled items that do not match.  When the dispatcher has
    finished on a context that did not fail, the remainder holds exactly
    the non-matching items of the input, in order, and each output holds
    what it held before plus one copy of every matching item for each time
    it is listed (so, for distinct outputs, exactly the matching items),
    in some order. *)
Theorem Dispatch_partitions_input :
  forall s, reached s ->
    (forall d w ws rdy, main s = Spawn d (w :: ws) -> crashed s = None ->
       exists s', exec fn writables (AMain rdy) s = Some s' /\
                  main s' = Spawn d ws /\
                  senders s' = senders s ++ [Sender w d Sending]) /\
    Chan.contents (rest s) ++ sending (main s)
      = List.filter (fun d => negb (fn d)) (handled s) /\
    (forall e, main s = Finished e -> Failure (ctx s) = false ->
       Chan.contents (rest s) = List.filter (fun d => negb (fn d)) items /\
       (forall w, conts (outs s) w
                  ≡ₚ conts chans w ++ flat_map (copies w writables) (List.filter fn items)) /\
       (NoDup writables ->
        forall w, w ∈ writables ->
                  conts (outs s) w ≡ₚ conts chans w ++ List.filter fn items)).
Proof.
  intros s Hr. pose proof (inv_reachable _ Hr) as Hinv. split; [|split].
  - intros d w ws rdy Hm Hc. unfold exec, main_step. rewrite Hc, Hm. eauto.
  - apply (inv_rest _ Hinv).
  - intros e Hm Hf.
    assert (handled s = items) as Hh by (apply failure_free_end; [done| by rewrite Hm |done]).
    assert (senders s = []) as Hs.
    { destruct (inv_acks _ Hinv) as [Ha|Ha]; [by rewrite Hm| |congruence].
      by apply barrier_done_no_senders. }
    assert (forall w, conts (outs s) w
              ≡ₚ conts chans w ++ flat_map (copies w writables) (List.filter fn items)) as Ho.
    { intros w. rewrite <-Hh, <-(inv_outs _ Hinv w), Hs, Hm. simpl.
      by rewrite app_nil_r. }
    split; [|split].
    + rewrite <-Hh, <-(inv_rest _ Hinv), Hm. simpl. by rewrite app_nil_r.
    + done.
    + intros Hnd w Hw. rewrite (Ho w). by rewrite flat_map_copies_NoDup.
Qed.

(** C5. An output that the dispatcher has closed, and the remainder once
    it is closed, are only met in states where the barrier has received
    matches times output-count acknowledgements or the context has
    failed; the remainder is closed after the loop that closes the outputs;
    and without a failure no fan-out delivery is still in flight when the
    remainder is closed. *)
Theorem Dispatch_closes_after_barrier :
  forall s, reached s ->
    let expected := length (List.filter fn (handled s)) * length writables in
    acks s <= expected /\
    (forall w, is_closed (outs s) w = true -> is_closed chans w = false ->
       acks s = expected \/ Failure (ctx s) = true) /\
    (Chan.closed (rest s) = true ->
       (acks s = expected \/ Failure (ctx s) = true) /\
       after_rest (main s) = true) /\
    (Chan.closed (rest s) = true -> Failure (ctx s) = false ->
       senders s = [] /\ done s = 0 /\
       forall w, conts (outs s) w
                 ≡ₚ conts chans w ++ flat_map (copies w writables) (List.filter fn items)).
Proof.
  intros s Hr expected. pose proof (inv_reachable _ Hr) as Hinv.
  pose proof (inv_count _ Hinv) as Hcnt.
  pose proof (inv_matches _ Hinv) as Hmt.
  assert (Chan.closed (rest s) = true -> past_barrier (main s) = true) as Hpast.
  { rewrite (inv_rest_closed _ Hinv). by destruct (main s). }
  unfold expected. rewrite <-Hmt. split; [lia|]. split; [|split].
  - intros w Hc Hc0. rewrite (inv_closed _ Hinv), Hc0 in Hc. simpl in Hc.
    apply bool_decide_eq_true_1 in Hc.
    apply (inv_acks _ Hinv).
    destruct (past_barrier (main s)) eqn:Hp; [done|].
    rewrite (inv_closes _ Hinv Hp) in Hc. by apply elem_of_nil in Hc.
  - intros Hc. split; [apply (inv_acks _ Hinv); auto|].
    by rewrite <-(inv_rest_closed _ Hinv).
  - intros Hc Hf.
    destruct (inv_acks _ Hinv (Hpast Hc)) as [Ha|Ha]; [|congruence].
    destruct (barrier_done_no_senders _ Hr Ha) as [Hs Hd].
    split; [done|]. split; [done|]. intros w.
    rewrite <-(failure_free_end s Hr); [| |done].
    + rewrite <-(inv_outs _ Hinv w), Hs. simpl.
      specialize (Hpast Hc). destruct (main s); simpl in *; try done;
        by rewrite app_nil_r.
    + specialize (Hpast Hc). by destruct (main s).
Qed.

(** Schedules in which only the dispatching goroutine moves. *)
Definition main_only (a : action) : Prop :=
  match a with AMain _ | ABarrierFailure => True | _ => False end.

Lemma reached_exec a s s' :
  reached s -> exec fn writables a s = Some s' -> reached s'.
Proof. intros Hr Hstep. eapply rtc_r; [done|]. by exists a. Qed.

Lemma main_step_crashed rdy s s' :
  main_step fn writables rdy s = Some s' -> crashed s' = crashed s.
Proof.
  unfold main_step, leave_loop, goto. intros Hstep.
  split_matches Hstep; done.
Qed.

Lemma main_step_acks rdy s s' :
  past_barrier (main s) = true ->
  main_step fn writables rdy s = Some s' -> acks s' = acks s.
Proof.
  unfold main_step, leave_loop, goto. intros Hp Hstep.
  destruct (main s); try done; split_matches Hstep; done.
Qed.

(** The deferred calls run to the end without help from anybody. *)
Lemma deferred_closes_run ws s :
  NoDup writables -> listed_open ->
  reached s -> crashed s = None -> main s = CloseAll ws ->
  exists s', run fn writables (replicate (length ws + 3) (AMain false)) s = Some s' /\
             main s' = Finished Returned /\ acks s' = acks s.
Proof.
  intros Hnd Hopen. revert s. induction ws as [|w ws IH]; intros s Hr Hc Hm.
  - pose proof (inv_reachable _ Hr) as Hinv.
    pose proof (closing_reachable _ Hnd Hopen Hr) as [Hp _].
    pose proof (inv_rest_closed _ Hinv) as Hrc. rewrite Hm in Hrc. simpl in Hrc.
    simpl. unfold exec at 1. rewrite Hc. unfold main_step at 1. rewrite Hm.
    unfold exec at 1. simpl. rewrite Hc. unfold main_step at 1. simpl.
    unfold Chan.close at 1. rewrite Hrc.
    unfold exec at 1. simpl. rewrite Hc. unfold main_step at 1. simpl.
    rewrite Hp. eauto.
  - destruct (exec fn writables (AMain false) s) as [s1|] eqn:Hstep.
    + pose proof (reached_exec _ _ _ Hr Hstep) as Hr1.
      pose proof (closing_reachable _ Hnd Hopen Hr1) as [Hp1 Hc1].
      unfold exec in Hstep. rewrite Hc in Hstep.
      pose proof (main_step_crashed _ _ _ Hstep) as Hcr.
      assert (main s1 = CloseAll ws) as Hm1.
      { unfold main_step in Hstep. rewrite Hm in Hstep.
        split_matches Hstep; simpl in *; congruence. }
      destruct (IH s1 Hr1) as (s' & Hrun & Hfin & Hacks); [congruence|done|].
      exists s'. split; [|split; [done|]].
      * simpl. unfold exec at 1. by rewrite Hc, Hstep.
      * rewrite Hacks. eapply main_step_acks; [|done]. by rewrite Hm.
    + exfalso. unfold exec in Hstep. rewrite Hc in Hstep.
      unfold main_step in Hstep. rewrite Hm in Hstep.
      destruct (Hopen w) as (c & Hl & _).
      { pose proof (closing_reachable _ Hnd Hopen Hr) as [_ Hcl].
        rewrite Hm in Hcl. rewrite <-Hcl. apply elem_of_app. right. by left. }
      destruct (outs s !! w) as [c1|] eqn:Hw.
      * destruct (Chan.close c1) eqn:Hcl1; try done.
        by apply Chan.close_not_Blocked in Hcl1.
      * apply lookup_ge_None in Hw. apply lookup_lt_Some in Hl.
        rewrite (inv_len _ (inv_reachable _ Hr)) in Hw. lia.
Qed.

Lemma main_finishes_alone s :
  NoDup writables -> listed_open ->
  reached s -> crashed s = None ->
  (main s = Range /\ input s = []) \/
  (exists d, main s = Select d /\ Failure (ctx s) = true) \/
  (exists n, main s = Barrier n) ->
  Failure (ctx s) = true \/ acks s = dispatchedCount s * length writables ->
  exists sched s', Forall main_only sched /\
                   run fn writables sched s = Some s' /\
                   main s' = Finished Returned /\ acks s' = acks s.
Proof.
  intros Hnd Hopen Hr Hc Hleave Hgo.
  assert (forall s1, reached s1 -> crashed s1 = None ->
            (exists n, main s1 = Barrier n) ->
            Failure (ctx s1) = true \/ acks s1 = dispatchedCount s1 * length writables ->
            exists sched s', Forall main_only sched /\
                   run fn writables sched s1 = Some s' /\
                   main s' = Finished Returned /\ acks s' = acks s1) as Hbarrier.
  { clear s Hr Hc Hleave Hgo. intros s Hr Hc [n Hm] Hgo.
    pose proof (inv_barrier _ (inv_reachable _ Hr) n Hm) as Hn.
    set (a := if bool_decide (acks s < n) then ABarrierFailure else AMain false).
    assert (exec fn writables a s = Some (goto (CloseAll writables) s)) as Hstep.
    { unfold a, exec, main_step, barrier_failure. rewrite Hc.
      case_bool_decide as Hlt; rewrite Hm.
      - rewrite bool_decide_eq_true_2 by done.
        destruct Hgo as [->|Ha]; [done|lia].
      - by rewrite bool_decide_eq_false_2. }
    destruct (deferred_closes_run writables (goto (CloseAll writables) s))
      as (s' & Hrun & Hfin & Hacks); try done.
    { by eapply reached_exec. }
    exists (a :: replicate (length writables + 3) (AMain false)), s'.
    split; [|split; [|split]].
    - constructor; [unfold a; by case_bool_decide|].
      apply Forall_replicate. done.
    - simpl. by rewrite Hstep.
    - done.
    - done. }
  destruct Hleave as [[Hm Hi]|[(d & Hm & Hf)|Hb]]; [| |by apply Hbarrier].
  - assert (exec fn writables (AMain false) s = Some (leave_loop writables s)) as Hstep.
    { unfold exec, main_step. by rewrite Hc, Hm, Hi. }
    destruct (Hbarrier (leave_loop writables s)) as (sched & s' & Hall & Hrun & Hfin & Hacks);
      try done.
    { by eapply reached_exec. }
    { unfold leave_loop, goto. simpl. eauto. }
    exists (AMain false :: sched), s'. split; [by constructor|].
    split; [|done]. simpl. by rewrite Hstep.
  - assert (exec fn writables (AMain false) s = Some (leave_loop writables s)) as Hstep.
    { unfold exec, main_step. by rewrite Hc, Hm, Hf. }
    destruct (Hbarrier (leave_loop writables s)) as (sched & s' & Hall & Hrun & Hfin & Hacks);
      try done.
    { by eapply reached_exec. }
    { unfold leave_loop, goto. simpl. eauto. }
    exists (AMain false :: sched), s'. split; [by constructor|].
    split; [|done]. simpl. by rewrite Hstep.
Qed.

(** C10. For distinct listed outputs that are open when [Dispatch] is
    called: whenever the dispatching goroutine has finished, by whatever
    path, it returned normally and the deferred loop has closed every
    listed output exactly once.  The deferred closes do run on each path:
    once the failure signal is up in the loop or at the barrier, and when
    the input ends with no matching item, the dispatching goroutine reaches
    its end on its own, taking no acknowledgement on the way. *)
Theorem Dispatch_closes_every_output_once :
  NoDup writables -> listed_open ->
  forall s, reached s ->
    (forall e, main s = Finished e ->
       e = Returned /\ closes s = writables /\
       forall w, w ∈ writables ->
         is_closed (outs s) w = true /\
         length (filter (fun w' => w' = w) (closes s)) = 1) /\
    (crashed s = None ->
     (main s = Range /\ input s = [] /\ dispatchedCount s = 0) \/
     (exists d, main s = Select d /\ Failure (ctx s) = true) \/
     (exists n, main s = Barrier n /\ Failure (ctx s) = true) ->
     exists sched s', Forall main_only sched /\
                      run fn writables sched s = Some s' /\
                      main s' = Finished Returned /\ acks s' = acks s).
Proof.
  intros Hnd Hopen s Hr. pose proof (inv_reachable _ Hr) as Hinv. split.
  - intros e Hm. destruct (closing_reachable _ Hnd Hopen Hr) as [_ Hc].
    rewrite Hm in Hc. destruct Hc as [Hc ->]. split; [done|]. split; [done|].
    intros w Hw. split.
    + rewrite (inv_closed _ Hinv), Hc. rewrite bool_decide_eq_true_2 by done.
      apply orb_true_r.
    + rewrite Hc. clear -Hnd Hw. induction Hnd as [|x l Hx Hl IH].
      * by apply elem_of_nil in Hw.
      * rewrite filter_cons. apply elem_of_cons in Hw as [->|Hw].
        -- rewrite decide_True by done. simpl.
           by rewrite filter_eq_fresh.
        -- rewrite decide_False; [by apply IH|]. intros ->. done.
  - intros Hc Hpath. apply main_finishes_alone; try done.
    + destruct Hpath as [(Hm & Hi & _)|[Hs|(n & Hm & _)]]; eauto.
    + destruct Hpath as [(Hm & Hi & Hz)|[(d & _ & Hf)|(n & _ & Hf)]]; auto.
      right. pose proof (inv_count _ Hinv). lia.
Qed.

(** *** A run to the end exists

    With fresh outputs whose readers keep up, the scheduler can always take
    the dispatcher to its end: deliveries are made as they are launched, and
    acknowledged one by one at the barrier. *)

Definition fresh (cs : list Chan.chan) : Prop :=
  forall w, w ∈ writables ->
    exists c, cs !! w = Some c /\ Chan.closed c = false /\ Chan.buf c = [].

Record calm (p : pc) (s : state) : Prop := {
  calm_main : main s = p;
  calm_senders : Forall (fun x => at_ x = Acking) (senders s);
  calm_rest : Chan.closed (rest s) = false /\ Chan.buf (rest s) = [];
  calm_outs : fresh (outs s);
  calm_done : done s = 0;
  calm_crashed : crashed s = None;
  calm_failure : Failure (ctx s) = false
}.

Lemma run_app sched1 sched2 s s1 s2 :
  run fn writables sched1 s = Some s1 ->
  run fn writables sched2 s1 = Some s2 ->
  run fn writables (sched1 ++ sched2) s = Some s2.
Proof.
  revert s. induction sched1 as [|a sched1 IH]; intros s H1 H2; simpl in *.
  - by simplify_eq.
  - destruct (exec fn writables a s); [|done]. by apply IH.
Qed.

Lemma fresh_handoff cs w c d :
  fresh cs -> cs !! w = Some c -> Chan.closed c = false -> Chan.buf c = [] ->
  exists c', Chan.write true c d = Ok c' /\ fresh (<[w := c']> cs).
Proof.
  intros Hf Hw Hc Hb. unfold Chan.write. rewrite Hc, Hb. simpl.
  eexists. split; [reflexivity|]. intros w' Hw'.
  destruct (decide (w' = w)) as [->|Hne].
  - eexists. rewrite list_lookup_insert_eq by (by eapply lookup_lt_Some). done.
  - rewrite list_lookup_insert_ne by done. by apply Hf.
Qed.

(** Every goroutine of the inner loop is launched and makes its delivery. *)
Lemma launch_all d ws s :
  (forall w, w ∈ ws -> w ∈ writables) ->
  calm (Spawn d ws) s ->
  exists sched s', run fn writables sched s = Some s' /\
                   calm Range s' /\ input s' = input s.
Proof.
  revert s. induction ws as [|w ws IH]; intros s Hws [Hm Hs [Hrc Hrb] Ho Hd Hc Hf].
  - exists [AMain true]. eexists. split.
    + simpl. unfold exec, main_step. rewrite Hc, Hm. reflexivity.
    + by split.
  - destruct (Ho w) as (c & Hw & Hcc & Hcb); [apply Hws; by left|].
    destruct (fresh_handoff _ w c d Ho Hw Hcc Hcb) as (c' & Hwr & Hfresh).
    set (s1 := {| main := Spawn d ws; input := input s; rest := rest s; outs := outs s;
              dispatchedCount := dispatchedCount s; done := done s;
              senders := senders s ++ [Sender w d Sending]; ctx := ctx s;
              panicking := panicking s; crashed := crashed s; acks := acks s;
              handled := handled s; closes := closes s |}).
    set (s2 := {| main := Spawn d ws; input := input s; rest := rest s;
              outs := <[w := c']> (outs s);
              dispatchedCount := dispatchedCount s; done := done s;
              senders := senders s ++ [Sender w d Acking]; ctx := ctx s;
              panicking := panicking s; crashed := crashed s; acks := acks s;
              handled := handled s; closes := closes s |}).
    assert (exec fn writables (AMain true) s = Some s1) as H1.
    { unfold exec, main_step, s1. by rewrite Hc, Hm. }
    assert (exec fn writables (ASender (length (senders s)) true) s1 = Some s2) as H2.
    { unfold exec, sender_step, s1, s2. simpl. rewrite Hc.
      rewrite list_lookup_middle by done. rewrite Hw, Hwr.
      do 2 f_equal. by rewrite insert_app_r_alt, Nat.sub_diag by lia. }
    destruct (IH s2) as (sched & s' & Hrun & Hcalm & Hin).
    { intros w' Hw'. apply Hws. by right. }
    { split; simpl; try done.
      apply Forall_app. split; [done|]. by apply Forall_singleton. }
    exists (AMain true :: ASender (length (senders s)) true :: sched), s'.
    split; [|done]. simpl. by rewrite H1, H2.
Qed.

(** The loop takes every item of the input. *)
Lemma loop_runs s :
  calm Range s ->
  exists sched s', run fn writables sched s = Some s' /\
                   calm Range s' /\ input s' = [].
Proof.
  remember (input s) as l eqn:Hl. revert s Hl.
  induction l as [|d l IH]; intros s Hl Hcalm.
  - exists [], s. split; [done|]. split; [done|]. by symmetry.
  - destruct Hcalm as [Hm Hs [Hrc Hrb] Ho Hd Hc Hf].
    set (s1 := {| main := Select d; input := l; rest := rest s; outs := outs s;
              dispatchedCount := dispatchedCount s; done := done s;
              senders := senders s; ctx := ctx s; panicking := panicking s;
              crashed := crashed s; acks := acks s; handled := handled s;
              closes := closes s |}).
    assert (exec fn writables (AMain true) s = Some s1) as H1.
    { unfold exec, main_step, s1. by rewrite Hc, Hm, <-Hl. }
    destruct (fn d) eqn:Hfn.
    + set (s2 := {| main := Spawn d writables; input := l; rest := rest s;
                outs := outs s; dispatchedCount := S (dispatchedCount s);
                done := done s; senders := senders s; ctx := ctx s;
                panicking := panicking s; crashed := crashed s; acks := acks s;
                handled := handled s ++ [d]; closes := closes s |}).
      assert (exec fn writables (AMain true) s1 = Some s2) as H2.
      { unfold exec, main_step, s1, s2. simpl. by rewrite Hc, Hf, Hfn. }
      destruct (launch_all d writables s2) as (sched1 & s3 & Hrun1 & Hcalm3 & Hin3);
        [done|by split|].
      destruct (IH s3) as (sched2 & s' & Hrun2 & Hcalm' & Hin'); [done|done|].
      exists ([AMain true; AMain true] ++ sched1 ++ sched2), s'.
      split; [|done]. simpl. rewrite H1, H2. by eapply run_app.
    + set (s2 := {| main := SendRest d; input := l; rest := rest s;
                outs := outs s; dispatchedCount := dispatchedCount s;
                done := done s; senders := senders s; ctx := ctx s;
                panicking := panicking s; crashed := crashed s; acks := acks s;
                handled := handled s ++ [d]; closes := closes s |}).
      assert (exec fn writables (AMain true) s1 = Some s2) as H2.
      { unfold exec, main_step, s1, s2. simpl. by rewrite Hc, Hf, Hfn. }
      set (c' := {| Chan.buf := []; Chan.cap := Chan.cap (rest s);
                    Chan.closed := false; Chan.taken := Chan.taken (rest s) ++ [d] |}).
      set (s3 := {| main := Range; input := l; rest := c'; outs := outs s;
                dispatchedCount := dispatchedCount s; done := done s;
                senders := senders s; ctx := ctx s; panicking := panicking s;
                crashed := crashed s; acks := acks s; handled := handled s ++ [d];
                closes := closes s |}).
      assert (exec fn writables (AMain true) s2 = Some s3) as H3.
      { unfold exec, main_step, s2, s3, c', Chan.write. simpl. by rewrite Hc, Hrc, Hrb. }
      destruct (IH s3) as (sched2 & s' & Hrun2 & Hcalm' & Hin'); [done|by split|].
      exists ([AMain true; AMain true; AMain true] ++ sched2), s'.
      split; [|done]. simpl. by rewrite H1, H2, H3.
Qed.

(** At the barrier the pending acknowledgements are sent and taken one by
    one. *)
Lemma barrier_runs k s n :
  reached s -> crashed s = None -> main s = Barrier n ->
  Forall (fun x => at_ x = Acking) (senders s) ->
  length (senders s) = k -> done s = 0 ->
  exists sched s', run fn writables sched s = Some s' /\
                   main s' = Barrier n /\ senders s' = [] /\ done s' = 0 /\
                   crashed s' = None /\ ctx s' = ctx s.
Proof.
  revert s. induction k as [|k IH]; intros s Hr Hc Hm Hs Hk Hd.
  - exists [], s. apply length_zero_iff_nil in Hk. by repeat split.
  - destruct (senders s) as [|[w d ph] snd] eqn:Hsnd; [done|].
    apply Forall_cons in Hs as [Hph Hs]. simpl in Hph, Hk. subst ph.
    pose proof (inv_count _ (inv_reachable _ Hr)) as Hcnt.
    pose proof (inv_barrier _ (inv_reachable _ Hr) n Hm) as Hn.
    rewrite Hm, Hsnd, Hd in Hcnt. simpl in Hcnt.
    assert (0 < length writables) as Hlen.
    { destruct (length writables); [lia|lia]. }
    set (s1 := {| main := main s; input := input s; rest := rest s; outs := outs s;
              dispatchedCount := dispatchedCount s; done := S (done s);
              senders := delete 0 (senders s); ctx := ctx s;
              panicking := panicking s; crashed := crashed s;
              acks := acks s; handled := handled s; closes := closes s |}).
    assert (exec fn writables (ASender 0 false) s = Some s1) as H1.
    { unfold exec, sender_step, s1. rewrite Hc, Hsnd, Hd. simpl.
      by rewrite bool_decide_eq_true_2. }
    set (s2 := {| main := Barrier n; input := input s; rest := rest s;
              outs := outs s; dispatchedCount := dispatchedCount s;
              done := 0; senders := snd; ctx := ctx s;
              panicking := panicking s; crashed := crashed s;
              acks := S (acks s); handled := handled s; closes := closes s |}).
    assert (exec fn writables (AMain false) s1 = Some s2) as H2.
    { unfold exec, main_step, s1, s2. simpl. rewrite Hc, Hm, Hsnd, Hd. simpl.
      rewrite bool_decide_eq_true_2 by lia. done. }
    destruct (IH s2) as (sched & s' & Hrun & Hm' & Hs' & Hd' & Hc' & Hctx); simpl; try done.
    { eapply reached_exec; [|exact H2]. by eapply reached_exec. }
    { lia. }
    exists (ASender 0 false :: AMain false :: sched), s'.
    split; [|done]. simpl. by rewrite H1, H2.
Qed.

Lemma main_only_ctx sched s s' :
  Forall main_only sched -> run fn writables sched s = Some s' -> ctx s' = ctx s.
Proof.
  revert s. induction sched as [|a sched IH]; intros s Hall Hrun; simpl in Hrun.
  - by simplify_eq.
  - apply Forall_cons in Hall as [Ha Hall].
    destruct (exec fn writables a s) as [s1|] eqn:Hstep; [|done].
    rewrite (IH s1 Hall Hrun). unfold exec in Hstep.
    destruct (crashed s); [done|]. destruct a; try done.
    + unfold main_step, leave_loop, goto in Hstep. split_matches Hstep; done.
    + unfold barrier_failure, goto in Hstep. split_matches Hstep; done.
Qed.

(** For distinct fresh outputs and a context that does not fail, some
    schedule takes [Dispatch] from the call to the normal end of its
    goroutine. *)
Theorem Dispatch_can_finish :
  NoDup writables -> fresh chans -> Failure c0 = false ->
  exists sched s,
    run fn writables sched (init c0 items capacity chans) = Some s /\
    main s = Finished Returned /\ Failure (ctx s) = false.
Proof.
  intros Hnd Hfresh Hf0.
  assert (listed_open) as Hopen.
  { intros w Hw. destruct (Hfresh w Hw) as (c & ? & ? & _). eauto. }
  destruct (loop_runs (init c0 items capacity chans)) as (sched1 & s1 & Hrun1 & Hcalm & Hin).
  { by split. }
  destruct Hcalm as [Hm Hs _ _ Hd Hc Hf].
  assert (reached s1) as Hr1 by (by eapply run_reachable).
  set (s2 := leave_loop writables s1).
  assert (exec fn writables (AMain false) s1 = Some s2) as H2.
  { unfold exec, main_step. by rewrite Hc, Hm, Hin. }
  assert (reached s2) as Hr2 by (by eapply reached_exec).
  destruct (barrier_runs (length (senders s2)) s2 (dispatchedCount s1 * length writables))
    as (sched3 & s3 & Hrun3 & Hm3 & Hs3 & Hd3 & Hc3 & Hctx3); try done.
  assert (reached s3) as Hr3.
  { eapply rtc_trans; [exact Hr2|]. by eapply run_reachable. }
  pose proof (inv_count _ (inv_reachable _ Hr3)) as Hcnt.
  rewrite Hm3, Hs3, Hd3 in Hcnt. simpl in Hcnt.
  destruct (main_finishes_alone s3) as (sched4 & s4 & Hall & Hrun4 & Hfin & _);
    try done; [eauto | right; lia |].
  exists (sched1 ++ AMain false :: sched3 ++ sched4), s4.
  split; [|split; [done|]].
  - eapply run_app; [exact Hrun1|]. simpl. rewrite H2. by eapply run_app.
  - rewrite (main_only_ctx _ _ _ Hall Hrun4), Hctx3. done.
Qed.

End Invariants.

End Dispatcher.

(** ** The dispatcher on the input of the test-suite

    [FromSlice([]T{1, 2, 3, 4, 5}).DispatchIf(evens, out)] with
    [in, out := NewStream(2)]. *)
Module DispatchTest.
Import Dispatcher.

Definition items : list T := [TInt 1; TInt 2; TInt 3; TInt 4; TInt 5].

Definition open_context : Context := {| Closed := false; Failure := false |}.

Definition start : state := init open_context items 2 [Chan.New 2].

Definition m : action := AMain true.

(** The loop over the five items, up to the barrier. *)
Definition loop_schedule : list action :=
  [m; m; m] ++ [m; m; m; m] ++ [m; m; m] ++ [m; m; m; m] ++ [m; m; m] ++ [m].

(** Both deliveries are acknowledged, then the deferred calls run. *)
Definition normal_schedule : list action :=
  loop_schedule ++
  [ASender 0 false; ASender 0 false; m; ASender 0 false; ASender 0 false; m] ++
  [m; m; m; m; m].

(** The context fails before the first item is looked at. *)
Definition failure_in_loop_schedule : list action :=
  [m; AFail; m] ++ [m; m; m; m; m].

(** The context fails while the barrier waits for two acknowledgements. *)
Definition failure_at_barrier_schedule : list action :=
  loop_schedule ++ [AFail; ABarrierFailure] ++ [m; m; m; m].

Definition end_of (sched : list action) : state :=
  match run evens [0] sched start with
  | Some s => s
  | None => start
  end.

Definition normal_end : state := Eval vm_compute in end_of normal_schedule.
Definition failure_in_loop_end : state := Eval vm_compute in end_of failure_in_loop_schedule.
Definition failure_at_barrier_end : state :=
  Eval vm_compute in end_of failure_at_barrier_schedule.
Definition at_barrier : state := Eval vm_compute in end_of loop_schedule.

Lemma normal_run : run evens [0] normal_schedule start = Some normal_end.
Proof. reflexivity. Qed.

Lemma failure_in_loop_run :
  run evens [0] failure_in_loop_schedule start = Some failure_in_loop_end.
Proof. reflexivity. Qed.

Lemma failure_at_barrier_run :
  run evens [0] failure_at_barrier_schedule start = Some failure_at_barrier_end.
Proof. reflexivity. Qed.

Lemma loop_run : run evens [0] loop_schedule start = Some at_barrier.
Proof. reflexivity. Qed.

Lemma one_output_NoDup : NoDup [0].
Proof. apply NoDup_singleton. Qed.

Lemma one_output_open : listed_open [0] [Chan.New 2].
Proof.
  intros w Hw. apply list_elem_of_singleton in Hw as ->.
  by exists (Chan.New 2).
Qed.

(** What the test asserts: [2, 4] on the extra output, and [1, 3, 5] on
    the remainder (which the test then maps to [3, 5, 7]). *)
Example normal_end_streams :
  main normal_end = Finished Returned /\
  Chan.contents (rest normal_end) = [TInt 1; TInt 3; TInt 5] /\
  conts (outs normal_end) 0 = [TInt 2; TInt 4] /\
  is_closed (outs normal_end) 0 = true /\
  Chan.closed (rest normal_end) = true.
Proof. by repeat split. Qed.

(** A delivery still in flight when a failure lets the barrier through
    finds its output closed: the send panics in a goroutine that has no
    guard. *)
Example late_delivery_panics :
  exists s, exec evens [0] (ASender 0 true) failure_at_barrier_end = Some s /\
            crashed s = Some SendOnClosedChannel.
Proof. eexists. split; reflexivity. Qed.

(** An output listed twice is closed once; the second [close] panics, the
    guard of the dispatching goroutine recovers it, and the remainder is
    closed all the same. *)
Example output_listed_twice :
  exists s, run evens [0; 0] [m; AFail; m; m; m; m; m; m]
              (init open_context items 2 [Chan.New 2]) = Some s /\
            main s = Finished (Recovered CloseOfClosedChannel) /\
            closes s = [0] /\ Chan.closed (rest s) = true.
Proof. eexists. split; [reflexivity|]. by repeat split. Qed.

Lemma Dispatch_partitions_input_witness :
  Chan.contents (rest normal_end) = [TInt 1; TInt 3; TInt 5] /\
  conts (outs normal_end) 0 ≡ₚ [TInt 2; TInt 4].
Proof.
  destruct (Dispatch_partitions_input evens [0] open_context items 2 [Chan.New 2]
              normal_end (run_reachable _ _ _ _ _ normal_run)) as (_ & _ & H).
  destruct (H Returned eq_refl eq_refl) as (Hrest & _ & Hout).
  split; [exact Hrest|].
  apply (Hout one_output_NoDup 0). by left.
Defined.

Lemma Dispatch_closes_after_barrier_witness :
  acks normal_end = 2 /\ senders normal_end = [] /\
  acks failure_at_barrier_end = 0 /\ Failure (ctx failure_at_barrier_end) = true.
Proof.
  destruct (Dispatch_closes_after_barrier evens [0] open_context items 2 [Chan.New 2]
              normal_end (run_reachable _ _ _ _ _ normal_run)) as (_ & _ & _ & H).
  destruct (H eq_refl eq_refl) as (Hs & _ & _).
  destruct (Dispatch_closes_after_barrier evens [0] open_context items 2 [Chan.New 2]
              failure_at_barrier_end (run_reachable _ _ _ _ _ failure_at_barrier_run))
    as (_ & H' & _ & _).
  destruct (H' 0 eq_refl eq_refl) as [Ha|Hf]; [discriminate Ha|].
  split; [reflexivity|]. split; [exact Hs|]. split; [reflexivity | exact Hf].
Defined.

Lemma Dispatch_closes_every_output_once_witness :
  closes normal_end = [0] /\
  closes failure_in_loop_end = [0] /\
  closes failure_at_barrier_end = [0] /\
  exists sched s', run evens [0] sched at_barrier = Some s' /\
                   main s' = Finished Returned.
Proof.
  pose proof (Dispatch_closes_every_output_once evens [0] open_context items 2
                [Chan.New 2] one_output_NoDup one_output_open) as H.
  destruct (H normal_end (run_reachable _ _ _ _ _ normal_run)) as [H1 _].
  destruct (H failure_in_loop_end (run_reachable _ _ _ _ _ failure_in_loop_run)) as [H2 _].
  destruct (H failure_at_barrier_end (run_reachable _ _ _ _ _ failure_at_barrier_run))
    as [H3 _].
  destruct (H (signal {| Closed := false; Failure := true |} at_barrier)) as [_ H4].
  { eapply rtc_r; [exact (run_reachable _ _ _ _ _ loop_run)|]. by exists AFail. }
  destruct (H1 _ eq_refl) as (_ & Hc1 & _).
  destruct (H2 _ eq_refl) as (_ & Hc2 & _).
  destruct (H3 _ eq_refl) as (_ & Hc3 & _).
  destruct H4 as (sched & s' & _ & Hrun & Hfin & _); [reflexivity| |].
  { right. right. by exists 2. }
  split; [exact Hc1|]. split; [exact Hc2|]. split; [exact Hc3|].
  exists (AFail :: sched), s'. split; [exact Hrun | exact Hfin].
Defined.

End DispatchTest.

(** ** The hierarchy of contexts (package context)

    Only the tests of this package are among the sources
    ([TestClose], [TestParentContextCannotBeClosedWhenChildrenAreStillOpened],
    [TestParentContextIsClosedWhenAllChildrenAreClosed]). *)
Module ContextTree.

(** Modelled from the spec: the context implementation is missing.  A
    context is a node of a rooted tree with a close-requested flag, its
    derived closed state and a failure cause set at most once; the tree is
    kept as an arena, a child naming its parent by index. *)
Record node : Type := Node {
  parent : option nat;
  closeRequested : bool;
  closed : bool;
  cause : option string
}.

Abbreviation tree := (list node).

(** Modelled from the spec: [context.New()], a root that nobody owns. *)
Definition New : tree := [Node None false false None].

(** Modelled from the spec: [derive-child(C)] registers a new, open
    context in the child set of [c]; it never fails. *)
Definition NewChild (c : nat) (t : tree) : tree :=
  t ++ [Node (Some c) false false None].

(** The handle [NewChild] returns. *)
Definition child_handle (t : tree) : nat := length t.

Definition owned_by (c : nat) (n : node) : bool :=
  bool_decide (parent n = Some c).

(** Every child that [c] owns is closed (true when it owns none). *)
Definition all_children_closed (c : nat) (t : tree) : bool :=
  forallb (fun n => implb (owned_by c n) (closed n)) t.

Definition request (n : node) : node :=
  Node (parent n) true (closed n) (cause n).

Definition shut (n : node) : node :=
  Node (parent n) true true (cause n).

(** Modelled from the spec: [close(ctx)] marks the context
    close-requested; if all its children are already closed it becomes
    closed and the same is attempted on its parent, recursively.  [fuel]
    bounds the walk towards the root. *)
Fixpoint close_from (fuel : nat) (c : nat) (t : tree) : tree :=
  match fuel with
  | O => t
  | S fuel' =>
      match t !! c with
      | None => t
      | Some n =>
          let t1 := <[c := request n]> t in
          if all_children_closed c t1 then
            let t2 := <[c := shut n]> t1 in
            match parent n with
            | Some p => close_from fuel' p t2
            | None => t2
            end
          else t1
      end
  end.

Definition Close (c : nat) (t : tree) : tree := close_from (length t) c t.

(** Modelled from the spec: [fail(ctx, cause)] records the cause, the
    first one wins; it flips neither the closed nor the close-requested
    flag. *)
Definition Fail (c : nat) (e : string) (t : tree) : tree :=
  match t !! c with
  | Some n =>
      <[c := Node (parent n) (closeRequested n) (closed n)
                  (match cause n with Some e0 => Some e0 | None => Some e end)]> t
  | None => t
  end.

(** What [BeClosed()] observes. *)
Definition is_closed (c : nat) (t : tree) : bool :=
  match t !! c with Some n => closed n | None => false end.

Definition is_requested (c : nat) (t : tree) : bool :=
  match t !! c with Some n => closeRequested n | None => false end.

Definition parent_of (c : nat) (t : tree) : option nat :=
  match t !! c with Some n => parent n | None => None end.

Inductive op : Type :=
  | ONewChild (c : nat)
  | OClose (c : nat)
  | OFail (c : nat) (e : string).

(** Operations are called on contexts that exist. *)
Definition apply (o : op) (t : tree) : option tree :=
  match o with
  | ONewChild c => if bool_decide (c < length t) then Some (NewChild c t) else None
  | OClose c => if bool_decide (c < length t) then Some (Close c t) else None
  | OFail c e => if bool_decide (c < length t) then Some (Fail c e t) else None
  end.

Definition step (t t' : tree) : Prop := exists o, apply o t = Some t'.

Definition reachable (t : tree) : Prop := rtc step New t.

Fixpoint run_ops (ops : list op) (t : tree) : option tree :=
  match ops with
  | [] => Some t
  | o :: ops' =>
      match apply o t with
      | Some t' => run_ops ops' t'
      | None => None
      end
  end.

(** *** The tests of the package *)

(** [TestClose]. *)
Example TestClose :
  is_closed 0 New = false /\ is_closed 0 (Close 0 New) = true.
Proof. done. Qed.

(** [TestParentContextCannotBeClosedWhenChildrenAreStillOpened]:
    parent = 0, child1 = 1, child2 = 2. *)
Example TestParentContextCannotBeClosedWhenChildrenAreStillOpened :
  let t := NewChild 0 (NewChild 0 New) in
  is_closed 1 t = false /\ is_closed 2 t = false /\
  let t' := Close 0 t in
  is_closed 1 t' = false /\ is_closed 2 t' = false /\ is_closed 0 t' = false.
Proof. done. Qed.

(** [TestParentContextIsClosedWhenAllChildrenAreClosed]:
    parent = 0, child1 = 1, child2 = 2, grandchild = 3 (of child2). *)
Example TestParentContextIsClosedWhenAllChildrenAreClosed :
  let t0 := NewChild 2 (NewChild 0 (NewChild 0 New)) in
  let t1 := Close 1 t0 in
  is_closed 1 t1 = true /\ is_closed 0 t1 = false /\
  is_closed 2 t1 = false /\ is_closed 3 t1 = false /\
  let t2 := Close 2 t1 in
  is_closed 2 t2 = false /\ is_closed 0 t2 = false /\
  let t3 := Close 3 t2 in
  is_closed 3 t3 = true /\ is_closed 2 t3 = true /\ is_closed 0 t3 = true.
Proof. done. Qed.

(** The other reading of "attempts to close its parent": the parent is
    looked at again when a child closes, but closes only if [Close] was
    called on it.  The last assertion of the third test fails under it:
    nobody calls [Close] on the parent there. *)
Fixpoint reconsider_from (fuel : nat) (c : nat) (t : tree) : tree :=
  match fuel with
  | O => t
  | S fuel' =>
      match t !! c with
      | None => t
      | Some n =>
          if closeRequested n && all_children_closed c t then
            let t' := <[c := shut n]> t in
            match parent n with
            | Some p => reconsider_from fuel' p t'
            | None => t'
            end
          else t
      end
  end.

Definition Close_on_request (c : nat) (t : tree) : tree :=
  match t !! c with
  | Some n => reconsider_from (length t) c (<[c := request n]> t)
  | None => t
  end.

Example Close_on_request_fails_the_test :
  let t0 := NewChild 2 (NewChild 0 (NewChild 0 New)) in
  let t3 := Close_on_request 3 (Close_on_request 2 (Close_on_request 1 t0)) in
  is_closed 3 t3 = true /\ is_closed 2 t3 = true /\ is_closed 0 t3 = false.
Proof. done. Qed.

(** *** Facts about the arena *)

Lemma children_closed_spec c t :
  all_children_closed c t = true <->
  forall j n, t !! j = Some n -> parent n = Some c -> closed n = true.
Proof.
  unfold all_children_closed. rewrite forallb_forall. split.
  - intros H j n Hj Hp. specialize (H n).
    unfold owned_by in H. rewrite bool_decide_eq_true_2 in H by done.
    apply H. apply list_elem_of_In. by eapply list_elem_of_lookup_2.
  - intros H n Hn. apply list_elem_of_In, list_elem_of_lookup in Hn as [j Hj].
    unfold owned_by. case_bool_decide as Hp; [|done]. simpl. by eapply H.
Qed.

(** A child is created after its parent. *)
Definition well_formed (t : tree) : Prop :=
  forall i n p, t !! i = Some n -> parent n = Some p -> p < i.

(** Same contexts, same owners; flags only go up. *)
Definition grows (t t' : tree) : Prop :=
  length t' = length t /\
  forall i n, t !! i = Some n ->
    exists n', t' !! i = Some n' /\ parent n' = parent n /\
               (closeRequested n = true -> closeRequested n' = true) /\
               (closed n = true -> closed n' = true).

Lemma grows_refl t : grows t t.
Proof. split; [done|]. intros i n Hi. exists n. auto. Qed.

Lemma grows_trans t1 t2 t3 : grows t1 t2 -> grows t2 t3 -> grows t1 t3.
Proof.
  intros [Hl1 H1] [Hl2 H2]. split; [congruence|].
  intros i n Hi. destruct (H1 i n Hi) as (n' & Hi' & Hp & Hr & Hc).
  destruct (H2 i n' Hi') as (n'' & Hi'' & Hp' & Hr' & Hc').
  exists n''. repeat split; [done|congruence|auto|auto].
Qed.

Lemma grows_insert t c n n' :
  t !! c = Some n -> parent n' = parent n ->
  (closeRequested n = true -> closeRequested n' = true) ->
  (closed n = true -> closed n' = true) ->
  grows t (<[c := n']> t).
Proof.
  intros Hc Hp Hr Hcl. split; [by rewrite length_insert|].
  intros i m Hi. destruct (decide (i = c)) as [->|Hne].
  - exists n'. rewrite list_lookup_insert_eq by (by eapply lookup_lt_Some).
    by simplify_eq.
  - exists m. by rewrite list_lookup_insert_ne.
Qed.

Lemma grows_lookup_inv t t' j m' :
  grows t t' -> t' !! j = Some m' ->
  exists m, t !! j = Some m /\ parent m' = parent m /\
            (closeRequested m = true -> closeRequested m' = true) /\
            (closed m = true -> closed m' = true).
Proof.
  intros [Hl H] Hj. destruct (lookup_lt_is_Some_2 t j) as [m Hm].
  { rewrite <-Hl. by eapply lookup_lt_Some. }
  destruct (H j m Hm) as (m'' & Hj' & ?). simplify_eq. eauto.
Qed.

Lemma grows_children_closed t t' c :
  grows t t' -> all_children_closed c t = true -> all_children_closed c t' = true.
Proof.
  rewrite !children_closed_spec. intros Hg H j m' Hj Hp.
  destruct (grows_lookup_inv _ _ _ _ Hg Hj) as (m & Hm & Hpm & _ & Hc).
  apply Hc. eapply H; [done|congruence].
Qed.

Lemma grows_is_closed t t' c :
  grows t t' -> is_closed c t = true -> is_closed c t' = true.
Proof.
  intros [_ H]. unfold is_closed. destruct (t !! c) as [n|] eqn:Hn; [|done].
  destruct (H c n Hn) as (n' & -> & _ & _ & Hc). done.
Qed.

Lemma grows_is_requested t t' c :
  grows t t' -> is_requested c t = true -> is_requested c t' = true.
Proof.
  intros [_ H]. unfold is_requested. destruct (t !! c) as [n|] eqn:Hn; [|done].
  destruct (H c n Hn) as (n' & -> & _ & Hr & _). done.
Qed.

Lemma grows_parent_of t t' c p :
  grows t t' -> parent_of c t = Some p -> parent_of c t' = Some p.
Proof.
  intros [_ H]. unfold parent_of. destruct (t !! c) as [n|] eqn:Hn; [|done].
  destruct (H c n Hn) as (n' & -> & Hp & _). congruence.
Qed.

Lemma grows_well_formed t t' : grows t t' -> well_formed t -> well_formed t'.
Proof.
  intros Hg Hwf i n' p Hi Hp.
  destruct (grows_lookup_inv _ _ _ _ Hg Hi) as (n & Hn & Hpn & _).
  eapply Hwf; [done|congruence].
Qed.

(** Replacing a node changes [all_children_closed i] only if the node is
    owned by [i] and its closed flag changes. *)
Lemma children_closed_insert t c n n' i :
  t !! c = Some n -> parent n' = parent n ->
  (parent n = Some i -> closed n' = closed n) ->
  all_children_closed i (<[c := n']> t) = all_children_closed i t.
Proof.
  intros Hc Hp Hcl. apply eq_true_iff_eq. rewrite !children_closed_spec.
  assert (c < length t) as Hlt by (by eapply lookup_lt_Some).
  split; intros H j m Hj Hpm.
  - destruct (decide (j = c)) as [->|Hne].
    + simplify_eq. rewrite <-Hcl by done.
      apply (H c n'); [by rewrite list_lookup_insert_eq | congruence].
    + apply (H j m); [by rewrite list_lookup_insert_ne | done].
  - destruct (decide (j = c)) as [->|Hne].
    + rewrite list_lookup_insert_eq in Hj by done. simplify_eq.
      rewrite Hcl by congruence. apply (H c n); [done|congruence].
    + rewrite list_lookup_insert_ne in Hj by done. by apply (H j m).
Qed.

Lemma close_from_grows fuel c t : grows t (close_from fuel c t).
Proof.
  revert c t. induction fuel as [|fuel IH]; intros c t; simpl; [apply grows_refl|].
  destruct (t !! c) as [n|] eqn:Hc; [|apply grows_refl].
  assert (grows t (<[c := request n]> t)) as H1 by (by apply (grows_insert _ _ n)).
  assert (grows (<[c := request n]> t) (<[c := shut n]> (<[c := request n]> t))) as H2.
  { apply (grows_insert _ _ (request n)); try done.
    apply list_lookup_insert_eq. by eapply lookup_lt_Some. }
  destruct (all_children_closed c _); [|done].
  destruct (parent n) as [p|].
  - eapply grows_trans; [exact H1|]. eapply grows_trans; [exact H2|]. apply IH.
  - by eapply grows_trans.
Qed.

Lemma Close_grows c t : grows t (Close c t).
Proof. apply close_from_grows. Qed.

(** The walk towards the root leaves the contexts created later alone. *)
Lemma close_from_above fuel c t i :
  well_formed t -> c < i -> close_from fuel c t !! i = t !! i.
Proof.
  revert c t. induction fuel as [|fuel IH]; intros c t Hwf Hlt; simpl; [done|].
  destruct (t !! c) as [n|] eqn:Hc; [|done].
  assert (grows t (<[c := request n]> t)) as H1 by (by apply (grows_insert _ _ n)).
  assert (grows (<[c := request n]> t) (<[c := shut n]> (<[c := request n]> t))) as H2.
  { apply (grows_insert _ _ (request n)); try done.
    apply list_lookup_insert_eq. by eapply lookup_lt_Some. }
  destruct (all_children_closed c _).
  - destruct (parent n) as [p|] eqn:Hp.
    + rewrite IH.
      * rewrite !list_lookup_insert_ne by lia. done.
      * eapply grows_well_formed; [exact H2|]. by eapply grows_well_formed.
      * specialize (Hwf c n p Hc Hp). lia.
    + rewrite !list_lookup_insert_ne by lia. done.
  - rewrite list_lookup_insert_ne by lia. done.
Qed.

Lemma tree_is_closed_insert t c n' i :
  c < length t ->
  is_closed i (<[c := n']> t) = if bool_decide (i = c) then closed n' else is_closed i t.
Proof.
  intros Hlt. unfold is_closed. case_bool_decide as Hi.
  - subst. by rewrite list_lookup_insert_eq.
  - by rewrite list_lookup_insert_ne.
Qed.

Lemma is_requested_insert t c n' i :
  c < length t ->
  is_requested i (<[c := n']> t) =
    if bool_decide (i = c) then closeRequested n' else is_requested i t.
Proof.
  intros Hlt. unfold is_requested. case_bool_decide as Hi.
  - subst. by rewrite list_lookup_insert_eq.
  - by rewrite list_lookup_insert_ne.
Qed.

(** A context that the walk closes was close-requested and had all its
    children closed, and still has when the walk is over. *)
Lemma close_from_becomes_closed fuel c t i :
  is_closed i t = false -> is_closed i (close_from fuel c t) = true ->
  is_requested i (close_from fuel c t) = true /\
  all_children_closed i (close_from fuel c t) = true.
Proof.
  revert c t. induction fuel as [|fuel IH]; intros c t Hopen Hclosed; simpl in *;
    [congruence|].
  destruct (t !! c) as [n|] eqn:Hc; [|congruence].
  assert (c < length t) as Hlt by (by eapply lookup_lt_Some).
  set (t1 := <[c := request n]> t) in *.
  set (t2 := <[c := shut n]> t1) in *.
  assert (c < length t1) as Hlt1 by (unfold t1; by rewrite length_insert).
  assert (is_closed i t1 = false) as Hopen1.
  { unfold t1. rewrite tree_is_closed_insert by done. case_bool_decide; [|done].
    subst. unfold is_closed in Hopen. by rewrite Hc in Hopen. }
  destruct (all_children_closed c t1) eqn:Hall; [|congruence].
  assert (grows t1 t2) as Hg2.
  { apply (grows_insert _ _ (request n)); try done.
    by apply list_lookup_insert_eq. }
  assert (is_closed i t2 = true ->
          i = c /\ is_requested c t2 = true /\ all_children_closed c t2 = true) as Hhere.
  { unfold t2 at 1. rewrite tree_is_closed_insert by done.
    case_bool_decide as Hi; [|congruence]. intros _. split; [done|]. split.
    - unfold t2. rewrite is_requested_insert by done.
      by rewrite bool_decide_eq_true_2.
    - by eapply grows_children_closed. }
  destruct (parent n) as [p|].
  - destruct (is_closed i t2) eqn:Hc2.
    + destruct Hhere as (-> & Hr & Ha); [done|].
      pose proof (close_from_grows fuel p t2) as Hg. split.
      * by eapply grows_is_requested.
      * by eapply grows_children_closed.
    + by apply IH.
  - destruct (Hhere Hclosed) as (-> & Hr & Ha). done.
Qed.

(** What holds of a context between two operations: close-requested with
    every child closed means closed. *)
Definition settled (i : nat) (t : tree) : Prop :=
  is_requested i t = true -> all_children_closed i t = true -> is_closed i t = true.

(** The walk settles every context, provided it has fuel to reach the
    place where it stops. *)
Lemma close_from_settles fuel c t :
  well_formed t -> c < fuel -> c < length t ->
  (forall i, i <> c -> settled i t) ->
  forall i, settled i (close_from fuel c t).
Proof.
  revert c t. induction fuel as [|fuel IH]; intros c t Hwf Hfuel Hlt Hset; [lia|].
  simpl. destruct (lookup_lt_is_Some_2 t c Hlt) as [n Hc]. rewrite Hc.
  set (t1 := <[c := request n]> t).
  set (t2 := <[c := shut n]> t1).
  assert (c < length t1) as Hlt1 by (unfold t1; by rewrite length_insert).
  assert (t1 !! c = Some (request n)) as Hc1 by (by apply list_lookup_insert_eq).
  assert (forall i, i <> c -> settled i t1) as Hset1.
  { intros i Hi. unfold settled, t1.
    rewrite is_requested_insert, tree_is_closed_insert by done.
    rewrite !bool_decide_eq_false_2 by done.
    rewrite (children_closed_insert t c n) by done. by apply Hset. }
  destruct (all_children_closed c t1) eqn:Hall.
  - assert (settled c t2) as Hsc.
    { intros _ _. unfold t2. rewrite tree_is_closed_insert by done.
      by rewrite bool_decide_eq_true_2. }
    assert (forall i, i <> c -> parent n <> Some i -> settled i t2) as Hset2.
    { intros i Hi Hp. unfold settled, t2.
      rewrite is_requested_insert, tree_is_closed_insert by done.
      rewrite !bool_decide_eq_false_2 by done.
      rewrite (children_closed_insert t1 c (request n)) by done.
      by apply Hset1. }
    destruct (parent n) as [p|] eqn:Hp.
    + pose proof (Hwf c n p Hc Hp) as Hpc.
      assert (grows t t2) as Hg.
      { eapply grows_trans; [by apply (grows_insert t c n (request n))|].
        by apply (grows_insert t1 c (request n)). }
      apply IH.
      * by eapply grows_well_formed.
      * lia.
      * destruct Hg as [-> _]. lia.
      * intros i Hi. destruct (decide (i = c)) as [->|Hne]; [done|].
        apply Hset2; [done|congruence].
    + intros i. destruct (decide (i = c)) as [->|Hne]; [done|].
      by apply Hset2.
  - intros i. destruct (decide (i = c)) as [->|Hne]; [|by apply Hset1].
    intros _ Ha. fold t1 in Ha. congruence.
Qed.

Lemma close_from_requests fuel c t :
  0 < fuel -> c < length t -> is_requested c (close_from fuel c t) = true.
Proof.
  intros Hfuel Hlt. destruct fuel as [|fuel]; [lia|].
  simpl. destruct (lookup_lt_is_Some_2 t c Hlt) as [n Hc]. rewrite Hc.
  assert (is_requested c (<[c := request n]> t) = true) as H1.
  { rewrite is_requested_insert by lia. by rewrite bool_decide_eq_true_2. }
  assert (is_requested c (<[c := shut n]> (<[c := request n]> t)) = true) as H2.
  { rewrite is_requested_insert by (rewrite length_insert; lia).
    by rewrite bool_decide_eq_true_2. }
  destruct (all_children_closed c _); [|done].
  destruct (parent n); [|done].
  eapply grows_is_requested; [apply close_from_grows|done].
Qed.

Lemma Close_requests c t : c < length t -> is_requested c (Close c t) = true.
Proof. intros Hlt. apply close_from_requests; lia. Qed.

(** A context that the walk closes has its parent close-requested: the
    walk goes on with a [close] of the parent. *)
Lemma close_from_requests_parent fuel c t a p :
  well_formed t -> c < fuel -> c < length t ->
  parent_of a t = Some p ->
  is_closed a t = false -> is_closed a (close_from fuel c t) = true ->
  is_requested p (close_from fuel c t) = true.
Proof.
  revert c t. induction fuel as [|fuel IH]; intros c t Hwf Hfuel Hlt Hp Hopen Hclosed;
    [lia|].
  simpl in *. destruct (lookup_lt_is_Some_2 t c Hlt) as [n Hc]. rewrite Hc in *.
  set (t1 := <[c := request n]> t) in *.
  set (t2 := <[c := shut n]> t1) in *.
  assert (c < length t1) as Hlt1 by (unfold t1; by rewrite length_insert).
  assert (grows t t2) as Hg.
  { eapply grows_trans; [by apply (grows_insert t c n (request n))|].
    apply (grows_insert t1 c (request n)); try done.
    by apply list_lookup_insert_eq. }
  assert (is_closed a t1 = false) as Hopen1.
  { unfold t1. rewrite tree_is_closed_insert by done. case_bool_decide; [|done].
    subst. unfold is_closed in Hopen. by rewrite Hc in Hopen. }
  destruct (all_children_closed c t1) eqn:Hall; [|congruence].
  assert (is_closed a t2 = true -> a = c) as Hhere.
  { unfold t2. rewrite tree_is_closed_insert by done.
    case_bool_decide; [done|congruence]. }
  destruct (parent n) as [q|] eqn:Hq.
  - pose proof (Hwf c n q Hc Hq) as Hqc.
    assert (q < length t2) as Hlt2 by (destruct Hg as [-> _]; lia).
    destruct (is_closed a t2) eqn:Hc2.
    + rewrite (Hhere eq_refl) in Hp. unfold parent_of in Hp. rewrite Hc in Hp.
      assert (p = q) as -> by congruence.
      apply close_from_requests; [lia|done].
    + apply IH; try done; [by eapply grows_well_formed | lia |].
      by eapply grows_parent_of.
  - rewrite (Hhere Hclosed) in Hp. unfold parent_of in Hp. rewrite Hc in Hp.
    congruence.
Qed.

(** Closing [c] changes [c] and ancestors of [c] only. *)
Lemma Close_elsewhere c t i :
  well_formed t -> i <> c ->
  (forall p, parent_of c t = Some p -> p < i) ->
  Close c t !! i = t !! i.
Proof.
  intros Hwf Hi Hp. unfold Close. destruct (length t) as [|fuel]; [done|].
  simpl. destruct (t !! c) as [n|] eqn:Hc; [|done].
  assert (grows t (<[c := shut n]> (<[c := request n]> t))) as Hg.
  { eapply grows_trans; [by apply (grows_insert t c n (request n))|].
    apply (grows_insert _ c (request n)); try done.
    apply list_lookup_insert_eq. by eapply lookup_lt_Some. }
  destruct (all_children_closed c _).
  - destruct (parent n) as [p|] eqn:Hpn.
    + rewrite close_from_above.
      * by rewrite !list_lookup_insert_ne.
      * by eapply grows_well_formed.
      * apply Hp. unfold parent_of. by rewrite Hc.
    + by rewrite !list_lookup_insert_ne.
  - by rewrite list_lookup_insert_ne.
Qed.

Lemma lookup_NewChild c t i :
  i < length t -> NewChild c t !! i = t !! i.
Proof. intros Hi. unfold NewChild. by rewrite lookup_app_l. Qed.

Lemma NewChild_settled c t i : settled i t -> settled i (NewChild c t).
Proof.
  unfold settled, is_requested, is_closed. intros Hs.
  destruct (decide (i < length t)) as [Hlt|Hge].
  - rewrite lookup_NewChild by done. intros Hr Ha. apply Hs; [done|].
    unfold all_children_closed, NewChild in Ha. rewrite forallb_app in Ha.
    by apply andb_prop in Ha as [Ha _].
  - unfold NewChild. destruct (decide (i = length t)) as [->|Hne].
    + rewrite list_lookup_middle by done. done.
    + rewrite lookup_ge_None_2; [done|]. rewrite length_app. simpl. lia.
Qed.

Lemma NewChild_well_formed c t :
  c < length t -> well_formed t -> well_formed (NewChild c t).
Proof.
  intros Hc Hwf i n p Hi Hp. unfold NewChild in Hi.
  apply lookup_app_Some in Hi as [Hi|[Hge Hi]].
  - by eapply Hwf.
  - apply list_lookup_singleton_Some in Hi as [Hz <-]. simpl in Hp.
    simplify_eq. lia.
Qed.

Lemma Fail_grows c e t : grows t (Fail c e t).
Proof.
  unfold Fail. destruct (t !! c) as [n|] eqn:Hc; [|apply grows_refl].
  by apply (grows_insert t c n).
Qed.

Lemma Fail_settled c e t i : settled i t -> settled i (Fail c e t).
Proof.
  unfold Fail. destruct (t !! c) as [n|] eqn:Hc; [|done].
  assert (c < length t) by (by eapply lookup_lt_Some).
  unfold settled. rewrite is_requested_insert, tree_is_closed_insert by done.
  rewrite (children_closed_insert t c n) by done.
  unfold is_requested, is_closed.
  case_bool_decide; [|done]. subst. by rewrite Hc.
Qed.

Record tree_inv (t : tree) : Prop := {
  tree_wf : well_formed t;
  tree_settled : forall i, settled i t;
  tree_requested : forall i, is_closed i t = true -> is_requested i t = true
}.

Lemma tree_inv_New : tree_inv New.
Proof.
  split.
  - intros [|i] n p Hi Hp; by simplify_eq/=.
  - intros [|i]; done.
  - intros [|i]; done.
Qed.

Lemma becomes_closed o t t' c :
  apply o t = Some t' -> is_closed c t = false -> is_closed c t' = true ->
  is_requested c t' = true /\ all_children_closed c t' = true.
Proof.
  destruct o as [c0|c0|c0 e]; simpl; case_bool_decide as Hlt; intros Ht Ho Hc;
    simplify_eq.
  - exfalso. unfold is_closed, NewChild in *.
    destruct (decide (c < length t)) as [Hc'|Hc'].
    + rewrite lookup_app_l in Hc by done. congruence.
    + destruct (decide (c = length t)) as [->|Hne].
      * rewrite list_lookup_middle in Hc by done. done.
      * rewrite lookup_ge_None_2 in Hc; [done|]. rewrite length_app. simpl. lia.
  - by apply close_from_becomes_closed.
  - exfalso. unfold Fail in Hc. destruct (t !! c0) as [n|] eqn:Hn; [|congruence].
    rewrite tree_is_closed_insert in Hc by done. case_bool_decide; [|congruence].
    subst. unfold is_closed in Ho. rewrite Hn in Ho. simpl in Hc. congruence.
Qed.

Lemma tree_inv_apply o t t' : tree_inv t -> apply o t = Some t' -> tree_inv t'.
Proof.
  intros [Hwf Hs Hr] Ht. split.
  - destruct o as [c|c|c e]; simpl in Ht; case_bool_decide; simplify_eq.
    + by apply NewChild_well_formed.
    + eapply grows_well_formed; [apply Close_grows|done].
    + eapply grows_well_formed; [apply Fail_grows|done].
  - destruct o as [c|c|c e]; simpl in Ht; case_bool_decide; simplify_eq; intros i.
    + by apply NewChild_settled.
    + apply close_from_settles; auto.
    + by apply Fail_settled.
  - intros i Hc. destruct (is_closed i t) eqn:Ho.
    + destruct o as [c|c|c e]; simpl in Ht; case_bool_decide; simplify_eq.
      * specialize (Hr i Ho). unfold is_closed, is_requested in *.
        destruct (t !! i) as [n|] eqn:Hn; [|done].
        rewrite lookup_NewChild by (by eapply lookup_lt_Some). by rewrite Hn.
      * eapply grows_is_requested; [apply Close_grows|auto].
      * eapply grows_is_requested; [apply Fail_grows|auto].
    + by destruct (becomes_closed o t t' i Ht Ho Hc).
Qed.

Lemma tree_inv_reachable t : reachable t -> tree_inv t.
Proof.
  unfold reachable. revert t. apply rtc_ind_r; [apply tree_inv_New|].
  intros t t' _ [o Ho] IH. by eapply tree_inv_apply.
Qed.

Lemma run_ops_reachable ops t t' :
  reachable t -> run_ops ops t = Some t' -> reachable t'.
Proof.
  revert t. induction ops as [|o ops IH]; intros t Hr Hrun; simpl in Hrun.
  - by simplify_eq.
  - destruct (apply o t) as [t1|] eqn:Ho; [|done].
    apply (IH t1); [|done]. eapply rtc_r; [exact Hr|]. by exists o.
Qed.

(** C1. In every tree of contexts built by deriving children, closing and
    failing: a context that is close-requested and whose children are all
    closed (none is enough) is closed; a context becomes closed by an
    operation only if, after it, close has been requested on it and every
    child it owns is closed; a closed context is close-requested, and a
    context that closes passes the request on to its parent.  In
    particular closing one child does not close its parent while another
    child is open, and when the last open child of a close-requested
    parent closes, the parent closes with it. *)
Theorem closed_iff_requested_and_children_closed :
  forall t, reachable t ->
    (forall c, is_requested c t = true -> all_children_closed c t = true ->
               is_closed c t = true) /\
    (forall o t' c, apply o t = Some t' ->
               is_closed c t = false -> is_closed c t' = true ->
               is_requested c t' = true /\ all_children_closed c t' = true) /\
    (forall c, is_closed c t = true -> is_requested c t = true) /\
    (forall c a p, c < length t -> parent_of a t = Some p ->
               is_closed a t = false -> is_closed a (Close c t) = true ->
               is_requested p (Close c t) = true) /\
    (forall p a b, a <> b ->
               parent_of a t = Some p -> parent_of b t = Some p ->
               is_closed b t = false -> is_closed p t = false ->
               is_closed p (Close a t) = false) /\
    (forall p a, parent_of a t = Some p -> is_requested p t = true ->
               all_children_closed a t = true ->
               (forall b, b <> a -> parent_of b t = Some p -> is_closed b t = true) ->
               is_closed a (Close a t) = true /\ is_closed p (Close a t) = true).
Proof.
  intros t Hr. pose proof (tree_inv_reachable t Hr) as [Hwf Hs Hrq].
  split; [exact Hs|]. split; [intros o t' c; apply becomes_closed|].
  split; [exact Hrq|]. split; [|split].
  - intros c a p Hlt Hp Hopen Hclosed.
    by apply (close_from_requests_parent (length t) c t a p).
  - intros p a b Hab Ha Hb Hob Hop.
    destruct (is_closed p (Close a t)) eqn:Hcp; [exfalso|done].
    destruct (close_from_becomes_closed (length t) a t p Hop Hcp) as [_ Hall].
    fold (Close a t) in Hall.
    assert (Close a t !! b = t !! b) as Hsame.
    { apply Close_elsewhere; [done|done|]. intros p' Hp'.
      unfold parent_of in Hb. destruct (t !! b) as [nb|] eqn:Hnb; [|done].
      assert (p' = p) as -> by congruence. by eapply Hwf. }
    unfold parent_of, is_closed in Hb, Hob.
    destruct (t !! b) as [nb|] eqn:Hnb; [|done].
    rewrite children_closed_spec in Hall.
    specialize (Hall b nb). rewrite Hsame in Hall.
    rewrite Hall in Hob; done.
  - intros p a Ha Hrp Hca Hothers.
    assert (a < length t) as Hlt.
    { unfold parent_of in Ha. destruct (t !! a) eqn:Hn; [|done].
      by eapply lookup_lt_Some. }
    assert (reachable (Close a t)) as Hr'.
    { eapply rtc_r; [exact Hr|]. exists (OClose a). simpl.
      by rewrite bool_decide_eq_true_2. }
    pose proof (tree_inv_reachable _ Hr') as [_ Hs' _].
    pose proof (Close_grows a t) as Hg.
    assert (is_closed a (Close a t) = true) as Hcla.
    { apply Hs'; [by apply Close_requests|].
      by eapply grows_children_closed. }
    split; [done|]. apply Hs'.
    + by eapply grows_is_requested.
    + apply children_closed_spec. intros j m' Hj Hp.
      destruct (decide (j = a)) as [->|Hne].
      * unfold is_closed in Hcla. by rewrite Hj in Hcla.
      * destruct (grows_lookup_inv _ _ _ _ Hg Hj) as (m & Hm & Hpm & _ & Hc).
        apply Hc. specialize (Hothers j Hne). unfold parent_of, is_closed in Hothers.
        rewrite Hm in Hothers. apply Hothers. congruence.
Qed.

(** The trees of [TestParentContextIsClosedWhenAllChildrenAreClosed]. *)
Definition family : list op := [ONewChild 0; ONewChild 0; ONewChild 2].

Definition family_tree : tree :=
  Eval vm_compute in
    match run_ops (family ++ [OClose 1; OClose 2]) New with
    | Some t => t
    | None => New
    end.

Lemma family_tree_reachable : reachable family_tree.
Proof.
  apply (run_ops_reachable (family ++ [OClose 1; OClose 2]) New);
    [apply rtc_refl | reflexivity].
Qed.

Lemma closed_iff_requested_and_children_closed_witness :
  is_closed 2 family_tree = false /\ is_closed 0 family_tree = false /\
  is_closed 3 (Close 3 family_tree) = true /\
  is_closed 2 (Close 3 family_tree) = true.
Proof.
  destruct (closed_iff_requested_and_children_closed family_tree family_tree_reachable)
    as (_ & _ & _ & _ & _ & H).
  split; [reflexivity|]. split; [reflexivity|].
  apply (H 2 3); try reflexivity.
  intros b Hb Hp. unfold family_tree in Hp.
  destruct b as [|[|[|[|b]]]]; try discriminate Hp. by destruct Hb.
Defined.

End ContextTree.

(** ** Transform stages (package transformers)

    The tests [TestFilter] and [TestBatcher], the batch policy the latter
    defines, and the README's description of an observer are among the
    sources; the worker loop behind [Transform] is not. *)
Module Stage.

(** What a worker goroutine can touch: its output stream, and the context,
    whose signals it reads as they are at the time of each poll. *)
Record wstate : Type := WState {
  out : Chan.chan;
  now : nat
}.

Inductive result (A : Type) : Type :=
  | Value (a : A)
  | Unwind (p : panic_value)
  | Stuck.
Arguments Value {A} _.
Arguments Unwind {A} _.
Arguments Stuck {A}.

(** Computations of a worker: they read and write its state, and may
    panic; the state outlives the panic, for the deferred calls. *)
Definition worker (A : Type) : Type := wstate -> result A * wstate.

#[export] Instance worker_ret : MRet worker :=
  fun A a w => (Value a, w).

#[export] Instance worker_bind : MBind worker :=
  fun A B k c w =>
    match c w with
    | (Value a, w') => k a w'
    | (Unwind p, w') => (Unwind p, w')
    | (Stuck, w') => (Stuck, w')
    end.

(** What [OnNext] answers: [nil], or [stream.Done] to stop the pipeline. *)
Inductive verdict : Type := Continue | Stop.

(** The README's observer: [OnNext] is handed the item and the emitter;
    [OnCompleted] runs when the input has ended.  [S] is what the closures
    keep between items. *)
Record Observer (S : Type) : Type := {
  OnNext : S -> T -> worker (S * verdict);
  OnCompleted : S -> worker unit
}.
Arguments OnNext {S} _ _ _.
Arguments OnCompleted {S} _ _.

Section Worker.

(** The signals of the attached context, poll after poll. *)
Variable ctx : nat -> Context.

(** A non-blocking look at the signals. *)
Definition poll : worker Context :=
  fun w => (Value (ctx (now w)), WState (out w) (S (now w))).

(** [emitter.Emit(data)] on the emitter bound to the worker's context and
    output; the next stage is reading ([ReadAll]). *)
Definition emit (data : T) : worker unit :=
  fun w =>
    match Emitter.Emit true (Emitter.NewEmitter (ctx (now w)) (out w)) data with
    | Ok c => (Value tt, WState c (S (now w)))
    | Panic p => (Unwind p, WState (out w) (S (now w)))
    | Blocked => (Stuck, w)
    end.

(** Modelled from the spec: the worker loop of a transform stage is
    missing.  Each iteration first checks close/failure without blocking;
    if either is set it stops; else it reads the input; at end-of-data it
    stops; on an item it applies the stage function, which may ask for
    early termination, treated like end-of-data.  [input] is what the input
    stream yields before it ends. *)
Fixpoint loop {S : Type} (o : Observer S) (st : S) (input : list T) : worker unit :=
  c ← poll;
  if Closed c || Failure c then mret tt
  else match input with
       | [] => OnCompleted o st
       | d :: input' =>
           r ← OnNext o st d;
           match r.2 with
           | Continue => loop o r.1 input'
           | Stop => mret tt
           end
       end.

Record finished : Type := Finish {
  stream : Chan.chan;       (* the stage's output, as its reader finds it *)
  polls : nat;              (* looks at the context *)
  ended : option exit
}.

(** Modelled from the spec: [Transform] creates the output stream with the
    input's capacity, spawns one worker and returns the reading end.  The
    worker defers the guard and the close of its output, so both run
    however the loop ends; a worker that is blocked for good runs neither. *)
Definition Transform {S : Type} (o : Observer S) (st : S)
    (capacity : nat) (input : list T) : finished :=
  let '(r, w) := loop o st input (WState (Chan.New capacity) 0) in
  match r with
  | Stuck => Finish (out w) (now w) None
  | _ =>
      match Chan.close (out w) with
      | Ok c =>
          Finish c (now w)
            (Some (match r with Unwind p => Recovered p | _ => Returned end))
      | Panic p => Finish (out w) (now w) (Some (Recovered p))
      | Blocked => Finish (out w) (now w) None
      end
  end.

(** What [ReadAll] returns from the output, once it is closed. *)
Definition ReadAll (f : finished) : option (list T) :=
  if Chan.closed (stream f) then Some (Chan.contents (stream f)) else None.

(** The README's filter as an observer:
    [[
    OnNext: func(data stream.T, emitter stream.Emitter) error {
        if fn(data) { emitter.Emit(data) }
        return nil
    }
    ]] *)
Definition Filter (fn : T -> bool) : Observer unit :=
  {| OnNext := fun st data =>
       if fn data then (_ ← emit data; mret (st, Continue))
       else mret (st, Continue);
     OnCompleted := fun _ => mret tt |}.

(** The batch policy of [TestBatcher]:
    [[
    type batch struct { size int; items []stream.T }
    func (batch *batch) Full() bool  { return len(batch.items) == batch.size }
    func (batch *batch) Empty() bool { return len(batch.items) == 0 }
    func (batch *batch) Commit(emitter stream.Emitter) {
        emitter.Emit(batch.items); batch.items = []stream.T{} }
    func (batch *batch) Add(data stream.T) { batch.items = append(batch.items, data) }
    ]] *)
Record batch : Type := Batch_ {
  size : nat;
  items : list T
}.

Definition Full (b : batch) : bool := bool_decide (length (items b) = size b).
Definition Empty (b : batch) : bool := bool_decide (length (items b) = 0).
Definition Commit (b : batch) : worker batch :=
  _ ← emit (TSlice (items b)); mret (Batch_ (size b) []).
Definition Add (b : batch) (data : T) : batch :=
  Batch_ (size b) (items b ++ [data]).

(** Modelled from the spec: the batching stage behind [BatchBy] is
    missing.  It accumulates the items into the pending batch, commits the
    batch when it is full, and commits what is pending, if anything, when
    the input ends. *)
Definition BatchBy : Observer batch :=
  {| OnNext := fun b data =>
       let b' := Add b data in
       if Full b' then (b'' ← Commit b'; mret (b'', Continue))
       else mret (b', Continue);
     OnCompleted := fun b =>
       if Empty b then mret tt else (_ ← Commit b; mret tt) |}.

(** [transformers.Batch(n)] is [BatchBy] on an empty batch of size [n]. *)
Definition Batch (n : nat) (capacity : nat) (input : list T) : finished :=
  Transform BatchBy (Batch_ n []) capacity input.

(** The README's hand-written filter stage:
    [[
    for {
        select {
        case <-filter.context.Closed():
            return
        default:
            data, more := <-in
            if !more { return }
            if filter.fn(data) { writable <- data }
        }
    }
    ]] *)
Fixpoint README_Filter_loop (fn : T -> bool) (input : list T) : worker unit :=
  c ← poll;
  if Closed c then mret tt
  else match input with
       | [] => mret tt
       | d :: input' =>
           _ ← (if fn d then
                  fun w => match Chan.write true (out w) d with
                           | Ok c' => (Value tt, WState c' (now w))
                           | Panic p => (Unwind p, w)
                           | Blocked => (Stuck, w)
                           end
                else mret tt);
           README_Filter_loop fn input'
       end.

End Worker.

Definition always (c : Context) : nat -> Context := fun _ => c.

(** [TestFilter]: the stage on an open context, and on a closed one. *)
Example TestFilter :
  ReadAll (Transform (always Emitter.running_context)
             (Filter (always Emitter.running_context) evens) tt 2 [TInt 1; TInt 2])
    = Some [TInt 2] /\
  ReadAll (Transform (always Emitter.cancelled_context)
             (Filter (always Emitter.cancelled_context) evens) tt 2 [TInt 1; TInt 2])
    = Some [].
Proof. done. Qed.

(** [TestBatcher]: [Batch(2)] and [BatchBy(&batch{size: 1})] over 1, 2, 3. *)
Example TestBatcher :
  ReadAll (Batch (always Emitter.running_context) 2 3 [TInt 1; TInt 2; TInt 3])
    = Some [TSlice [TInt 1; TInt 2]; TSlice [TInt 3]] /\
  ReadAll (Transform (always Emitter.running_context)
             (BatchBy (always Emitter.running_context)) (Batch_ 1 []) 3
             [TInt 1; TInt 2; TInt 3])
    = Some [TSlice [TInt 1]; TSlice [TInt 2]; TSlice [TInt 3]].
Proof. done. Qed.

(** *** Properties of the stages *)

Lemma loop_unfold {S} ctx (o : Observer S) st input :
  loop ctx o st input =
    (c ← poll ctx;
     if Closed c || Failure c then mret tt
     else match input with
          | [] => OnCompleted o st
          | d :: input' =>
              r ← OnNext o st d;
              match r.2 with
              | Continue => loop ctx o r.1 input'
              | Stop => mret tt
              end
          end).
Proof. by destruct input. Qed.

(** An emission on a context that has not failed, into a stream whose
    reader keeps up. *)
Lemma emit_through ctx d w :
  Failure (ctx (now w)) = false ->
  Chan.closed (out w) = false -> Chan.buf (out w) = [] ->
  exists c, emit ctx d w = (Value tt, WState c (S (now w))) /\
            Chan.closed c = false /\ Chan.buf c = [] /\
            Chan.contents c = Chan.contents (out w) ++ [d].
Proof.
  intros Hf Hc Hb. unfold emit, Emitter.Emit, Chan.write. simpl.
  rewrite Hf, Hc, Hb. simpl. eexists. split; [reflexivity|].
  unfold Chan.contents. simpl. by rewrite Hb, !app_nil_r.
Qed.

(** C7. A transform stage started on a context that is already closed or
    failed: its worker looks at the context once, sees the termination,
    emits nothing and closes its output, so that the reader of the output
    gets the end of the stream. *)
Theorem Transform_on_terminated_context :
  forall (S : Type) (ctx : nat -> Context) (o : Observer S) (st : S)
         (capacity : nat) (input : list T),
    Closed (ctx 0) = true \/ Failure (ctx 0) = true ->
    let f := Transform ctx o st capacity input in
    polls f = 1 /\
    Chan.contents (stream f) = [] /\
    Chan.closed (stream f) = true /\
    ended f = Some Returned /\
    ReadAll f = Some [].
Proof.
  intros S ctx o st capacity input Hterm.
  assert (loop ctx o st input (WState (Chan.New capacity) 0)
          = (Value tt, WState (Chan.New capacity) 1)) as Hloop.
  { rewrite loop_unfold. unfold mbind, worker_bind, poll. simpl.
    assert (Closed (ctx 0) || Failure (ctx 0) = true) as ->; [|done].
    destruct Hterm as [-> | ->]; [done | apply orb_true_r]. }
  unfold ReadAll, Transform. rewrite Hloop. done.
Qed.

Lemma Transform_on_terminated_context_witness :
  ReadAll (Transform (always Emitter.cancelled_context)
             (Filter (always Emitter.cancelled_context) evens) tt 2 [TInt 1; TInt 2])
    = Some [] /\
  ReadAll (Transform (always Emitter.failed_context)
             (Filter (always Emitter.failed_context) evens) tt 2 [TInt 1; TInt 2])
    = Some [].
Proof.
  split.
  - apply (Transform_on_terminated_context unit (always Emitter.cancelled_context)
             (Filter (always Emitter.cancelled_context) evens) tt 2 [TInt 1; TInt 2]).
    left. reflexivity.
  - apply (Transform_on_terminated_context unit (always Emitter.failed_context)
             (Filter (always Emitter.failed_context) evens) tt 2 [TInt 1; TInt 2]).
    right. reflexivity.
Defined.

(** The README's hand-written filter also stops at once on a closed
    context, with nothing written. *)
Lemma README_Filter_on_closed_context ctx fn input w :
  Closed (ctx (now w)) = true ->
  README_Filter_loop ctx fn input w = (Value tt, WState (out w) (S (now w))).
Proof.
  intros Hc. destruct input; simpl; unfold mbind, worker_bind, poll; by rewrite Hc.
Qed.

(** It polls the closed signal only and writes without the emitter: on a
    context that has failed without being closed it goes on forwarding. *)
Example README_Filter_on_failed_context :
  README_Filter_loop (always Emitter.failed_context) evens [TInt 1; TInt 2]
    (WState (Chan.New 2) 0)
  = (Value tt, WState {| Chan.buf := []; Chan.cap := 2; Chan.closed := false;
                          Chan.taken := [TInt 2] |} 3).
Proof. reflexivity. Qed.

(** Batches of size [n], except for a shorter last one. *)
Definition batched (n : nat) (batches : list (list T)) : Prop :=
  Forall (fun b => 1 <= length b <= n) batches /\
  forall i b, batches !! i = Some b -> S i < length batches -> length b = n.

Lemma batched_nil n : batched n [].
Proof. split; [constructor|]. intros i b Hi. by rewrite lookup_nil in Hi. Qed.

Lemma batched_last n b : 1 <= length b <= n -> batched n [b].
Proof.
  intros Hb. split; [by apply Forall_singleton|].
  intros i x Hi Hlt. simpl in Hlt. lia.
Qed.

Lemma batched_cons n b batches :
  1 <= n -> length b = n -> batched n batches -> batched n (b :: batches).
Proof.
  intros Hn Hb [Hall Hfull]. split.
  - constructor; [lia|done].
  - intros [|i] x Hi Hlt; simpl in *; [congruence|].
    apply (Hfull i); [done|lia].
Qed.

Lemma BatchBy_loop ctx n input :
  1 <= n ->
  (forall t, Closed (ctx t) = false /\ Failure (ctx t) = false) ->
  forall pending w,
    length pending < n ->
    Chan.closed (out w) = false -> Chan.buf (out w) = [] ->
    exists batches w',
      loop ctx (BatchBy ctx) (Batch_ n pending) input w = (Value tt, w') /\
      Chan.closed (out w') = false /\
      Chan.contents (out w') = Chan.contents (out w) ++ (TSlice <$> batches) /\
      concat batches = pending ++ input /\
      batched n batches.
Proof.
  intros Hn Hctx. induction input as [|d input IH]; intros pending w Hp Hc Hb.
  - rewrite loop_unfold. unfold mbind at 1, worker_bind at 1, poll. simpl.
    destruct (Hctx (now w)) as [-> ->]. simpl.
    unfold Empty. simpl. case_bool_decide as He.
    + apply length_zero_iff_nil in He. subst.
      exists [], (WState (out w) (S (now w))). simpl.
      rewrite app_nil_r.
      split; [done|]. split; [done|]. split; [done|]. split; [done|].
      apply batched_nil.
    + destruct (emit_through ctx (TSlice pending) (WState (out w) (S (now w))))
        as (c & Hemit & Hcc & Hcb & Hcont); simpl; try done.
      { apply Hctx. }
      exists [pending], (WState c (S (S (now w)))).
      unfold Commit, mbind, worker_bind. cbn [items size]. rewrite Hemit. simpl.
      rewrite !app_nil_r.
      split; [done|]. split; [done|]. split; [done|]. split; [done|].
      apply batched_last. lia.
  - rewrite loop_unfold. unfold mbind at 1, worker_bind at 1, poll. simpl.
    destruct (Hctx (now w)) as [-> ->]. simpl.
    unfold Full, Add. simpl. rewrite length_app. simpl.
    case_bool_decide as Hfull.
    + destruct (emit_through ctx (TSlice (pending ++ [d])) (WState (out w) (S (now w))))
        as (c & Hemit & Hcc & Hcb & Hcont); simpl; try done.
      { apply Hctx. }
      destruct (IH [] (WState c (S (S (now w))))) as (batches & w' & Hl & Hc' & Hcont' & Hcat & Hbt);
        simpl; try done; try lia.
      exists ((pending ++ [d]) :: batches), w'.
      unfold Commit, mbind, worker_bind. cbn [items size]. rewrite Hemit. simpl.
      unfold mbind, worker_bind in Hl. rewrite Hl.
      split; [done|]. split; [done|]. split; [|split].
      * rewrite Hcont'. cbn [out]. rewrite Hcont. cbn [out]. by rewrite <-app_assoc.
      * simpl. rewrite Hcat. simpl. by rewrite <-app_assoc.
      * apply batched_cons; [done| |done]. rewrite length_app. simpl. lia.
    + destruct (IH (pending ++ [d]) (WState (out w) (S (now w))))
        as (batches & w' & Hl & Hc' & Hcont' & Hcat & Hbt); simpl; try done.
      { rewrite length_app. simpl. lia. }
      exists batches, w'.
      unfold mbind, worker_bind, mret, worker_ret. simpl.
      unfold mbind, worker_bind in Hl. rewrite Hl.
      split; [done|]. split; [done|]. split; [done|]. split; [|done].
      rewrite Hcat. by rewrite <-app_assoc.
Qed.

(** C6. On a context that is neither closed nor failed, a batch stage of
    size [n >= 1] emits the input cut into batches: all of them hold
    exactly [n] items except possibly the last, which holds between 1 and
    [n]; none is empty; then it closes its output. *)
Theorem Batch_commits_full_batches :
  forall (ctx : nat -> Context) (n capacity : nat) (input : list T),
    1 <= n ->
    (forall t, Closed (ctx t) = false /\ Failure (ctx t) = false) ->
    exists batches,
      ReadAll (Batch ctx n capacity input) = Some (TSlice <$> batches) /\
      ended (Batch ctx n capacity input) = Some Returned /\
      concat batches = input /\
      Forall (fun b => 1 <= length b <= n) batches /\
      (forall i b, batches !! i = Some b -> S i < length batches -> length b = n).
Proof.
  intros ctx n capacity input Hn Hctx.
  destruct (BatchBy_loop ctx n input Hn Hctx [] (WState (Chan.New capacity) 0))
    as (batches & w' & Hl & Hc & Hcont & Hcat & Hall & Hfull); simpl; try done; try lia.
  exists batches. unfold Batch, ReadAll, Transform. rewrite Hl.
  unfold Chan.close. rewrite Hc. simpl.
  split; [|done]. f_equal. unfold Chan.contents in *. simpl in *. done.
Qed.

Lemma Batch_commits_full_batches_witness :
  ReadAll (Batch (always Emitter.running_context) 2 3 [TInt 1; TInt 2; TInt 3])
    = Some [TSlice [TInt 1; TInt 2]; TSlice [TInt 3]] /\
  exists batches,
    ReadAll (Batch (always Emitter.running_context) 2 3 [TInt 1; TInt 2; TInt 3])
      = Some (TSlice <$> batches) /\
    Forall (fun b => 1 <= length b <= 2) batches.
Proof.
  split; [reflexivity|].
  destruct (Batch_commits_full_batches (always Emitter.running_context) 2 3
              [TInt 1; TInt 2; TInt 3]) as (batches & Hr & _ & _ & Hall & _).
  - lia.
  - intros t. split; reflexivity.
  - exists batches. split; [exact Hr | exact Hall].
Defined.

End Stage.

(** ** Positional pairing (package combiners: Zip, ZipBy)

    The combiners themselves are not among the sources; [TestRiversAPI]
    calls them and asserts what they emit, and [TestFifo] calls [Zip] on a
    closed context. *)
Module Zip.

(** Go's [int] on a 64-bit platform: sums wrap around. *)
Definition wrap64 (z : Z) : Z := ((z + 2 ^ 63) mod 2 ^ 64 - 2 ^ 63)%Z.

Definition go_int (z : Z) : Prop := (- 2 ^ 63 <= z < 2 ^ 63)%Z.

(** An item whose integer, if it is one, is a value of Go's [int]. *)
Definition go_value (d : T) : Prop :=
  match d with TInt z => go_int z | _ => True end.

(** [sum := func(a, b rx.T) rx.T { return a.(int) + b.(int) }]: the type
    assertions panic on an operand that is not an int ([None]). *)
Definition sum (a b : T) : option T :=
  match a, b with
  | TInt x, TInt y => Some (TInt (wrap64 (x + y)))
  | _, _ => None
  end.

(** [[
    addOrAppend := func(n int, c string) rx.MapFn {
        return func(data rx.T) rx.T {
            if num, ok := data.(int); ok { return num + n }
            if letter, ok := data.(string); ok { return letter + "_" }
            return data
        }
    }
    ]]
    The closure appends the literal, not [c]. *)
Definition addOrAppend (n : Z) (c : string) (d : T) : T :=
  match d with
  | TInt num => TInt (wrap64 (num + n))
  | TStr letter => TStr (letter ++ "_")
  | _ => d
  end.

(** What the inputs that have not ended yield in this round, in input
    order, and what is left of the inputs after the round. *)
Definition heads (ins : list (list T)) : list T := omap head ins.
Definition tails (ins : list (list T)) : list (list T) := tail <$> ins.

(** No round can start after one round per buffered item. *)
Definition rounds_bound (ins : list (list T)) : nat := length (concat ins).

(** Left-to-right reduction of a round by a binary function that may
    panic. *)
Definition reduce (f : T -> T -> option T) (x : T) (xs : list T) : option T :=
  foldl (fun acc y => match acc with Some a => f a y | None => None end) (Some x) xs.

(** The rounds whose reduction goes through, up to the first that panics:
    the worker then unwinds and emits no more. *)
Fixpoint reduced (f : T -> T -> option T) (rounds : list (list T)) : list T :=
  match rounds with
  | (x :: xs) :: rounds' =>
      match reduce f x xs with
      | Some d => d :: reduced f rounds'
      | None => []
      end
  | _ => []
  end.

(** Modelled from the spec: [Zip] and [ZipBy] are missing.  One item per
    input per round, in lockstep; a round completes only when all inputs
    yield an item; as soon as one input ends, the whole stage ends, and no
    partial final round is emitted. *)
Fixpoint lockstep_rounds (fuel : nat) (ins : list (list T)) : list (list T) :=
  match fuel with
  | O => []
  | S fuel' =>
      match heads ins with
      | x :: xs =>
          if bool_decide (length (x :: xs) = length ins)
          then (x :: xs) :: lockstep_rounds fuel' (tails ins)
          else []
      | [] => []
      end
  end.

(** Modelled from the spec: the round is combined as an ordered group
    ([Zip]) or reduced by the binary function applied left-to-right
    ([ZipBy]); a stage on a context that is closed or failed emits nothing
    and closes its output. *)
Definition Zip_lockstep (c : Context) (ins : list (list T)) : list T :=
  if Closed c || Failure c then []
  else concat (lockstep_rounds (rounds_bound ins) ins).

Definition ZipBy_lockstep (c : Context) (f : T -> T -> option T)
    (ins : list (list T)) : list T :=
  if Closed c || Failure c then []
  else reduced f (lockstep_rounds (rounds_bound ins) ins).

(** *** What the tests assert *)

(** A combiner, seen from its caller: the context it is attached to and
    what its inputs yield before they end give what its output yields. *)
Definition combiner : Type := Context -> list (list T) -> list T.
Definition combiner_by : Type :=
  Context -> (T -> T -> option T) -> list (list T) -> list T.

(** Modelled from the spec: the [Map] and [Filter] stages are missing.  On
    a context that is neither closed nor failed a transform stage applies
    its function to each item, in order ([Map_items_is_the_stage] and
    [Filter_items_is_the_stage] compare with the worker loop of [Stage]).
    What [Filter] does when its predicate panics is left open ([None]). *)
Definition Map_items (f : T -> T) (l : list T) : list T := f <$> l.

Fixpoint Filter_items (p : T -> option bool) (l : list T) : option (list T) :=
  match l with
  | [] => Some []
  | d :: l' =>
      match p d, Filter_items p l' with
      | Some true, Some r => Some (d :: r)
      | Some false, Some r => Some r
      | _, _ => None
      end
  end.

Definition numbers : list T := [TInt 1; TInt 2; TInt 3; TInt 4].
Definition moreNumbers : list T := [TInt 4; TInt 4; TInt 1].
Definition letters : list T := [TStr "a"; TStr "b"; TStr "c"].

(** The assertions of [TestRiversAPI], on a fresh context, as conditions on
    a combiner:
    [[
    CombineZipping(numbers, letters).Map(addOrAppend(1, "_"))
        ShouldResemble []rx.T{2, "a_", 3, "b_", 4, "c_", 5}
    CombineZippingBy(sum, numbers, moreNumbers).Filter(evens)
        ShouldResemble []rx.T{6, 4, 4}
    ]] *)
Definition CombineZipping_asserted (zip : combiner) : Prop :=
  Map_items (addOrAppend 1 "_") (zip Emitter.running_context [numbers; letters])
  = [TInt 2; TStr "a_"; TInt 3; TStr "b_"; TInt 4; TStr "c_"; TInt 5].

Definition CombineZippingBy_asserted (zipBy : combiner_by) : Prop :=
  Filter_items evens_checked
    (zipBy Emitter.running_context sum [numbers; moreNumbers])
  = Some [TInt 6; TInt 4; TInt 4].

(** The assertion of [TestFifo] on a closed context:
    [[
    context.Close()
    combined := combiners.New(context).Zip().Combine(in1, in2)
    So(combined.Read(), ShouldBeEmpty)
    ]] *)
Definition Zip_on_closed_asserted (zip : combiner) : Prop :=
  zip Emitter.cancelled_context [[TInt 1; TInt 2]; [TInt 3; TInt 4]] = [].

(** *** Two combiners that meet the assertions

    Neither is the library's: they only show that the assertions can be
    met, and that they do not settle what happens once an input has
    ended. *)

(** Rounds go on until every input has ended; an ended input is passed
    over. *)
Fixpoint passing_rounds (fuel : nat) (ins : list (list T)) : list (list T) :=
  match fuel with
  | O => []
  | S fuel' =>
      match heads ins with
      | x :: xs => (x :: xs) :: passing_rounds fuel' (tails ins)
      | [] => []
      end
  end.

(** Rounds go on while the first input yields; the other inputs are passed
    over once they have ended. *)
Fixpoint first_led_rounds (fuel : nat) (ins : list (list T)) : list (list T) :=
  match fuel with
  | O => []
  | S fuel' =>
      match ins with
      | (x :: _) :: _ => heads ins :: first_led_rounds fuel' (tails ins)
      | _ => []
      end
  end.

Definition with_rounds (rounds : nat -> list (list T) -> list (list T)) : combiner :=
  fun c ins =>
    if Closed c || Failure c then [] else concat (rounds (rounds_bound ins) ins).

Definition with_rounds_by (rounds : nat -> list (list T) -> list (list T))
    : combiner_by :=
  fun c f ins =>
    if Closed c || Failure c then [] else reduced f (rounds (rounds_bound ins) ins).

(** *** The spec's combiner *)

Lemma omap_step {A B} (f : A -> option B) x l :
  omap f (x :: l) = match f x with Some y => y :: omap f l | None => omap f l end.
Proof. done. Qed.

Lemma heads_length ins : length (heads ins) <= length ins.
Proof.
  unfold heads. induction ins as [|l ins IH]; [done|].
  rewrite omap_step. destruct l; simpl; lia.
Qed.

Lemma heads_full ins :
  length (heads ins) = length ins -> Forall (fun l => l <> []) ins.
Proof.
  unfold heads. induction ins as [|l ins IH]; intros Hl; [constructor|].
  rewrite omap_step in Hl. pose proof (heads_length ins) as Hle. unfold heads in Hle.
  destruct l as [|y l]; simpl in Hl; [lia|].
  constructor; [done|]. apply IH. lia.
Qed.

(** A round of the spec's combiner holds one item of every input: no
    partial round is emitted. *)
Lemma lockstep_rounds_complete fuel ins :
  Forall (fun r => length r = length ins) (lockstep_rounds fuel ins).
Proof.
  revert ins. induction fuel as [|fuel IH]; intros ins; simpl; [constructor|].
  destruct (heads ins) as [|x xs] eqn:Hh; [constructor|].
  case_bool_decide as Hl; [|constructor].
  constructor; [done|].
  specialize (IH (tails ins)). unfold tails in IH at 1. by rewrite length_fmap in IH.
Qed.

(** It makes no more rounds than its shortest input has items: the stage
    ends with the first input that ends. *)
Lemma lockstep_rounds_stop fuel ins :
  Forall (fun l => length (lockstep_rounds fuel ins) <= length l) ins.
Proof.
  revert ins. induction fuel as [|fuel IH]; intros ins; simpl.
  - apply Forall_forall. intros; lia.
  - destruct (heads ins) as [|x xs] eqn:Hh.
    { apply Forall_forall. intros; simpl; lia. }
    case_bool_decide as Hl; [|apply Forall_forall; intros; simpl; lia].
    assert (Forall (fun l => l <> []) ins) as Hne.
    { apply heads_full. by rewrite Hh. }
    specialize (IH (tails ins)). unfold tails in IH.
    rewrite Forall_fmap in IH.
    apply Forall_forall. intros l Hin.
    pose proof (proj1 (Forall_forall _ _) Hne l Hin) as Hl1.
    pose proof (proj1 (Forall_forall _ _) IH l Hin) as Hl2.
    simpl in *. destruct l; [done|]. simpl in *. unfold tails. lia.
Qed.

(** On the inputs of the test the spec's combiner emits the three complete
    rounds and ends there, as C2 says; on a closed context it emits
    nothing, as [TestFifo] asserts. *)
Example ZipBy_lockstep_emits :
  ZipBy_lockstep Emitter.running_context sum [numbers; moreNumbers]
  = [TInt 5; TInt 6; TInt 4].
Proof. reflexivity. Qed.

Example Zip_lockstep_emits :
  Zip_lockstep Emitter.running_context [numbers; letters]
  = [TInt 1; TStr "a"; TInt 2; TStr "b"; TInt 3; TStr "c"].
Proof. reflexivity. Qed.

Example Zip_lockstep_on_closed : Zip_on_closed_asserted Zip_lockstep.
Proof. reflexivity. Qed.

(** *** What the assertions force *)

Lemma wrap64_succ_inv (x z : Z) :
  go_int x -> (- 2 ^ 63 < z)%Z -> wrap64 (x + 1) = z -> x = (z - 1)%Z.
Proof.
  unfold go_int, wrap64. intros Hx Hz Hw.
  destruct (decide (x = 2 ^ 63 - 1)%Z) as [->|Hne].
  - exfalso. replace (2 ^ 63 - 1 + 1 + 2 ^ 63)%Z with (1 * 2 ^ 64)%Z in Hw by lia.
    rewrite Z.mod_mul in Hw by lia. lia.
  - rewrite Z.mod_small in Hw by lia. lia.
Qed.

Lemma append_literal_inj (l s : string) :
  (l ++ "_")%string = (s ++ "_")%string -> l = s.
Proof.
  revert s. induction l as [|a l IH]; intros [|b s] H; simpl in H.
  - done.
  - exfalso. injection H as _ H. by destruct s.
  - exfalso. injection H as _ H. by destruct l.
  - injection H as -> H. f_equal. by apply IH.
Qed.

Lemma addOrAppend_int n c d z :
  addOrAppend n c d = TInt z -> exists x, d = TInt x /\ wrap64 (x + n) = z.
Proof. destruct d; simpl; intros H; simplify_eq. eauto. Qed.

Lemma addOrAppend_str n c d (s : string) :
  addOrAppend n c d = TStr (s ++ "_") -> d = TStr s.
Proof.
  destruct d as [| |l|]; simpl; intros H; simplify_eq.
  f_equal. by apply append_literal_inj.
Qed.

(** A filter that went through kept the even integers, and met integers
    only. *)
Lemma Filter_items_evens l r :
  Filter_items evens_checked l = Some r ->
  r = List.filter evens l /\ Forall (fun d => exists z, d = TInt z) l.
Proof.
  revert r. induction l as [|d l IH]; intros r H; simpl in H.
  - simplify_eq. split; [done|constructor].
  - destruct d as [|z| |]; simpl in H; try done.
    destruct (Filter_items evens_checked l) as [r'|] eqn:Hl;
      [|by destruct (Z.even z)].
    destruct (IH r' eq_refl) as [-> Hall].
    split; [|constructor; eauto].
    simpl. unfold evens at 1. simpl. destruct (Z.even z); by simplify_eq.
Qed.

Import Stage.

(** [Filter_items] is the filter stage of [Stage], on a context that is
    neither closed nor failed and with the output being read: where the
    predicate of the test does not panic, the stage forwards what
    [Filter_items] keeps. *)
Lemma Filter_loop_runs (ctx : nat -> Context) (fn : T -> bool) (l : list T) :
  (forall t, Closed (ctx t) = false /\ Failure (ctx t) = false) ->
  forall w,
    Chan.closed (Stage.out w) = false -> Chan.buf (Stage.out w) = [] ->
    exists w',
      Stage.loop ctx (Stage.Filter ctx fn) tt l w = (Stage.Value tt, w') /\
      Chan.closed (Stage.out w') = false /\
      Chan.contents (Stage.out w') = Chan.contents (Stage.out w) ++ List.filter fn l.
Proof.
  intros Hctx. induction l as [|d l IH]; intros w Hc Hb.
  - rewrite Stage.loop_unfold. unfold mbind, Stage.worker_bind, Stage.poll. simpl.
    destruct (Hctx (Stage.now w)) as [-> ->]. simpl.
    eexists. split; [reflexivity|]. simpl. by rewrite app_nil_r.
  - rewrite Stage.loop_unfold.
    unfold mbind at 1, Stage.worker_bind at 1, Stage.poll. simpl.
    destruct (Hctx (Stage.now w)) as [-> ->]. simpl.
    destruct (fn d) eqn:Hfn.
    + destruct (Stage.emit_through ctx d (Stage.WState (Stage.out w) (S (Stage.now w))))
        as (c & Hemit & Hcc & Hcb & Hcont); simpl; try done.
      { apply Hctx. }
      destruct (IH (Stage.WState c (S (S (Stage.now w))))) as (w' & Hl & Hc' & Hcont');
        simpl; try done.
      exists w'. unfold mbind, Stage.worker_bind. rewrite Hemit. simpl.
      unfold mbind, Stage.worker_bind in Hl. rewrite Hl.
      split; [done|]. split; [done|].
      rewrite Hcont'. simpl. rewrite Hcont. simpl. by rewrite <-app_assoc.
    + destruct (IH (Stage.WState (Stage.out w) (S (Stage.now w)))) as (w' & Hl & Hc' & Hcont');
        simpl; try done.
      exists w'. unfold mbind, Stage.worker_bind, mret, Stage.worker_ret. simpl.
      unfold mbind, Stage.worker_bind in Hl. rewrite Hl. done.
Qed.

Lemma Filter_items_is_the_stage (capacity : nat) (l r : list T) :
  Filter_items evens_checked l = Some r ->
  Stage.ReadAll
    (Stage.Transform (Stage.always Emitter.running_context)
       (Stage.Filter (Stage.always Emitter.running_context) evens) tt capacity l)
  = Some r.
Proof.
  intros Hf. destruct (Filter_items_evens l r Hf) as [-> _].
  destruct (Filter_loop_runs (Stage.always Emitter.running_context) evens l
              (fun _ => conj eq_refl eq_refl) (Stage.WState (Chan.New capacity) 0))
    as (w' & Hl & Hc & Hcont); simpl; try done.
  unfold Stage.ReadAll, Stage.Transform. rewrite Hl.
  unfold Chan.close. rewrite Hc. simpl.
  f_equal. unfold Chan.contents in *. simpl in *. done.
Qed.

(** Modelled from the spec: the [Map] stage is missing.  It is a transform
    stage whose function replaces the item. *)
Definition Map_stage (ctx : nat -> Context) (f : T -> T) : Stage.Observer unit :=
  {| Stage.OnNext := fun st data =>
       _ ← Stage.emit ctx (f data); mret (st, Stage.Continue);
     Stage.OnCompleted := fun _ => mret tt |}.

Lemma Map_loop_runs (ctx : nat -> Context) (f : T -> T) (l : list T) :
  (forall t, Closed (ctx t) = false /\ Failure (ctx t) = false) ->
  forall w,
    Chan.closed (Stage.out w) = false -> Chan.buf (Stage.out w) = [] ->
    exists w',
      Stage.loop ctx (Map_stage ctx f) tt l w = (Stage.Value tt, w') /\
      Chan.closed (Stage.out w') = false /\
      Chan.contents (Stage.out w') = Chan.contents (Stage.out w) ++ (f <$> l).
Proof.
  intros Hctx. induction l as [|d l IH]; intros w Hc Hb.
  - rewrite Stage.loop_unfold. unfold mbind, Stage.worker_bind, Stage.poll. simpl.
    destruct (Hctx (Stage.now w)) as [-> ->]. simpl.
    eexists. split; [reflexivity|]. simpl. by rewrite app_nil_r.
  - rewrite Stage.loop_unfold.
    unfold mbind at 1, Stage.worker_bind at 1, Stage.poll. simpl.
    destruct (Hctx (Stage.now w)) as [-> ->]. simpl.
    destruct (Stage.emit_through ctx (f d) (Stage.WState (Stage.out w) (S (Stage.now w))))
      as (c & Hemit & Hcc & Hcb & Hcont); simpl; try done.
    { apply Hctx. }
    destruct (IH (Stage.WState c (S (S (Stage.now w))))) as (w' & Hl & Hc' & Hcont');
      simpl; try done.
    exists w'. unfold mbind, Stage.worker_bind. rewrite Hemit. simpl.
    unfold mbind, Stage.worker_bind in Hl. rewrite Hl.
    split; [done|]. split; [done|].
    rewrite Hcont'. simpl. rewrite Hcont. simpl. by rewrite <-app_assoc.
Qed.

Lemma Map_items_is_the_stage (capacity : nat) (f : T -> T) (l : list T) :
  Stage.ReadAll
    (Stage.Transform (Stage.always Emitter.running_context)
       (Map_stage (Stage.always Emitter.running_context) f) tt capacity l)
  = Some (Map_items f l).
Proof.
  destruct (Map_loop_runs (Stage.always Emitter.running_context) f l
              (fun _ => conj eq_refl eq_refl) (Stage.WState (Chan.New capacity) 0))
    as (w' & Hl & Hc & Hcont); simpl; try done.
  unfold Stage.ReadAll, Stage.Transform. rewrite Hl.
  unfold Chan.close. rewrite Hc. simpl.
  f_equal. unfold Chan.contents in *. simpl in *. done.
Qed.

(** C2, as far as the sources decide it.  Whatever the combiners are, if
    they meet the assertions of [TestRiversAPI] then, on the context of
    the test, which is neither closed nor failed: [Zip] over 1, 2, 3, 4 and
    a, b, c emits seven items, one more than the three complete rounds,
    namely the three rounds followed by the fourth item of the first
    input, which has no partner; and [ZipBy] with the pairwise sum over
    1, 2, 3, 4 and 4, 4, 1 emits integers whose even ones are 6, 4, 4, so it
    does not emit exactly 5, 6, 4.  Neither is what the combiner of the
    spec emits. *)
Theorem asserted_combiners_emit_the_unpartnered_item :
  forall (zip : combiner) (zipBy : combiner_by),
    CombineZipping_asserted zip ->
    CombineZippingBy_asserted zipBy ->
    (length (zip Emitter.running_context [numbers; letters]) = 7 /\
     (exists x1 x2 x3 x4,
        zip Emitter.running_context [numbers; letters]
        = [TInt x1; TStr "a"; TInt x2; TStr "b"; TInt x3; TStr "c"; TInt x4] /\
        wrap64 (x4 + 1) = 5%Z) /\
     (Forall go_value (zip Emitter.running_context [numbers; letters]) ->
      zip Emitter.running_context [numbers; letters]
      = [TInt 1; TStr "a"; TInt 2; TStr "b"; TInt 3; TStr "c"; TInt 4]) /\
     zip Emitter.running_context [numbers; letters]
       <> Zip_lockstep Emitter.running_context [numbers; letters]) /\
    (List.filter evens (zipBy Emitter.running_context sum [numbers; moreNumbers])
       = [TInt 6; TInt 4; TInt 4] /\
     Forall (fun d => exists z, d = TInt z)
       (zipBy Emitter.running_context sum [numbers; moreNumbers]) /\
     zipBy Emitter.running_context sum [numbers; moreNumbers]
       <> [TInt 5; TInt 6; TInt 4] /\
     zipBy Emitter.running_context sum [numbers; moreNumbers]
       <> ZipBy_lockstep Emitter.running_context sum [numbers; moreNumbers]).
Proof.
  intros zip zipBy Hzip HzipBy. split.
  - unfold CombineZipping_asserted, Map_items in Hzip.
    set (out := zip Emitter.running_context [numbers; letters]) in *.
    assert (length out = 7) as Hlen.
    { apply (f_equal length) in Hzip. by rewrite length_fmap in Hzip. }
    assert (exists x1 x2 x3 x4,
              out = [TInt x1; TStr "a"; TInt x2; TStr "b"; TInt x3; TStr "c"; TInt x4] /\
              wrap64 (x1 + 1) = 2%Z /\ wrap64 (x2 + 1) = 3%Z /\
              wrap64 (x3 + 1) = 4%Z /\ wrap64 (x4 + 1) = 5%Z)
      as (x1 & x2 & x3 & x4 & Hout & H1 & H2 & H3 & H4).
    { destruct out as [|d1 [|d2 [|d3 [|d4 [|d5 [|d6 [|d7 [|d8 out]]]]]]]]; try done.
      rewrite !fmap_cons in Hzip. simplify_eq.
      repeat match goal with
             | H : addOrAppend _ _ _ = TInt _ |- _ =>
                 apply addOrAppend_int in H as (? & -> & ?)
             | H : addOrAppend _ _ ?d = TStr "a_" |- _ =>
                 apply (addOrAppend_str _ _ d "a") in H as ->
             | H : addOrAppend _ _ ?d = TStr "b_" |- _ =>
                 apply (addOrAppend_str _ _ d "b") in H as ->
             | H : addOrAppend _ _ ?d = TStr "c_" |- _ =>
                 apply (addOrAppend_str _ _ d "c") in H as ->
             end.
      eauto 10. }
    split; [done|]. split; [eauto 10|]. split.
    + intros Hgo. rewrite Hout in Hgo |- *.
      repeat match goal with
             | H : Forall _ (_ :: _) |- _ => apply Forall_cons in H as [? H]
             end.
      simpl in *.
      rewrite (wrap64_succ_inv x1 2), (wrap64_succ_inv x2 3),
              (wrap64_succ_inv x3 4), (wrap64_succ_inv x4 5) by (done || lia).
      done.
    + intros He. rewrite He in Hlen. discriminate Hlen.
  - unfold CombineZippingBy_asserted in HzipBy.
    set (out := zipBy Emitter.running_context sum [numbers; moreNumbers]) in *.
    destruct (Filter_items_evens _ _ HzipBy) as [Hf Hints].
    split; [done|]. split; [done|].
    assert (out <> [TInt 5; TInt 6; TInt 4]) as Hne.
    { intros He. rewrite He in Hf. discriminate Hf. }
    split; [done|]. by rewrite ZipBy_lockstep_emits.
Qed.

(** The assertions can be met, and in more than one way: they do not tell
    what the combiners do with the unpartnered items once the first input
    has ended. *)
Example assertions_leave_the_rule_open :
  CombineZipping_asserted (with_rounds passing_rounds) /\
  CombineZippingBy_asserted (with_rounds_by passing_rounds) /\
  Zip_on_closed_asserted (with_rounds passing_rounds) /\
  CombineZipping_asserted (with_rounds first_led_rounds) /\
  CombineZippingBy_asserted (with_rounds_by first_led_rounds) /\
  Zip_on_closed_asserted (with_rounds first_led_rounds) /\
  with_rounds_by passing_rounds Emitter.running_context sum [moreNumbers; numbers]
    = [TInt 5; TInt 6; TInt 4; TInt 4] /\
  with_rounds_by first_led_rounds Emitter.running_context sum [moreNumbers; numbers]
    = [TInt 5; TInt 6; TInt 4].
Proof. repeat split; reflexivity. Qed.

Lemma asserted_combiners_emit_the_unpartnered_item_witness :
  length (with_rounds passing_rounds Emitter.running_context [numbers; letters]) = 7 /\
  List.filter evens
    (with_rounds_by passing_rounds Emitter.running_context sum [numbers; moreNumbers])
  = [TInt 6; TInt 4; TInt 4].
Proof.
  destruct (asserted_combiners_emit_the_unpartnered_item
              (with_rounds passing_rounds) (with_rounds_by passing_rounds))
    as [(Hlen & _) (Hevens & _)].
  - reflexivity.
  - reflexivity.
  - split; [exact Hlen | exact Hevens].
Defined.

(** C2, as stated, against the test: the three sums 5, 6, 4 that the spec's
    combiner emits hold two even items, where the test asserts three; and
    the six items of its three complete rounds are one short of the seven
    that the test asserts for [Zip]. *)
Lemma lockstep_fails_TestRiversAPI :
  ZipBy_lockstep Emitter.running_context sum [numbers; moreNumbers]
    = [TInt 5; TInt 6; TInt 4] /\
  Filter_items evens_checked [TInt 5; TInt 6; TInt 4] = Some [TInt 6; TInt 4] /\
  ~ CombineZippingBy_asserted ZipBy_lockstep /\
  ~ CombineZipping_asserted Zip_lockstep.
Proof.
  split; [reflexivity|]. split; [reflexivity|]. split.
  - unfold CombineZippingBy_asserted. rewrite ZipBy_lockstep_emits. discriminate.
  - unfold CombineZipping_asserted. rewrite Zip_lockstep_emits. discriminate.
Qed.

End Zip.

(** ** Unordered interleave (package combiners: FIFO)

    Only [TestFifo] is among the sources. *)
Module Fifo.

(** Modelled from the spec: the FIFO combiner is missing.  One worker per
    input forwards the items of its input to the shared output as they
    arrive; a shared completion counter tracks the inputs that have ended;
    the output is closed only once every input has ended. *)
Record state : Type := State {
  workers : list (option (list T));  (* per input: what it still yields, or
                                        [None] once its end was counted *)
  counter : nat;                     (* inputs that have ended *)
  out : Chan.chan;                   (* the combined output *)
  log : list (nat * T)               (* history: what was forwarded, from where *)
}.

Inductive action : Type :=
  | AForward (i : nat) (rdy : bool)  (* worker i: out <- data *)
  | AEnd (i : nat)                   (* worker i: its input has ended *)
  | AClose                           (* close(out), all inputs having ended *)
  | ARead.                           (* the reader takes an item *)

Definition init (capacity : nat) (ins : list (list T)) : state :=
  {| workers := Some <$> ins; counter := 0; out := Chan.New capacity; log := [] |}.

Definition exec (a : action) (s : state) : option state :=
  match a with
  | AForward i rdy =>
      match workers s !! i with
      | Some (Some (d :: rem)) =>
          match Chan.write rdy (out s) d with
          | Ok c => Some {| workers := <[i := Some rem]> (workers s);
                            counter := counter s; out := c;
                            log := log s ++ [(i, d)] |}
          | _ => None
          end
      | _ => None
      end
  | AEnd i =>
      match workers s !! i with
      | Some (Some []) =>
          Some {| workers := <[i := None]> (workers s);
                  counter := S (counter s); out := out s; log := log s |}
      | _ => None
      end
  | AClose =>
      if bool_decide (counter s = length (workers s)) then
        match Chan.close (out s) with
        | Ok c => Some {| workers := workers s; counter := counter s;
                          out := c; log := log s |}
        | _ => None
        end
      else None
  | ARead =>
      match Chan.read (out s) with
      | Ok (c, Some _) => Some {| workers := workers s; counter := counter s;
                                  out := c; log := log s |}
      | _ => None
      end
  end.

Definition step (s s' : state) : Prop := exists a, exec a s = Some s'.

Definition reachable (capacity : nat) (ins : list (list T)) (s : state) : Prop :=
  rtc step (init capacity ins) s.

Fixpoint run (sched : list action) (s : state) : option state :=
  match sched with
  | [] => Some s
  | a :: sched' =>
      match exec a s with
      | Some s' => run sched' s'
      | None => None
      end
  end.

(** The items of the output that came from input [i], in output order. *)
Definition from (i : nat) (l : list (nat * T)) : list T :=
  snd <$> filter (fun p => p.1 = i) l.

Definition remaining (w : option (list T)) : list T := default [] w.

Definition running (w : option (list T)) : bool :=
  match w with Some _ => true | None => false end.

(** [TestFifo]: the inputs 1, 2 and 3, 4, their producers already closed;
    the test expects 1, 2, 3, 4. *)
Definition in1 : list T := [TInt 1; TInt 2].
Definition in2 : list T := [TInt 3; TInt 4].

Definition one_after_the_other : list action :=
  [AForward 0 true; AForward 0 true; AEnd 0;
   AForward 1 true; AForward 1 true; AEnd 1; AClose].

Definition interleaved : list action :=
  [AForward 1 true; AForward 0 true; AForward 1 true; AEnd 1;
   AForward 0 true; AEnd 0; AClose].

Definition end_of (sched : list action) : state :=
  match run sched (init 2 [in1; in2]) with
  | Some s => s
  | None => init 2 [in1; in2]
  end.

Definition TestFifo_end : state := Eval vm_compute in end_of one_after_the_other.
Definition interleaved_end : state := Eval vm_compute in end_of interleaved.

Example TestFifo :
  run one_after_the_other (init 2 [in1; in2]) = Some TestFifo_end /\
  Chan.closed (out TestFifo_end) = true /\
  Chan.contents (out TestFifo_end) = [TInt 1; TInt 2; TInt 3; TInt 4].
Proof. done. Qed.

Example interleaved_run :
  run interleaved (init 2 [in1; in2]) = Some interleaved_end /\
  Chan.closed (out interleaved_end) = true /\
  Chan.contents (out interleaved_end) = [TInt 3; TInt 1; TInt 4; TInt 2].
Proof. done. Qed.

(** *** What every reachable state satisfies *)

Definition count_running (ws : list (option (list T))) : nat :=
  length (filter (fun w => running w = true) ws).

Lemma replace_at {A} (l : list A) i x y :
  l !! i = Some x ->
  l = take i l ++ x :: drop (S i) l /\
  <[i := y]> l = take i l ++ y :: drop (S i) l.
Proof.
  intros Hi. split.
  - symmetry. by apply take_drop_middle.
  - apply insert_take_drop. by eapply lookup_lt_Some.
Qed.

Lemma count_running_insert ws i w w' :
  ws !! i = Some w ->
  count_running (<[i := w']> ws) + (if running w then 1 else 0)
  = count_running ws + (if running w' then 1 else 0).
Proof.
  intros Hi. destruct (replace_at ws i w w' Hi) as [Hl Hins].
  rewrite Hins. rewrite Hl at 3. unfold count_running.
  rewrite !filter_app, !filter_cons, !length_app.
  destruct w, w'; simpl; lia.
Qed.

Lemma remaining_insert ws i w w' d :
  ws !! i = Some w -> remaining w = d ++ remaining w' ->
  concat (remaining <$> ws) ≡ₚ d ++ concat (remaining <$> <[i := w']> ws).
Proof.
  intros Hi Hr. destruct (replace_at ws i w w' Hi) as [Hl Hins].
  rewrite Hins. rewrite Hl at 1.
  rewrite !fmap_app, !fmap_cons, !concat_app. simpl.
  rewrite Hr. rewrite <-!app_assoc.
  apply Permutation_app_swap_app.
Qed.

Lemma all_ended ws :
  count_running ws = 0 -> forall i w, ws !! i = Some w -> w = None.
Proof.
  unfold count_running. intros H0 i w Hi.
  apply length_zero_iff_nil in H0.
  destruct w as [l|]; [exfalso|done].
  apply (filter_nil_not_elem_of _ _ (Some l) H0); [done|].
  by eapply list_elem_of_lookup_2.
Qed.

Lemma from_snoc i l j d :
  from i (l ++ [(j, d)]) = from i l ++ (if bool_decide (j = i) then [d] else []).
Proof.
  unfold from. rewrite filter_app, fmap_app. f_equal.
  rewrite filter_cons. simpl. case_decide; case_bool_decide; done.
Qed.

Section Invariants.

Variable capacity : nat.
Variable ins : list (list T).

Record fifo_inv (s : state) : Prop := {
  fifo_workers : length (workers s) = length ins;
  fifo_order :
    forall i l, ins !! i = Some l ->
      exists w, workers s !! i = Some w /\ from i (log s) ++ remaining w = l;
  fifo_contents : Chan.contents (out s) = (snd <$> log s);
  fifo_counter : counter s + count_running (workers s) = length (workers s);
  fifo_total : (snd <$> log s) ++ concat (remaining <$> workers s) ≡ₚ concat ins;
  fifo_closed : Chan.closed (out s) = true -> counter s = length (workers s)
}.

Lemma count_running_init (l : list (list T)) :
  count_running (Some <$> l) = length l.
Proof.
  unfold count_running. induction l as [|x l IH]; [done|].
  rewrite fmap_cons, filter_cons. simpl. by rewrite IH.
Qed.

Lemma fifo_inv_init : fifo_inv (init capacity ins).
Proof.
  split; simpl.
  - by rewrite length_fmap.
  - intros i l Hi. exists (Some l). split; [|done].
    by rewrite list_lookup_fmap, Hi.
  - done.
  - by rewrite count_running_init, length_fmap.
  - rewrite <-list_fmap_compose.
    assert (remaining ∘ Some <$> ins = ins) as ->; [|done].
    clear. induction ins as [|x l IH]; [done|]. simpl. by f_equal.
  - done.
Qed.

Lemma fifo_inv_exec a s s' : fifo_inv s -> exec a s = Some s' -> fifo_inv s'.
Proof.
  intros [Hw Ho Hc Hn Ht Hcl] Hstep. destruct a as [i rdy|i| |]; simpl in Hstep.
  - (* worker i forwards the head of its input *)
    destruct (workers s !! i) as [[[|d rem]|]|] eqn:Hi; try done.
    destruct (Chan.write rdy (out s) d) as [c| |] eqn:Hwr; try done.
    apply Chan.write_Ok in Hwr as (Hc1 & Hc2 & Hc3). simplify_eq.
    split; simpl.
    + by rewrite length_insert.
    + intros j l Hj. destruct (Ho j l Hj) as (w & Hwj & Hl).
      rewrite from_snoc. destruct (decide (i = j)) as [->|Hne].
      * exists (Some rem). rewrite list_lookup_insert_eq by (by eapply lookup_lt_Some).
        split; [done|]. rewrite bool_decide_eq_true_2 by done.
        rewrite Hi in Hwj. simplify_eq. simpl. by rewrite <-app_assoc.
      * exists w. rewrite list_lookup_insert_ne by done.
        split; [done|]. rewrite bool_decide_eq_false_2 by done.
        by rewrite app_nil_r.
    + rewrite Hc1, Hc. by rewrite fmap_app.
    + rewrite length_insert.
      pose proof (count_running_insert (workers s) i _ (Some rem) Hi). simpl in *. lia.
    + rewrite <-Ht. rewrite fmap_app. simpl. rewrite <-app_assoc. f_equiv.
      symmetry. by apply (remaining_insert _ _ (Some (d :: rem))).
    + congruence.
  - (* worker i counts the end of its input *)
    destruct (workers s !! i) as [[[|d rem]|]|] eqn:Hi; try done. simplify_eq.
    split; simpl.
    + by rewrite length_insert.
    + intros j l Hj. destruct (Ho j l Hj) as (w & Hwj & Hl).
      destruct (decide (i = j)) as [->|Hne].
      * exists None. rewrite list_lookup_insert_eq by (by eapply lookup_lt_Some).
        split; [done|]. rewrite Hi in Hwj. by simplify_eq.
      * exists w. by rewrite list_lookup_insert_ne.
    + done.
    + rewrite length_insert.
      pose proof (count_running_insert (workers s) i _ None Hi). simpl in *. lia.
    + rewrite <-Ht. f_equiv.
      pose proof (remaining_insert (workers s) i (Some []) None [] Hi) as Hp.
      simpl in Hp. symmetry. by apply Hp.
    + intros Hclosed. specialize (Hcl Hclosed).
      pose proof (count_running_insert (workers s) i _ None Hi). simpl in *.
      rewrite length_insert. lia.
  - (* the output is closed *)
    case_bool_decide as Hall; [|done].
    destruct (Chan.close (out s)) as [c| |] eqn:Hclose; try done.
    apply Chan.close_Ok in Hclose as (Hc1 & Hc2 & Hc3). simplify_eq.
    split; simpl; try done; congruence.
  - (* the reader takes an item *)
    destruct (Chan.read (out s)) as [[c [v|]]| |] eqn:Hrd; try done.
    apply Chan.read_Ok in Hrd as [Hc1 Hc2]. simplify_eq.
    split; simpl; try done; try congruence.
    intros Hclosed. apply Hcl. congruence.
Qed.

Lemma fifo_inv_reachable s : reachable capacity ins s -> fifo_inv s.
Proof.
  unfold reachable. revert s. apply rtc_ind_r; [apply fifo_inv_init|].
  intros s s' _ [a Hstep] IH. by eapply fifo_inv_exec.
Qed.

Lemma fifo_run_reachable sched s s' :
  reachable capacity ins s -> run sched s = Some s' -> reachable capacity ins s'.
Proof.
  revert s. induction sched as [|a sched IH]; intros s Hr Hrun; simpl in Hrun.
  - by simplify_eq.
  - destruct (exec a s) as [s1|] eqn:Hstep; [|done].
    apply (IH s1); [|done]. eapply rtc_r; [exact Hr|]. by exists a.
Qed.

(** C8. The output holds what was forwarded, in the order it was
    forwarded; the items that came from one input are, in output order, a
    prefix of that input, so their relative order is the input's.  Once
    the output is closed every input has ended and been counted: the items
    from each input are the whole input, in its order, and the output as a
    whole is a rearrangement of all the inputs. *)
Theorem FIFO_preserves_order_within_input :
  forall s, reachable capacity ins s ->
    Chan.contents (out s) = (snd <$> log s) /\
    (forall i l, ins !! i = Some l -> from i (log s) `prefix_of` l) /\
    (Chan.closed (out s) = true ->
       counter s = length ins /\
       (forall i l, ins !! i = Some l -> from i (log s) = l) /\
       Chan.contents (out s) ≡ₚ concat ins).
Proof.
  intros s Hr. destruct (fifo_inv_reachable s Hr) as [Hw Ho Hc Hn Ht Hcl].
  split; [done|]. split.
  - intros i l Hi. destruct (Ho i l Hi) as (w & _ & <-).
    by apply prefix_app_r.
  - intros Hclosed. specialize (Hcl Hclosed).
    assert (forall i w, workers s !! i = Some w -> w = None) as Hnone.
    { apply all_ended. lia. }
    split; [congruence|]. split.
    + intros i l Hi. destruct (Ho i l Hi) as (w & Hwi & <-).
      rewrite (Hnone i w Hwi). simpl. by rewrite app_nil_r.
    + rewrite Hc, <-Ht.
      assert (concat (remaining <$> workers s) = []) as ->; [|by rewrite app_nil_r].
      clear -Hnone. induction (workers s) as [|w ws IH]; [done|].
      rewrite fmap_cons. simpl. rewrite (Hnone 0 w eq_refl). simpl.
      apply IH. intros i w' Hi. by apply (Hnone (S i)).
Qed.

End Invariants.

(** *** The output does get closed *)

Lemma fifo_run_app sched1 sched2 s s1 s2 :
  run sched1 s = Some s1 -> run sched2 s1 = Some s2 ->
  run (sched1 ++ sched2) s = Some s2.
Proof.
  revert s. induction sched1 as [|a sched1 IH]; intros s H1 H2; simpl in *.
  - by simplify_eq.
  - destruct (exec a s); [|done]. by apply IH.
Qed.

(** A worker whose reader keeps up forwards its whole input and counts
    its end. *)
Lemma worker_runs l pre post s :
  workers s = pre ++ Some l :: post ->
  Chan.closed (out s) = false -> Chan.buf (out s) = [] ->
  exists sched s', run sched s = Some s' /\
                   workers s' = pre ++ None :: post /\
                   counter s' = S (counter s) /\
                   Chan.closed (out s') = false /\ Chan.buf (out s') = [].
Proof.
  revert s. induction l as [|d l IH]; intros s Hw Hc Hb.
  - exists [AEnd (length pre)]. eexists. split.
    + simpl. rewrite Hw, list_lookup_middle by done. reflexivity.
    + simpl. split; [|done]. by rewrite insert_app_r_alt, Nat.sub_diag by lia.
  - set (c := {| Chan.buf := []; Chan.cap := Chan.cap (out s); Chan.closed := false;
                 Chan.taken := Chan.taken (out s) ++ [d] |}).
    set (s1 := {| workers := pre ++ Some l :: post; counter := counter s;
                  out := c; log := log s ++ [(length pre, d)] |}).
    assert (exec (AForward (length pre) true) s = Some s1) as H1.
    { simpl. rewrite Hw, list_lookup_middle by done.
      unfold Chan.write. rewrite Hc, Hb. simpl. unfold s1, c. do 2 f_equal.
      by rewrite insert_app_r_alt, Nat.sub_diag by lia. }
    destruct (IH s1) as (sched & s' & Hrun & Hw' & Hn' & Hc' & Hb'); try done.
    exists (AForward (length pre) true :: sched), s'.
    split; [|done]. simpl in *. by rewrite H1.
Qed.

Lemma workers_run post pre s :
  workers s = pre ++ (Some <$> post) -> counter s = length pre ->
  Chan.closed (out s) = false -> Chan.buf (out s) = [] ->
  exists sched s', run sched s = Some s' /\ Chan.closed (out s') = true.
Proof.
  revert pre s. induction post as [|l post IH]; intros pre s Hw Hn Hc Hb.
  - exists [AClose]. eexists. split.
    + simpl. rewrite Hw, app_nil_r, Hn. rewrite bool_decide_eq_true_2 by done.
      unfold Chan.close. rewrite Hc. reflexivity.
    + reflexivity.
  - destruct (worker_runs l pre (Some <$> post) s) as (sched1 & s1 & Hrun1 & Hw1 & Hn1 & Hc1 & Hb1);
      try done.
    destruct (IH (pre ++ [None]) s1) as (sched2 & s' & Hrun2 & Hclosed); try done.
    + by rewrite <-app_assoc.
    + rewrite length_app. simpl. lia.
    + exists (sched1 ++ sched2), s'. split; [|done]. by eapply fifo_run_app.
Qed.

(** Whatever the inputs, some schedule forwards them all and closes the
    output. *)
Theorem FIFO_can_close (capacity : nat) (ins : list (list T)) :
  exists sched s, run sched (init capacity ins) = Some s /\
                  Chan.closed (out s) = true.
Proof. by apply (workers_run ins []). Qed.

Lemma FIFO_preserves_order_within_input_witness :
  from 0 (log interleaved_end) = [TInt 1; TInt 2] /\
  from 1 (log interleaved_end) = [TInt 3; TInt 4] /\
  Chan.contents (out interleaved_end) ≡ₚ [TInt 1; TInt 2; TInt 3; TInt 4].
Proof.
  destruct (FIFO_preserves_order_within_input 2 [in1; in2] interleaved_end)
    as (_ & _ & H).
  { apply (fifo_run_reachable 2 [in1; in2] interleaved (init 2 [in1; in2]));
      [apply rtc_refl | reflexivity]. }
  destruct (H eq_refl) as (_ & Hfrom & Hperm).
  split; [exact (Hfrom 0 in1 eq_refl)|].
  split; [exact (Hfrom 1 in2 eq_refl) | exact Hperm].
Defined.

End Fifo.

(** ** More about the conditional dispatcher

    What [Dispatch] keeps and what it never does, whatever the schedule and
    whether or not the context fails. *)
Module DispatcherFacts.
Import Dispatcher.

Ltac cases_of H :=
  repeat match type of H with
  | context [match ?x with _ => _ end] => destruct x eqn:?
  end; simplify_eq.

(** One step of a run on a state that is known well enough. *)
Ltac walk :=
  repeat (try unfold exec at 1;
          unfold main_step, sender_step, barrier_failure, signal, goto, leave_loop,
                 Chan.write, Chan.close;
          simpl).

Lemma write_panics_with rdy c v p :
  Chan.write rdy c v = Panic p -> p = SendOnClosedChannel /\ Chan.closed c = true.
Proof. unfold Chan.write. intros H. cases_of H. done. Qed.

Lemma close_panics_with c p :
  Chan.close c = Panic p -> p = CloseOfClosedChannel /\ Chan.closed c = true.
Proof. unfold Chan.close. intros H. cases_of H. done. Qed.

Lemma filter_prefix {A} (f : A -> bool) (l1 l2 : list A) :
  l1 `prefix_of` l2 -> List.filter f l1 `prefix_of` List.filter f l2.
Proof. intros [k ->]. rewrite List.filter_app. by apply prefix_app_r. Qed.

Lemma flat_map_prefix {A B} (g : A -> list B) (l1 l2 : list A) :
  l1 `prefix_of` l2 -> flat_map g l1 `prefix_of` flat_map g l2.
Proof. intros [k ->]. rewrite flat_map_app. by apply prefix_app_r. Qed.

Section Facts.

Variable fn : T -> bool.
Variable writables : list nat.
Variable c0 : Context.
Variable items : list T.
Variable capacity : nat.
Variable chans : list Chan.chan.

Local Abbreviation reached := (reachable fn writables (init c0 items capacity chans)).

(** Further facts kept by every step. *)
Record kept (s : state) : Prop := {
  kept_targets : Forall (fun x => target x ∈ writables) (senders s);
  kept_spawn : forall d ws, main s = Spawn d ws -> forall w, w ∈ ws -> w ∈ writables;
  kept_input :
    exists lost, items = handled s ++ lost ++ input s /\ length lost <= 1 /\
                 (in_loop (main s) = true -> lost = cur (main s));
  kept_panicking : panicking s = None \/ panicking s = Some CloseOfClosedChannel;
  kept_crashed : crashed s = None \/ crashed s = Some SendOnClosedChannel;
  kept_exit :
    forall e, main s = Finished e -> e = Returned \/ e = Recovered CloseOfClosedChannel
}.

Lemma kept_init : kept (init c0 items capacity chans).
Proof.
  split; simpl; try done; auto.
  exists []. split; [done|]. split; [simpl; lia|done].
Qed.

Lemma kept_main_step rdy s s' :
  inv fn writables items chans s -> kept s ->
  main_step fn writables rdy s = Some s' -> kept s'.
Proof.
  intros Hinv [Ht Hsp (lost & Hi & Hl & Hc) Hp Hcr He] Hstep.
  pose proof (inv_rest_closed _ _ _ _ _ Hinv) as Hrc.
  unfold main_step, leave_loop, goto in Hstep.
  destruct (main s) as [|d|d [|w ws]|d|n|[|w ws]| | |e] eqn:Hm; simpl in *.
  all: cases_of Hstep.
  all: repeat match goal with
       | H : Chan.write _ _ _ = Panic _ |- _ => apply write_panics_with in H as [-> ?]
       | H : Chan.close _ = Panic _ |- _ => apply close_panics_with in H as [-> ?]
       end; try congruence.
  all: split; simpl; try done; auto.
  all: try (match goal with |- exists _, _ => idtac end;
            try (specialize (Hc eq_refl); subst lost);
            repeat match goal with H : input _ = _ |- _ => rewrite H in Hi end;
            first
              [ exists lost; split; [exact Hi|]; split; [exact Hl|]; done
              | exists []; split; [rewrite Hi; simpl; by rewrite <-?app_assoc|];
                split; [simpl; lia | done]
              | eexists [_]; split; [rewrite Hi; simpl; rewrite <-?app_assoc; reflexivity|];
                split; [simpl; lia | done] ]).
  - intros d0 ws [= <- <-]. done.
  - apply Forall_app. split; [done|]. apply Forall_singleton. simpl.
    apply (Hsp _ _ eq_refl). by left.
  - intros d0 ws0 [= <- <-] w0 Hw0. apply (Hsp _ _ eq_refl). by right.
  - intros e [= <-]. destruct Hp as [Hp|Hp]; [congruence|]. right. congruence.
  - intros e [= <-]. by left.
Qed.

Lemma kept_exec a s s' :
  inv fn writables items chans s -> kept s ->
  exec fn writables a s = Some s' -> kept s'.
Proof.
  intros Hinv Hk. unfold exec. destruct (crashed s) eqn:Hcr; [done|].
  destruct a; intros Hstep.
  - by eapply kept_main_step.
  - destruct Hk as [Ht Hsp (lost & Hi & Hl & Hc) Hp Hcr' He].
    unfold barrier_failure, goto in Hstep. cases_of Hstep.
    split; simpl; try done. exists lost. by repeat split.
  - destruct Hk as [Ht Hsp Hin Hp Hcr' He].
    unfold sender_step in Hstep. cases_of Hstep.
    + split; simpl; try done.
      apply Forall_insert; [done|]. simpl.
      match goal with H : senders s !! _ = Some _ |- _ =>
        apply (Forall_lookup_1 _ _ _ _ Ht H) end.
    + match goal with H : Chan.write _ _ _ = Panic _ |- _ =>
        apply write_panics_with in H as [-> ?] end.
      split; simpl; try done. by right.
    + split; simpl; try done. by apply Forall_delete.
  - destruct Hk as [Ht Hsp Hin Hp Hcr' He].
    unfold read_out in Hstep. cases_of Hstep. by split.
  - destruct Hk as [Ht Hsp Hin Hp Hcr' He].
    unfold read_rest in Hstep. cases_of Hstep. by split.
  - simplify_eq. destruct Hk. by split.
  - simplify_eq. destruct Hk. by split.
Qed.

Lemma kept_reachable s : reached s -> kept s.
Proof.
  intros Hr. enough (inv fn writables items chans s /\ kept s) by tauto.
  revert s Hr. apply rtc_ind_r.
  - split; [apply inv_init | apply kept_init].
  - intros s1 s2 _ [a Hstep] [Hi Hk]. split.
    + by eapply inv_exec.
    + by eapply kept_exec.
Qed.

Lemma handled_prefix s : reached s -> handled s `prefix_of` items.
Proof.
  intros Hr. destruct (kept_input _ (kept_reachable _ Hr)) as (lost & -> & _).
  by apply prefix_app_r.
Qed.

(** X1. Whatever the schedule, and whether or not the context fails, the
    streams only ever hold items of the input: the remainder holds a prefix
    of the non-matching items, in input order, and each output holds, beside
    what it held at the call, no more than one copy per listing of each
    matching item. *)
Theorem Dispatch_delivers_only_input :
  forall s, reached s ->
    Chan.contents (rest s) `prefix_of` List.filter (fun d => negb (fn d)) items /\
    (forall w, conts (outs s) w
               ⊆+ conts chans w ++ flat_map (copies w writables) (List.filter fn items)).
Proof.
  intros s Hr. pose proof (inv_reachable _ _ _ _ _ _ _ Hr) as Hinv.
  pose proof (handled_prefix s Hr) as Hpre. split.
  - transitivity (List.filter (fun d => negb (fn d)) (handled s)).
    + rewrite <-(inv_rest _ _ _ _ _ Hinv). by apply prefix_app_r.
    + by apply filter_prefix.
  - intros w.
    transitivity (conts chans w ++ flat_map (copies w writables) (List.filter fn (handled s))).
    + rewrite <-(inv_outs _ _ _ _ _ Hinv w). by apply submseteq_inserts_r.
    + destruct (flat_map_prefix (copies w writables) _ _
                  (filter_prefix fn _ _ Hpre)) as [k ->].
      rewrite app_assoc. by apply submseteq_inserts_r.
Qed.

(** X2. [Dispatch] takes the items of its input in order and skips none: the
    input is, at any time, the items that went through the [default] branch,
    then at most one item received and not forwarded (the one at hand, or
    the one dropped when the failure was seen), then the items not yet
    read.  Once the loop is left without a failure nothing is unread. *)
Theorem Dispatch_reads_in_order :
  forall s, reached s ->
    exists lost,
      items = handled s ++ lost ++ input s /\ length lost <= 1 /\
      (in_loop (main s) = true -> lost = cur (main s)) /\
      (in_loop (main s) = false -> Failure (ctx s) = false ->
         lost = [] /\ input s = []).
Proof.
  intros s Hr. pose proof (inv_reachable _ _ _ _ _ _ _ Hr) as Hinv.
  destruct (kept_input _ (kept_reachable _ Hr)) as (lost & Hi & Hl & Hc).
  exists lost. split; [done|]. split; [done|]. split; [done|].
  intros Hout Hf. destruct (inv_input _ _ _ _ _ Hinv Hf) as [Hi' Hin].
  specialize (Hin Hout). split; [|done].
  rewrite Hin in Hi, Hi'. destruct (main s); simpl in *; try done.
  all: rewrite !app_nil_r in *; rewrite Hi' in Hi at 1;
       apply (f_equal length) in Hi; rewrite length_app in Hi;
       destruct lost; simpl in *; [done | lia].
Qed.

Lemma failure_stays a s s' :
  exec fn writables a s = Some s' ->
  Failure (ctx s') = false -> Failure (ctx s) = false.
Proof.
  unfold exec. destruct (crashed s); [done|]. destruct a; intros Hstep.
  - unfold main_step, leave_loop, goto in Hstep. cases_of Hstep; simpl; intros; congruence.
  - unfold barrier_failure, goto in Hstep. cases_of Hstep; simpl; intros; congruence.
  - unfold sender_step in Hstep. cases_of Hstep; simpl; intros; congruence.
  - unfold read_out in Hstep. cases_of Hstep; simpl; intros; congruence.
  - unfold read_rest in Hstep. cases_of Hstep; simpl; intros; congruence.
  - simplify_eq. simpl. intros; congruence.
  - simplify_eq. simpl. intros; congruence.
Qed.

(** The only step that ends the process is a delivery to a closed output. *)
Lemma crash_cause a s s' :
  exec fn writables a s = Some s' -> crashed s' <> None ->
  exists k w d c, senders s !! k = Some (Sender w d Sending) /\
                  outs s !! w = Some c /\ Chan.closed c = true.
Proof.
  unfold exec. destruct (crashed s) eqn:Hcr; [done|]. destruct a; intros Hstep Hne.
  - exfalso. unfold main_step, leave_loop, goto in Hstep.
    cases_of Hstep; simpl in *; congruence.
  - exfalso. unfold barrier_failure, goto in Hstep. cases_of Hstep; simpl in *; congruence.
  - unfold sender_step in Hstep. cases_of Hstep; simpl in *; try congruence.
    match goal with H : Chan.write _ _ _ = Panic _ |- _ =>
      apply write_panics_with in H as [_ ?] end.
    eauto 10.
  - exfalso. unfold read_out in Hstep. cases_of Hstep; simpl in *; congruence.
  - exfalso. unfold read_rest in Hstep. cases_of Hstep; simpl in *; congruence.
  - simplify_eq; simpl in *; congruence.
  - simplify_eq; simpl in *; congruence.
Qed.

(** A goroutine still has to deliver to [w], and [w] is closed. *)
Definition late_delivery (s : state) : Prop :=
  exists k w d c, senders s !! k = Some (Sender w d Sending) /\
                  outs s !! w = Some c /\ Chan.closed c = true.

Lemma no_late_delivery_without_failure s :
  listed_open writables chans ->
  reached s -> Failure (ctx s) = false -> ~ late_delivery s.
Proof.
  intros Hopen Hr Hf (k & w & d & c & Hk & Hw & Hc).
  pose proof (inv_reachable _ _ _ _ _ _ _ Hr) as Hinv.
  pose proof (kept_targets _ (kept_reachable _ Hr)) as Ht.
  pose proof (Forall_lookup_1 _ _ _ _ Ht Hk) as Hin. simpl in Hin.
  destruct (Hopen w Hin) as (c0' & Hc0 & Hopen0).
  pose proof (inv_closed _ _ _ _ _ Hinv w) as Hcl.
  unfold is_closed in Hcl. rewrite Hw, Hc0, Hc, Hopen0 in Hcl. simpl in Hcl.
  symmetry in Hcl. apply bool_decide_eq_true_1 in Hcl.
  destruct (past_barrier (main s)) eqn:Hp.
  - destruct (inv_acks _ _ _ _ _ Hinv Hp) as [Ha|Ha]; [|congruence].
    pose proof (inv_count _ _ _ _ _ Hinv) as Hcnt.
    assert (senders s = []) as Hs by (apply length_zero_iff_nil; lia).
    by rewrite Hs in Hk.
  - rewrite (inv_closes _ _ _ _ _ Hinv Hp) in Hcl. by apply elem_of_nil in Hcl.
Qed.

(** X3. With the listed outputs open at the call and as long as the
    context does not fail, no fan-out delivery finds its output closed, so
    no goroutine launched by [Dispatch] panics and the process is not
    brought down.  If the listed outputs are moreover pairwise distinct,
    the dispatching goroutine does not panic either: no goroutine of
    [Dispatch] panics, and the dispatcher, once finished, has returned.
    (With an output listed twice the second deferred [close] panics, with
    or without a failure; see [listed_twice_without_failure].) *)
Theorem Dispatch_does_not_crash_without_failure :
  listed_open writables chans ->
  forall s, reached s -> Failure (ctx s) = false ->
    crashed s = None /\ ~ late_delivery s /\
    (NoDup writables ->
       panicking s = None /\ forall e, main s = Finished e -> e = Returned).
Proof.
  intros Hopen s Hr Hf. split; [|split; [by apply no_late_delivery_without_failure|]].
  - revert s Hr Hf.
    apply (rtc_ind_r (fun s => Failure (ctx s) = false -> crashed s = None)).
    + done.
    + intros s1 s2 Hr1 [a Hstep] IH Hf2.
      pose proof (failure_stays _ _ _ Hstep Hf2) as Hf1.
      destruct (crashed s2) as [p|] eqn:Hc2; [exfalso|done].
      apply (no_late_delivery_without_failure s1 Hopen Hr1 Hf1).
      apply (crash_cause a s1 s2 Hstep). congruence.
  - intros Hnd.
    destruct (closing_reachable _ _ _ _ _ _ _ Hnd Hopen Hr) as [Hp Hc].
    split; [done|]. intros e Hm. rewrite Hm in Hc. by destruct Hc.
Qed.

(** X4. However the outputs are listed, a dispatcher that has finished has
    closed its remainder, and it ended by returning or by recovering from
    the close of an output that was closed already; a process that was
    brought down was brought down by a delivery to a closed output. *)
Theorem Dispatch_always_closes_remainder :
  forall s, reachable fn writables (init c0 items capacity chans) s ->
    (forall e, main s = Finished e ->
       Chan.closed (rest s) = true /\
       (e = Returned \/ e = Recovered CloseOfClosedChannel)) /\
    (crashed s = None \/ crashed s = Some SendOnClosedChannel).
Proof.
  intros s Hr. pose proof (inv_reachable _ _ _ _ _ _ _ Hr) as Hinv.
  pose proof (kept_reachable _ Hr) as Hk. split.
  - intros e Hm. split; [|by apply (kept_exit _ Hk)].
    rewrite (inv_rest_closed _ _ _ _ _ Hinv), Hm. done.
  - apply (kept_crashed _ Hk).
Qed.

(** Once its input has been delivered, the dispatching goroutine can stall
    in two places only: the write to the remainder and the barrier. *)
Lemma main_blocked_cases :
  NoDup writables -> listed_open writables chans ->
  forall s rdy, reached s -> crashed s = None ->
    exec fn writables (AMain rdy) s = None ->
    (exists e, main s = Finished e) \/
    (exists d, main s = SendRest d /\
               Chan.closed (rest s) = false /\
               Chan.cap (rest s) <= length (Chan.buf (rest s)) /\
               (rdy = false \/ Chan.buf (rest s) <> [])) \/
    (exists n, main s = Barrier n /\ acks s < n /\ done s = 0 /\ senders s <> []).
Proof.
  intros Hnd Hopen s rdy Hr Hc Hstep.
  pose proof (inv_reachable _ _ _ _ _ _ _ Hr) as Hinv.
  destruct (closing_reachable _ _ _ _ _ _ _ Hnd Hopen Hr) as [_ Hcl].
  unfold exec in Hstep. rewrite Hc in Hstep. unfold main_step in Hstep.
  destruct (main s) as [|d|d ws|d|n|ws| | |e] eqn:Hm.
  - by destruct (input s).
  - by repeat case_match.
  - by destruct ws.
  - right. left. exists d. split; [done|].
    unfold Chan.write in Hstep.
    destruct (Chan.closed (rest s)) eqn:Hrc; [done|]. split; [done|].
    destruct rdy; simpl in Hstep.
    + case_bool_decide as Hb; [done|]. case_bool_decide; [done|]. split; [lia|auto].
    + case_bool_decide; [done|]. split; [lia|auto].
  - right. right. exists n.
    case_bool_decide as Hlt; [|done]. destruct (done s) eqn:Hd; [|done].
    split; [done|]. split; [done|]. split; [done|].
    pose proof (inv_count _ _ _ _ _ Hinv) as Hcnt.
    rewrite (inv_barrier _ _ _ _ _ Hinv n Hm) in Hlt.
    rewrite Hm, Hd in Hcnt. simpl in Hcnt.
    intros Hs. rewrite Hs in Hcnt. simpl in Hcnt. lia.
  - exfalso. destruct ws as [|w ws]; [done|].
    assert (w ∈ writables) as Hw.
    { rewrite <-Hcl. apply elem_of_app. right. by left. }
    destruct (Hopen w Hw) as (c & Hcw & _).
    apply lookup_lt_Some in Hcw. rewrite <-(inv_len _ _ _ _ _ Hinv) in Hcw.
    apply lookup_lt_is_Some_2 in Hcw as [c' Hc'].
    rewrite Hc' in Hstep.
    destruct (Chan.close c') eqn:Hclose; try done.
    by apply Chan.close_not_Blocked in Hclose.
  - exfalso. destruct (Chan.close (rest s)) eqn:Hclose; try done.
    by apply Chan.close_not_Blocked in Hclose.
  - done.
  - left. by exists e.
Qed.

(** *** A delivery that comes too late *)

(** The goroutines launched for the item [d], in the order of launch. *)
Definition launched (d : T) (ws : list nat) : list sender :=
  (fun w => Sender w d Sending) <$> ws.

(** The inner loop alone: every goroutine is launched, none has run yet. *)
Lemma launch_only d ws s :
  main s = Spawn d ws -> crashed s = None ->
  run fn writables (replicate (S (length ws)) (AMain true)) s =
    Some {| main := Range; input := input s; rest := rest s; outs := outs s;
            dispatchedCount := dispatchedCount s; done := done s;
            senders := senders s ++ launched d ws; ctx := ctx s;
            panicking := panicking s; crashed := None; acks := acks s;
            handled := handled s; closes := closes s |}.
Proof.
  revert s. induction ws as [|w ws IH]; intros s Hm Hc.
  - simpl. unfold exec, main_step, goto. rewrite Hc, Hm. simpl.
    by rewrite app_nil_r.
  - change (replicate (S (length (w :: ws))) (AMain true))
      with (AMain true :: replicate (S (length ws)) (AMain true)).
    cbn [run]. unfold exec at 1, main_step at 1. rewrite Hc, Hm.
    rewrite IH by done. simpl. by rewrite <-app_assoc.
Qed.

(** The loop alone, with the caller reading the remainder: every item is
    handled and the goroutines of the matching ones are all still to run. *)
Lemma loop_only l :
  forall s,
    main s = Range -> input s = l -> crashed s = None ->
    Failure (ctx s) = false ->
    Chan.closed (rest s) = false -> Chan.buf (rest s) = [] ->
    exists sched s',
      run fn writables sched s = Some s' /\
      main s' = Range /\ input s' = [] /\
      senders s' = senders s ++ flat_map (fun d => launched d writables) (List.filter fn l) /\
      outs s' = outs s /\ ctx s' = ctx s /\ crashed s' = None /\ acks s' = acks s.
Proof.
  induction l as [|d l IH]; intros s Hm Hi Hc Hf Hrc Hrb.
  - exists [], s. simpl. by rewrite app_nil_r.
  - set (s1 := {| main := Select d; input := l; rest := rest s; outs := outs s;
              dispatchedCount := dispatchedCount s; done := done s;
              senders := senders s; ctx := ctx s; panicking := panicking s;
              crashed := crashed s; acks := acks s; handled := handled s;
              closes := closes s |}).
    assert (exec fn writables (AMain true) s = Some s1) as H1.
    { unfold exec, main_step, s1. by rewrite Hc, Hm, Hi. }
    destruct (fn d) eqn:Hfn.
    + set (s2 := {| main := Spawn d writables; input := l; rest := rest s;
                outs := outs s; dispatchedCount := S (dispatchedCount s);
                done := done s; senders := senders s; ctx := ctx s;
                panicking := panicking s; crashed := crashed s; acks := acks s;
                handled := handled s ++ [d]; closes := closes s |}).
      assert (exec fn writables (AMain true) s1 = Some s2) as H2.
      { unfold exec, main_step, s1, s2. simpl. by rewrite Hc, Hf, Hfn. }
      pose proof (launch_only d writables s2 eq_refl Hc) as H3.
      destruct (IH {| main := Range; input := l; rest := rest s; outs := outs s;
                      dispatchedCount := S (dispatchedCount s); done := done s;
                      senders := senders s ++ launched d writables; ctx := ctx s;
                      panicking := panicking s; crashed := None; acks := acks s;
                      handled := handled s ++ [d]; closes := closes s |})
        as (sched & s' & Hrun & Hm' & Hi' & Hs' & Ho' & Hctx' & Hc' & Ha'); try done.
      exists ([AMain true; AMain true] ++
              replicate (S (length writables)) (AMain true) ++ sched), s'.
      split; [|split; [done|]; split; [done|]; split; [|done]].
      * eapply (run_app _ _ [AMain true; AMain true]);
          [simpl; rewrite H1, H2; reflexivity|].
        eapply run_app; [exact H3 | exact Hrun].
      * rewrite Hs'. simpl. rewrite Hfn. simpl. by rewrite <-app_assoc.
    + set (s2 := {| main := SendRest d; input := l; rest := rest s;
                outs := outs s; dispatchedCount := dispatchedCount s;
                done := done s; senders := senders s; ctx := ctx s;
                panicking := panicking s; crashed := crashed s; acks := acks s;
                handled := handled s ++ [d]; closes := closes s |}).
      assert (exec fn writables (AMain true) s1 = Some s2) as H2.
      { unfold exec, main_step, s1, s2. simpl. by rewrite Hc, Hf, Hfn. }
      set (c' := {| Chan.buf := []; Chan.cap := Chan.cap (rest s);
                    Chan.closed := false; Chan.taken := Chan.taken (rest s) ++ [d] |}).
      set (s3 := {| main := Range; input := l; rest := c'; outs := outs s;
                dispatchedCount := dispatchedCount s; done := done s;
                senders := senders s; ctx := ctx s; panicking := panicking s;
                crashed := crashed s; acks := acks s; handled := handled s ++ [d];
                closes := closes s |}).
      assert (exec fn writables (AMain true) s2 = Some s3) as H3.
      { unfold exec, main_step, s2, s3, c', Chan.write. simpl. by rewrite Hc, Hrc, Hrb. }
      destruct (IH s3) as (sched & s' & Hrun & Hm' & Hi' & Hs' & Ho' & Hctx' & Hc' & Ha');
        try done.
      exists ([AMain true; AMain true; AMain true] ++ sched), s'.
      split; [|split; [done|]; split; [done|]; split; [|done]].
      * simpl. by rewrite H1, H2, H3.
      * rewrite Hs'. simpl. by rewrite Hfn.
Qed.

End Facts.

(** *** The input as a stream that is still being written

    The transition system of [Dispatcher] starts from the items that the
    input yields before it ends.  Here the producer of [in] runs beside the
    dispatcher: [input] holds what is buffered in [in], the producer writes
    its items one by one and then closes [in], and the receive of
    [for data := range in] waits while [in] is open and empty. *)

Definition with_input (i : list T) (s : state) : state :=
  {| main := main s; input := i; rest := rest s; outs := outs s;
     dispatchedCount := dispatchedCount s; done := done s; senders := senders s;
     ctx := ctx s; panicking := panicking s; crashed := crashed s;
     acks := acks s; handled := handled s; closes := closes s |}.

Record live : Type := Live {
  core : state;        (* [input core]: the items buffered in [in] *)
  coming : list T;     (* what the producer has still to write *)
  in_open : bool       (* [in] has not been closed *)
}.

Inductive live_action : Type :=
  | LRun (a : action)  (* an action of the dispatcher or of its environment *)
  | LProduce           (* the producer writes its next item to [in] *)
  | LEnd.              (* the producer closes [in] *)

(** The dispatching goroutine is at the receive of [range in] and nothing
    is buffered. *)
Definition receiving (s : state) : bool :=
  match main s, input s with
  | Range, [] => true
  | _, _ => false
  end.

Definition is_main (a : action) : bool :=
  match a with AMain _ => true | _ => false end.

Section Live.

Variable fn : T -> bool.
Variable writables : list nat.
Variable capacity : nat.               (* in.Capacity() *)

Definition live_exec (la : live_action) (l : live) : option live :=
  match crashed (core l) with
  | Some _ => None
  | None =>
      match la with
      | LRun a =>
          if is_main a && receiving (core l) && in_open l then None
          else match exec fn writables a (core l) with
               | Some s' => Some (Live s' (coming l) (in_open l))
               | None => None
               end
      | LProduce =>
          match coming l with
          | d :: tl =>
              if negb (in_open l) then None
              else if bool_decide (length (input (core l)) < capacity) then
                Some (Live (with_input (input (core l) ++ [d]) (core l)) tl true)
              else if receiving (core l) then
                (* handed to the receiver, which goes on to the [select] *)
                Some (Live (goto (Select d) (core l)) tl true)
              else None
          | [] => None
          end
      | LEnd =>
          if in_open l && bool_decide (coming l = [])
          then Some (Live (core l) [] false)
          else None
      end
  end.

Definition live_step (l l' : live) : Prop := exists la, live_exec la l = Some l'.

Definition live_init (c0 : Context) (items : list T) (chans : list Chan.chan) : live :=
  Live (init c0 [] capacity chans) items true.

Definition live_reachable (c0 : Context) (items : list T) (chans : list Chan.chan)
    (l : live) : Prop :=
  rtc live_step (live_init c0 items chans) l.

(** The state of [Dispatcher] that stands for a live state: the input is
    what is buffered followed by what is still to come. *)
Definition flat (l : live) : state :=
  with_input (input (core l) ++ coming l) (core l).

(** A closed input has nothing to come. *)
Definition live_ok (l : live) : Prop := in_open l = false -> coming l = [].

(** More items behind the buffered ones change nothing for a step, except
    for the receive on an empty buffer. *)
Lemma exec_with_more a s extra :
  (is_main a = true -> receiving s = false \/ extra = []) ->
  exec fn writables a (with_input (input s ++ extra) s)
  = (fun s' => with_input (input s' ++ extra) s') <$> exec fn writables a s.
Proof.
  intros Hok. destruct s as [m0 i0 r0 o0 dc0 dn0 sn0 cx0 pk0 cr0 ak0 hd0 cl0].
  unfold exec, with_input. simpl. destruct cr0; [done|]. destruct a as [rdy| |k rdy|w| | |].
  - unfold main_step, leave_loop, goto, receiving in *. simpl in *.
    destruct m0 as [|d|d ws|d|n|ws| | |e]; simpl.
    + destruct i0 as [|d tl]; simpl; [|done].
      destruct (Hok eq_refl) as [? | ->]; done.
    + by repeat case_match.
    + by destruct ws.
    + by destruct (Chan.write rdy r0 d).
    + by repeat case_match.
    + destruct ws as [|w ws]; [done|]. by repeat case_match.
    + by destruct (Chan.close r0).
    + done.
    + done.
  - unfold barrier_failure, goto. simpl. by repeat case_match.
  - unfold sender_step. simpl. by repeat case_match.
  - unfold read_out. simpl. by repeat case_match.
  - unfold read_rest. simpl. by repeat case_match.
  - done.
  - done.
Qed.

Lemma live_exec_flat la l l' :
  live_ok l -> live_exec la l = Some l' ->
  live_ok l' /\
  (flat l' = flat l \/ exists a, exec fn writables a (flat l) = Some (flat l')).
Proof.
  intros Hok Hstep. unfold live_exec in Hstep.
  destruct (crashed (core l)) eqn:Hcr; [done|]. destruct la as [a| |].
  - destruct (is_main a && receiving (core l) && in_open l) eqn:Hwait; [done|].
    destruct (exec fn writables a (core l)) as [s'|] eqn:Hexec; [|done].
    simplify_eq. split; [done|]. right. exists a. unfold flat. simpl.
    rewrite exec_with_more, Hexec; [done|].
    intros Hmain. rewrite Hmain in Hwait. simpl in Hwait.
    destruct (receiving (core l)); [|by left]. simpl in Hwait.
    right. by apply Hok.
  - destruct (coming l) as [|d tl] eqn:Hcoming; [done|].
    destruct (in_open l) eqn:Hopen; [|done]. simpl in Hstep.
    case_bool_decide as Hroom.
    + simplify_eq. split; [done|]. left. unfold flat, with_input. simpl.
      by rewrite Hcoming, <-app_assoc.
    + destruct (receiving (core l)) eqn:Hrecv; [|done]. simplify_eq.
      split; [done|]. right. exists (AMain true).
      unfold receiving in Hrecv.
      destruct (core l) as [m0 i0 r0 o0 dc0 dn0 sn0 cx0 pk0 cr0 ak0 hd0 cl0] eqn:Hcore.
      simpl in *. destruct m0; try done. destruct i0; [|done]. subst.
      unfold flat. rewrite Hcore, Hcoming. done.
  - destruct (in_open l) eqn:Hopen; [|done]. simpl in Hstep.
    case_bool_decide as Hnone; [|done]. simplify_eq.
    split; [done|]. left. unfold flat. simpl. by rewrite Hnone.
Qed.

(** Every state of the live system stands for a reachable state of
    [Dispatcher]: what holds of all of those holds with a live input. *)
Lemma live_refines c0 items chans l :
  live_reachable c0 items chans l ->
  live_ok l /\ reachable fn writables (init c0 items capacity chans) (flat l).
Proof.
  revert l. apply rtc_ind_r.
  - split; [done|]. apply rtc_refl.
  - intros l1 l2 _ [la Hstep] [Hok Hr].
    destruct (live_exec_flat la l1 l2 Hok Hstep) as [Hok' [Heq|[a Ha]]].
    + split; [done|]. by rewrite Heq.
    + split; [done|]. eapply rtc_r; [exact Hr|]. by exists a.
Qed.

(** X5. The dispatching goroutine never waits for an output.  With distinct
    outputs that are open at the call, its next statement can always run,
    except in three places: the receive of [range in], while the input is
    open and empty; the write to the remainder, while the remainder is full
    and nobody can be handed the item; and the barrier, while an
    acknowledgement is outstanding and none is buffered, in which case some
    fan-out goroutine is still running. *)
Theorem Dispatch_waits_only_for_input_remainder_or_barrier :
  forall (c0 : Context) (items : list T) (chans : list Chan.chan),
    NoDup writables -> listed_open writables chans ->
    forall l rdy,
      live_reachable c0 items chans l -> crashed (core l) = None ->
      live_exec (LRun (AMain rdy)) l = None ->
      (exists e, main (core l) = Finished e) \/
      (main (core l) = Range /\ input (core l) = [] /\ in_open l = true) \/
      (exists d, main (core l) = SendRest d /\
                 Chan.closed (rest (core l)) = false /\
                 Chan.cap (rest (core l)) <= length (Chan.buf (rest (core l))) /\
                 (rdy = false \/ Chan.buf (rest (core l)) <> [])) \/
      (exists n, main (core l) = Barrier n /\ acks (core l) < n /\
                 done (core l) = 0 /\ senders (core l) <> []).
Proof.
  intros c0 items chans Hnd Hopen l rdy Hr Hc Hstep.
  destruct (live_refines c0 items chans l Hr) as [Hok Hflat].
  unfold live_exec in Hstep. rewrite Hc in Hstep. simpl in Hstep.
  destruct (receiving (core l)) eqn:Hrecv; simpl in Hstep.
  - destruct (in_open l) eqn:Hin.
    + right. left. unfold receiving in Hrecv.
      destruct (main (core l)); try done. by destruct (input (core l)).
    + exfalso. unfold receiving in Hrecv. unfold exec in Hstep. rewrite Hc in Hstep.
      unfold main_step in Hstep.
      destruct (main (core l)); try done. by destruct (input (core l)).
  - assert (exec fn writables (AMain rdy) (flat l) = None) as Hblocked.
    { unfold flat. rewrite exec_with_more by (by left).
      by destruct (exec fn writables (AMain rdy) (core l)). }
    destruct (main_blocked_cases fn writables c0 items capacity chans Hnd Hopen
                (flat l) rdy Hflat Hc Hblocked) as [He|[Hd|Hn]]; auto.
Qed.

End Live.

(** X6. If some item matches and the first listed output is open, there is a
    schedule in which the context fails while a delivery is still to be
    made, the barrier gives way, the output is closed, and the delivery
    then panics in its unguarded goroutine: the process goes down with a
    send on a closed channel. *)
Theorem Dispatch_late_delivery_can_crash :
  forall (fn : T -> bool) (w : nat) (ws : list nat) (c0 : Context)
         (items : list T) (capacity : nat) (chans : list Chan.chan) (c : Chan.chan),
    chans !! w = Some c -> Chan.closed c = false ->
    Failure c0 = false ->
    Exists (fun d => fn d = true) items ->
    exists sched s,
      run fn (w :: ws) sched (init c0 items capacity chans) = Some s /\
      Failure (ctx s) = true /\
      crashed s = Some SendOnClosedChannel.
Proof.
  intros fn w ws c0 items capacity chans c Hcw Hopen Hf0 Hex.
  destruct (loop_only fn (w :: ws) items (init c0 items capacity chans))
    as (sched & s1 & Hrun & Hm & Hi & Hs & Ho & Hctx & Hc & Ha); try done.
  simpl in Hs, Ho, Hctx, Ha.
  assert (exists d l, List.filter fn items = d :: l) as (d & l & Hfl).
  { apply Exists_exists in Hex as (d & Hin & Hd).
    destruct (List.filter fn items) as [|d' l'] eqn:Hfl; [|eauto].
    exfalso. assert (d ∈ List.filter fn items) as Hd'.
    { apply list_elem_of_In, List.filter_In. split; [by apply list_elem_of_In|done]. }
    rewrite Hfl in Hd'. by apply elem_of_nil in Hd'. }
  rewrite Hfl in Hs. simpl in Hs.
  assert (reachable fn (w :: ws) (init c0 items capacity chans) s1) as Hr1
    by (by eapply run_reachable).
  pose proof (inv_count _ _ _ _ _ (inv_reachable _ _ _ _ _ _ _ Hr1)) as Hcnt.
  rewrite Hm, Hs, Ha in Hcnt. simpl in Hcnt.
  exists (sched ++ [AMain true; AFail; ABarrierFailure; AMain true; ASender 0 true]).
  eexists. split.
  - eapply run_app; [exact Hrun|]. simpl.
    unfold exec at 1, main_step at 1. rewrite Hc, Hm, Hi.
    unfold exec at 1, leave_loop, goto. simpl. rewrite Hc.
    unfold exec at 1, barrier_failure, goto, signal. simpl. rewrite Ha.
    rewrite bool_decide_eq_true_2 by (simpl in *; lia). simpl.
    unfold exec at 1, main_step. simpl. rewrite Ho, Hcw.
    unfold Chan.close at 1. rewrite Hopen.
    unfold exec at 1, sender_step. simpl. rewrite Hs. simpl.
    rewrite list_lookup_insert_eq by (by eapply lookup_lt_Some).
    unfold Chan.write. simpl. reflexivity.
  - done.
Qed.

(** *** A goroutine left behind *)

(** Once the dispatching goroutine has finished, nobody takes from [done]:
    a fan-out goroutine that waits to acknowledge while [done] is full
    waits for ever. *)
Lemma stranded_for_ever fn writables e k w d s :
  main s = Finished e -> done s = length writables ->
  senders s !! k = Some (Sender w d Acking) ->
  forall s', reachable fn writables s s' ->
    main s' = Finished e /\ done s' = length writables /\
    senders s' !! k = Some (Sender w d Acking).
Proof.
  intros Hm Hd Hk.
  apply (rtc_ind_r (fun s' => main s' = Finished e /\ done s' = length writables /\
                              senders s' !! k = Some (Sender w d Acking))); [done|].
  intros s1 s2 _ [a Hstep] (Hm1 & Hd1 & Hk1).
  unfold exec in Hstep. destruct (crashed s1); [done|]. destruct a.
  - unfold main_step in Hstep. by rewrite Hm1 in Hstep.
  - unfold barrier_failure in Hstep. by rewrite Hm1 in Hstep.
  - unfold sender_step in Hstep.
    destruct (senders s1 !! k0) as [[w' d' [|]]|] eqn:Hk0; [| |done].
    + assert (k0 <> k) as Hne by (intros ->; congruence).
      cases_of Hstep; simpl; rewrite ?list_lookup_insert_ne by done; done.
    + rewrite bool_decide_eq_false_2 in Hstep by lia. done.
  - unfold read_out in Hstep. cases_of Hstep; done.
  - unfold read_rest in Hstep. cases_of Hstep; done.
  - by simplify_eq.
  - by simplify_eq.
Qed.

(** X7. With one output and two matching items or more, a failure can leave a
    goroutine behind for good.  There is a schedule in which the first two
    deliveries are made, the first is acknowledged, the context fails, the
    barrier gives way and the dispatcher finishes normally; the second
    goroutine is then blocked on [done], whose only place is taken and
    which nobody reads any more: it is still there in every state that can
    follow. *)
Theorem Dispatch_can_strand_a_goroutine :
  forall (fn : T -> bool) (w : nat) (c0 : Context) (items : list T)
         (capacity : nat) (chans : list Chan.chan) (c : Chan.chan)
         (d1 d2 : T) (l : list T),
    chans !! w = Some c -> Chan.closed c = false -> Chan.buf c = [] ->
    Failure c0 = false ->
    List.filter fn items = d1 :: d2 :: l ->
    exists sched s,
      run fn [w] sched (init c0 items capacity chans) = Some s /\
      main s = Finished Returned /\
      senders s !! 0 = Some (Sender w d2 Acking) /\
      forall s', reachable fn [w] s s' ->
        main s' = Finished Returned /\
        senders s' !! 0 = Some (Sender w d2 Acking).
Proof.
  intros fn w c0 items capacity chans c d1 d2 l Hcw Hopen Hbuf Hf0 Hfl.
  destruct (loop_only fn [w] items (init c0 items capacity chans))
    as (sched & s1 & Hrun & Hm & Hi & Hs & Ho & Hctx & Hc & Ha); try done.
  simpl in Hs, Ho, Hctx, Ha. rewrite Hfl in Hs. simpl in Hs.
  assert (reachable fn [w] (init c0 items capacity chans) s1) as Hr1
    by (by eapply run_reachable).
  pose proof (inv_reachable _ _ _ _ _ _ _ Hr1) as Hinv.
  pose proof (inv_count _ _ _ _ _ Hinv) as Hcnt.
  rewrite Hm, Hs, Ha in Hcnt. simpl in Hcnt.
  assert (Failure (ctx s1) = false) as Hf1 by (by rewrite Hctx).
  destruct (inv_input _ _ _ _ _ Hinv Hf1) as [Hitems _].
  rewrite Hm, Hi in Hitems. simpl in Hitems. rewrite app_nil_r in Hitems.
  pose proof (inv_matches _ _ _ _ _ Hinv) as Hdc.
  rewrite <-Hitems, Hfl in Hdc. simpl in Hdc.
  assert (length (flat_map (fun d => [Sender w d Sending]) l) = length l) as Hlen.
  { clear. induction l as [|x l IH]; simpl; [done|by rewrite IH]. }
  rewrite Hlen in Hcnt.
  assert (done s1 = 0) as Hd by lia.
  pose proof (inv_rest_closed _ _ _ _ _ Hinv) as Hrc. rewrite Hm in Hrc. simpl in Hrc.
  assert (panicking s1 = None) as Hp.
  { destruct (closing_reachable fn [w] c0 items capacity chans s1) as [Hp _]; try done.
    - apply NoDup_singleton.
    - intros w' Hw'. apply list_elem_of_singleton in Hw' as ->. eauto. }
  assert (w < length chans) as Hlt by (by eapply lookup_lt_Some).
  assert (exists s,
            run fn [w] [AMain true; ASender 0 true; ASender 1 true; ASender 0 false;
                        AFail; ABarrierFailure; AMain true; AMain true; AMain true;
                        AMain true] s1 = Some s /\
            main s = Finished Returned /\ done s = 1 /\
            senders s !! 0 = Some (Sender w d2 Acking)) as (s & Hrun' & Hfin & Hd' & Hk).
  { clear Hrun Hr1 Hinv Hcnt Hitems Hlen.
    destruct s1 as [m0 i0 r0 o0 dc0 dn0 sn0 cx0 pk0 cr0 ak0 hd0 cl0].
    simpl in *. subst. eexists. split.
    - simpl. walk. rewrite Hcw. walk. rewrite Hopen, Hbuf. walk.
      rewrite list_lookup_insert_eq by done. walk.
      rewrite list_lookup_insert_eq by (by rewrite length_insert). walk.
      rewrite Hrc. walk. reflexivity.
    - done. }
  exists (sched ++ [AMain true; ASender 0 true; ASender 1 true; ASender 0 false;
                    AFail; ABarrierFailure; AMain true; AMain true; AMain true;
                    AMain true]), s.
  split; [by eapply run_app|]. split; [done|]. split; [done|].
  intros s' Hr'.
  destruct (stranded_for_ever fn [w] Returned 0 w d2 s Hfin Hd' Hk s' Hr') as (? & _ & ?).
  done.
Qed.

(** *** No output listed *)

(** X8. [Dispatch] called with an input and no output at all: no goroutine is
    ever launched and the barrier expects nothing, so nothing can bring the
    process down, failure or not; the matching items are delivered nowhere;
    the goroutine, once finished, has returned normally, and if the context
    did not fail the remainder holds exactly the non-matching items, in
    order: the call is then a filter on the negated predicate. *)
Theorem Dispatch_without_outputs :
  forall (fn : T -> bool) (c0 : Context) (items : list T) (capacity : nat)
         (chans : list Chan.chan) (s : state),
    reachable fn [] (init c0 items capacity chans) s ->
    senders s = [] /\ done s = 0 /\ acks s = 0 /\ crashed s = None /\
    (forall w, conts (outs s) w ≡ₚ conts chans w) /\
    (forall e, main s = Finished e ->
       e = Returned /\ Chan.closed (rest s) = true /\
       (Failure (ctx s) = false ->
          Chan.contents (rest s) = List.filter (fun d => negb (fn d)) items)).
Proof.
  intros fn c0 items capacity chans.
  assert (forall s, reachable fn [] (init c0 items capacity chans) s ->
            senders s = [] /\ done s = 0 /\ acks s = 0 /\ tospawn (main s) = 0) as Hnone.
  { intros s Hr. pose proof (inv_count _ _ _ _ _ (inv_reachable _ _ _ _ _ _ _ Hr)) as Hcnt.
    simpl in Hcnt. rewrite Nat.mul_0_r in Hcnt.
    split; [apply length_zero_iff_nil; lia|]. lia. }
  assert (forall s, reachable fn [] (init c0 items capacity chans) s -> crashed s = None)
    as Hsafe.
  { apply (rtc_ind_r (fun s => crashed s = None)); [done|].
    intros s1 s2 Hr1 [a Hstep] IH.
    destruct (crashed s2) as [p|] eqn:Hc2; [exfalso|done].
    destruct (crash_cause fn [] a s1 s2 Hstep) as (k & w & d & c & Hk & _); [congruence|].
    destruct (Hnone s1 Hr1) as (Hs & _). by rewrite Hs in Hk. }
  intros s Hr. destruct (Hnone s Hr) as (Hs & Hd & Ha & Hsp).
  pose proof (inv_reachable _ _ _ _ _ _ _ Hr) as Hinv.
  split; [done|]. split; [done|]. split; [done|]. split; [by apply Hsafe|]. split.
  - intros w. pose proof (inv_outs _ _ _ _ _ Hinv w) as Ho.
    rewrite Hs in Ho. simpl in Ho.
    assert (spawning w (main s) = []) as Hw.
    { destruct (main s) as [| | d ws | | | | | |]; try done.
      simpl in Hsp. apply length_zero_iff_nil in Hsp. by subst. }
    rewrite Hw, !app_nil_r in Ho.
    assert (flat_map (copies w []) (List.filter fn (handled s)) = []) as Hnil.
    { clear. induction (List.filter fn (handled s)) as [|x l IH]; [done|]. simpl. exact IH. }
    by rewrite Hnil, app_nil_r in Ho.
  - intros e Hm.
    destruct (closing_reachable fn [] c0 items capacity chans s) as [_ Hc]; [constructor| |done|].
    { intros w Hw. by apply elem_of_nil in Hw. }
    rewrite Hm in Hc. destruct Hc as [_ ->]. split; [done|]. split.
    + rewrite (inv_rest_closed _ _ _ _ _ Hinv), Hm. done.
    + intros Hf.
      rewrite <-(failure_free_end fn [] c0 items capacity chans s Hr); [| by rewrite Hm | done].
      rewrite <-(inv_rest _ _ _ _ _ Hinv), Hm. simpl. by rewrite app_nil_r.
Qed.

(** *** The properties on the input of the test-suite *)

(** The run of [output_listed_twice]: the output is listed twice and the
    context fails before the first item is looked at. *)
Definition listed_twice_schedule : list action :=
  [AMain true; AFail] ++ replicate 6 (AMain true).

Definition listed_twice_end : state :=
  Eval vm_compute in
    match run evens [0; 0] listed_twice_schedule
            (init DispatchTest.open_context DispatchTest.items 2 [Chan.New 2]) with
    | Some s => s
    | None => DispatchTest.start
    end.

Lemma listed_twice_run :
  run evens [0; 0] listed_twice_schedule
    (init DispatchTest.open_context DispatchTest.items 2 [Chan.New 2])
  = Some listed_twice_end.
Proof. reflexivity. Qed.

(** No output: three steps for each of the five items, then the deferred
    calls. *)
Definition no_output_schedule : list action := replicate 20 (AMain true).

Definition no_output_end : state :=
  Eval vm_compute in
    match run evens [] no_output_schedule
            (init DispatchTest.open_context DispatchTest.items 2 []) with
    | Some s => s
    | None => DispatchTest.start
    end.

Lemma no_output_run :
  run evens [] no_output_schedule
    (init DispatchTest.open_context DispatchTest.items 2 [])
  = Some no_output_end.
Proof. reflexivity. Qed.

Lemma one_output_fresh : fresh [0] [Chan.New 2].
Proof.
  intros w Hw. apply list_elem_of_singleton in Hw as ->.
  by exists (Chan.New 2).
Qed.

Lemma Dispatch_delivers_only_input_witness :
  Chan.contents (rest DispatchTest.failure_at_barrier_end)
    `prefix_of` [TInt 1; TInt 3; TInt 5] /\
  conts (outs DispatchTest.failure_at_barrier_end) 0 ⊆+ [TInt 2; TInt 4].
Proof.
  destruct (Dispatch_delivers_only_input evens [0] DispatchTest.open_context
              DispatchTest.items 2 [Chan.New 2] DispatchTest.failure_at_barrier_end
              (run_reachable _ _ _ _ _ DispatchTest.failure_at_barrier_run)) as [Hrest Houts].
  split; [exact Hrest | exact (Houts 0)].
Defined.

Lemma Dispatch_reads_in_order_witness :
  exists lost,
    DispatchTest.items
      = handled DispatchTest.failure_in_loop_end ++ lost
        ++ input DispatchTest.failure_in_loop_end /\
    length lost <= 1.
Proof.
  destruct (Dispatch_reads_in_order evens [0] DispatchTest.open_context
              DispatchTest.items 2 [Chan.New 2] DispatchTest.failure_in_loop_end
              (run_reachable _ _ _ _ _ DispatchTest.failure_in_loop_run))
    as (lost & Hi & Hl & _).
  exists lost. split; [exact Hi | exact Hl].
Defined.

(** An output listed twice, on a context that does not fail and an input
    without a match: the second deferred [close] panics and the guard of
    the dispatching goroutine recovers it. *)
Example listed_twice_without_failure :
  match run evens [0; 0] (replicate 9 (AMain true))
          (init DispatchTest.open_context [TInt 1] 2 [Chan.New 2]) with
  | Some s =>
      Failure (ctx s) = false /\ crashed s = None /\
      panicking s = Some CloseOfClosedChannel /\
      main s = Finished (Recovered CloseOfClosedChannel)
  | None => False
  end.
Proof. vm_compute. by repeat split. Qed.

Lemma Dispatch_does_not_crash_without_failure_witness :
  crashed DispatchTest.normal_end = None /\
  panicking DispatchTest.normal_end = None.
Proof.
  destruct (Dispatch_does_not_crash_without_failure evens [0] DispatchTest.open_context
              DispatchTest.items 2 [Chan.New 2] DispatchTest.one_output_open
              DispatchTest.normal_end
              (run_reachable _ _ _ _ _ DispatchTest.normal_run) eq_refl)
    as (Hc & _ & Hp).
  destruct (Hp DispatchTest.one_output_NoDup) as [Hp' _].
  split; [exact Hc | exact Hp'].
Defined.

Lemma Dispatch_always_closes_remainder_witness :
  main listed_twice_end = Finished (Recovered CloseOfClosedChannel) /\
  Chan.closed (rest listed_twice_end) = true.
Proof.
  destruct (Dispatch_always_closes_remainder evens [0; 0] DispatchTest.open_context
              DispatchTest.items 2 [Chan.New 2] listed_twice_end
              (run_reachable _ _ _ _ _ listed_twice_run)) as [Hend _].
  destruct (Hend (Recovered CloseOfClosedChannel) eq_refl) as [Hclosed _].
  split; [reflexivity | exact Hclosed].
Defined.

Lemma Dispatch_late_delivery_can_crash_witness :
  exists sched s,
    run evens [0] sched DispatchTest.start = Some s /\
    Failure (ctx s) = true /\
    crashed s = Some SendOnClosedChannel.
Proof.
  apply (Dispatch_late_delivery_can_crash evens 0 [] DispatchTest.open_context
           DispatchTest.items 2 [Chan.New 2] (Chan.New 2)).
  - reflexivity.
  - reflexivity.
  - reflexivity.
  - apply Exists_cons_tl, Exists_cons_hd. reflexivity.
Defined.

Lemma Dispatch_without_outputs_witness :
  crashed no_output_end = None /\
  Chan.contents (rest no_output_end) = [TInt 1; TInt 3; TInt 5].
Proof.
  destruct (Dispatch_without_outputs evens DispatchTest.open_context
              DispatchTest.items 2 [] no_output_end
              (run_reachable _ _ _ _ _ no_output_run))
    as (_ & _ & _ & Hc & _ & Hend).
  destruct (Hend Returned eq_refl) as (_ & _ & Hrest).
  split; [exact Hc | exact (Hrest eq_refl)].
Defined.

Lemma Dispatch_can_strand_a_goroutine_witness :
  exists sched s,
    run evens [0] sched DispatchTest.start = Some s /\
    main s = Finished Returned /\
    senders s !! 0 = Some (Sender 0 (TInt 4) Acking) /\
    forall s', reachable evens [0] s s' ->
      main s' = Finished Returned /\
      senders s' !! 0 = Some (Sender 0 (TInt 4) Acking).
Proof.
  apply (Dispatch_can_strand_a_goroutine evens 0 DispatchTest.open_context
           DispatchTest.items 2 [Chan.New 2] (Chan.New 2) (TInt 2) (TInt 4) []).
  - reflexivity.
  - reflexivity.
  - reflexivity.
  - reflexivity.
  - reflexivity.
Defined.

Lemma Dispatch_waits_only_for_input_remainder_or_barrier_witness :
  let l := live_init 2 DispatchTest.open_context DispatchTest.items [Chan.New 2] in
  (exists e, main (core l) = Finished e) \/
  (main (core l) = Range /\ input (core l) = [] /\ in_open l = true) \/
  (exists d, main (core l) = SendRest d /\
             Chan.closed (rest (core l)) = false /\
             Chan.cap (rest (core l)) <= length (Chan.buf (rest (core l))) /\
             (true = false \/ Chan.buf (rest (core l)) <> [])) \/
  (exists n, main (core l) = Barrier n /\ acks (core l) < n /\
             done (core l) = 0 /\ senders (core l) <> []).
Proof.
  apply (Dispatch_waits_only_for_input_remainder_or_barrier evens [0] 2
           DispatchTest.open_context DispatchTest.items [Chan.New 2]
           DispatchTest.one_output_NoDup DispatchTest.one_output_open
           (live_init 2 DispatchTest.open_context DispatchTest.items [Chan.New 2]) true).
  - apply rtc_refl.
  - reflexivity.
  - reflexivity.
Defined.

Lemma Dispatch_can_finish_witness :
  exists sched s,
    run evens [0] sched DispatchTest.start = Some s /\
    main s = Finished Returned /\ Failure (ctx s) = false.
Proof.
  apply (Dispatch_can_finish evens [0] DispatchTest.open_context
           DispatchTest.items 2 [Chan.New 2]
           DispatchTest.one_output_NoDup one_output_fresh eq_refl).
Defined.

End DispatcherFacts.

(** ** More about the emitter *)
Module EmitterFacts.
Import Emitter.

(** X10. Every way a call of [Emit] can go.  It returns only on a context that
    has not failed and a stream that is open, and then the stream holds
    what it held followed by the item, with its capacity as before; it
    panics with [Done] only on a failed context, and with Go's send on a
    closed channel only when the context has not failed and the stream is
    closed, so that on a failed context a closed stream is never written
    to; it blocks only when the stream is open and full and no reader can
    be handed the item.  Whatever the panic, the guard recovers it. *)
Theorem Emit_outcomes :
  forall (rdy : bool) (e : emitter) (data : T),
    match Emit rdy e data with
    | Ok c' =>
        Failure (context e) = false /\ Chan.closed (writable e) = false /\
        Chan.contents c' = Chan.contents (writable e) ++ [data] /\
        Chan.cap c' = Chan.cap (writable e) /\ Chan.closed c' = false
    | Panic p =>
        ((p = Done /\ Failure (context e) = true) \/
         (p = SendOnClosedChannel /\ Failure (context e) = false /\
          Chan.closed (writable e) = true)) /\
        stream_after rdy e data = writable e /\
        guarded_Emit rdy e data = Some (Recovered p)
    | Blocked =>
        Failure (context e) = false /\ Chan.closed (writable e) = false /\
        Chan.cap (writable e) <= length (Chan.buf (writable e)) /\
        (rdy = false \/ Chan.buf (writable e) <> [])
    end.
Proof.
  intros rdy e data. unfold guarded_Emit, stream_after.
  destruct (Emit rdy e data) as [c'| |p] eqn:HE; unfold Emit in HE;
    destruct (Failure (context e)) eqn:Hf; simplify_eq.
  - pose proof (Chan.write_Ok _ _ _ _ HE) as (Hc & Ho & Ho').
    split; [done|]. split; [done|]. split; [done|]. split; [|done].
    unfold Chan.write in HE. rewrite Ho in HE.
    repeat case_match; simplify_eq; done.
  - unfold Chan.write in HE.
    destruct (Chan.closed (writable e)) eqn:Hc; [done|].
    split; [done|]. split; [done|].
    destruct rdy; simpl in HE.
    + case_bool_decide as Hb; [done|]. case_bool_decide; [done|]. split; [lia|auto].
    + case_bool_decide; [done|]. split; [lia|auto].
  - simpl. split; [auto|done].
  - simpl. split; [|done]. right.
    unfold Chan.write in HE. repeat case_match; simplify_eq; done.
Qed.

End EmitterFacts.

(** ** The stages the README writes by hand

    The README gives a producer and a filter written directly over
    channels, one goroutine each, with the guard and the close of the
    output deferred. *)
Module Readme.
Import Stage.

(** What the reader of a stream does between two statements of the
    writer, at each time: how many buffered items it takes, and whether it
    is then parked on the stream. *)
Definition reader : Type := nat -> nat * bool.

Fixpoint take_items (n : nat) (c : Chan.chan) : Chan.chan :=
  match n with
  | 0 => c
  | S n' =>
      match Chan.read c with
      | Ok (c', Some _) => take_items n' c'
      | _ => c
      end
  end.

(** [writable <- data], with the reader [r] at the other end. *)
Definition send (r : reader) (data : T) : worker unit :=
  fun w =>
    let c := take_items (r (now w)).1 (out w) in
    match Chan.write (r (now w)).2 c data with
    | Ok c' => (Value tt, WState c' (now w))
    | Panic p => (Unwind p, WState c (now w))
    | Blocked => (Stuck, WState c (now w))
    end.

(** [[
    go func() {
        defer context.Recover()
        defer close(writable)
        ...
    }()
    ]]
    on a stream made by [stream.New(capacity)]: a goroutine that is blocked
    for good runs none of its deferred calls; otherwise the output is closed
    and the guard recovers what is unwinding. *)
Definition go (body : worker unit) (capacity : nat) : finished :=
  let '(r, w) := body (WState (Chan.New capacity) 0) in
  match r with
  | Stuck => Finish (out w) (now w) None
  | _ =>
      match Chan.close (out w) with
      | Ok c =>
          Finish c (now w)
            (Some (match r with Unwind p => Recovered p | _ => Returned end))
      | Panic p => Finish (out w) (now w) (Some (Recovered p))
      | Blocked => Finish (out w) (now w) None
      end
  end.

(** [[
    for _, n := range producer.numbers {
        select {
        case <-producer.context.Closed:
            return
        default:
            writable <- n
        }
    }
    ]] *)
Fixpoint Produce_loop (ctx : nat -> Context) (r : reader) (numbers : list Z)
    : worker unit :=
  match numbers with
  | [] => mret tt
  | n :: numbers' =>
      c ← poll ctx;
      if Closed c then mret tt
      else _ ← send r (TInt n); Produce_loop ctx r numbers'
  end.

(** [NumbersProducer.Produce]: the stream has room for all the numbers. *)
Definition Produce (ctx : nat -> Context) (r : reader) (numbers : list Z) : finished :=
  go (Produce_loop ctx r numbers) (length numbers).

(** [Filter.Transform], the README's hand-written filter, its output being
    read as it is written. *)
Definition README_Filter (ctx : nat -> Context) (fn : T -> bool)
    (capacity : nat) (input : list T) : finished :=
  go (README_Filter_loop ctx fn input) capacity.

(** The closure of [NewNumbersProducer]:
    [[
    Emit: func(emitter stream.Emitter) {
        for _, n := range numbers {
            emitter.Emit(n)
        }
    }
    ]] *)
Fixpoint emit_each (ctx : nat -> Context) (numbers : list Z) : worker unit :=
  match numbers with
  | [] => mret tt
  | n :: numbers' => _ ← emit ctx (TInt n); emit_each ctx numbers'
  end.

(** *** The reader takes what is buffered and nothing else *)

Lemma take_items_keeps n c :
  Chan.closed (take_items n c) = Chan.closed c /\
  Chan.cap (take_items n c) = Chan.cap c /\
  Chan.contents (take_items n c) = Chan.contents c /\
  length (Chan.buf (take_items n c)) <= length (Chan.buf c).
Proof.
  revert c. induction n as [|n IH]; intros c; simpl; [by auto with lia|].
  unfold Chan.read. destruct (Chan.buf c) as [|v tl] eqn:Hb.
  - destruct (Chan.closed c) eqn:Hcl; rewrite ?Hb; auto.
  - destruct (IH {| Chan.buf := tl; Chan.cap := Chan.cap c; Chan.closed := Chan.closed c;
                    Chan.taken := Chan.taken c ++ [v] |}) as (-> & -> & -> & Hl).
    simpl in *. unfold Chan.contents. simpl. rewrite Hb, <-app_assoc. simpl.
    auto with lia.
Qed.

Lemma send_with_room r d w :
  Chan.closed (out w) = false ->
  length (Chan.buf (out w)) < Chan.cap (out w) ->
  exists c, send r d w = (Value tt, WState c (now w)) /\
            Chan.closed c = false /\ Chan.cap c = Chan.cap (out w) /\
            Chan.contents c = Chan.contents (out w) ++ [d] /\
            length (Chan.buf c) <= S (length (Chan.buf (out w))).
Proof.
  intros Hc Hroom. unfold send.
  destruct (take_items_keeps (r (now w)).1 (out w)) as (Hc' & Hcap & Hcont & Hlen).
  set (c := take_items (r (now w)).1 (out w)) in *.
  unfold Chan.write. rewrite Hc', Hc.
  destruct ((r (now w)).2 && bool_decide (Chan.buf c = [])) eqn:Hh.
  - eexists. split; [reflexivity|]. simpl.
    apply andb_prop in Hh as [_ Hb%bool_decide_eq_true_1].
    split; [done|]. split; [done|]. split; [|lia].
    rewrite <-Hcont. unfold Chan.contents. simpl. by rewrite Hb, !app_nil_r.
  - rewrite bool_decide_eq_true_2 by lia.
    eexists. split; [reflexivity|]. simpl.
    split; [done|]. split; [done|]. split.
    + rewrite <-Hcont. unfold Chan.contents. simpl. by rewrite app_assoc.
    + rewrite length_app. simpl. lia.
Qed.

Lemma Produce_loop_runs ctx r numbers :
  forall w,
    Chan.closed (out w) = false ->
    length (Chan.buf (out w)) + length numbers <= Chan.cap (out w) ->
    exists k w',
      Produce_loop ctx r numbers w = (Value tt, w') /\
      k <= length numbers /\
      (forall j, j < k -> Closed (ctx (now w + j)) = false) /\
      (k < length numbers -> Closed (ctx (now w + k)) = true) /\
      Chan.closed (out w') = false /\
      Chan.contents (out w') = Chan.contents (out w) ++ (TInt <$> take k numbers) /\
      now w' = now w + Nat.min (S k) (length numbers).
Proof.
  induction numbers as [|n numbers IH]; intros w Hc Hroom.
  - exists 0, w. simpl. rewrite app_nil_r, Nat.add_0_r.
    split; [done|]. split; [done|]. split; [intros; lia|]. split; [intros; lia|]. done.
  - simpl in Hroom. simpl. unfold mbind at 1, worker_bind at 1, poll.
    destruct (Closed (ctx (now w))) eqn:Hcl.
    + exists 0, (WState (out w) (S (now w))). simpl. rewrite app_nil_r, Nat.add_0_r.
      split; [done|]. split; [lia|]. split; [intros; lia|]. split; [done|].
      split; [done|]. split; [done|]. lia.
    + destruct (send_with_room r (TInt n) (WState (out w) (S (now w))))
        as (c & Hsend & Hcc & Hcap & Hcont & Hlen); simpl; [done|lia|].
      simpl in *.
      assert (length (Chan.buf c) + length numbers <= Chan.cap c) as Hroom' by lia.
      destruct (IH (WState c (S (now w))) Hcc Hroom')
        as (k & w' & Hl & Hk & Hopen & Hstop & Hc' & Hcont' & Hnow).
      simpl in Hopen, Hstop, Hcont'. change (now w' = S (now w) + Nat.min (S k) (length numbers)) in Hnow.
      exists (S k), w'. unfold mbind, worker_bind. rewrite Hsend.
      unfold mbind, worker_bind in Hl. rewrite Hl.
      split; [done|]. split; [lia|]. split; [|split; [|split; [done|split]]].
      * intros [|j] Hj; [by rewrite Nat.add_0_r|].
        replace (now w + S j) with (S (now w + j)) by lia. apply Hopen. lia.
      * intros Hlt. replace (now w + S k) with (S (now w + k)) by lia. apply Hstop. lia.
      * rewrite Hcont', Hcont. simpl. by rewrite <-app_assoc.
      * rewrite Hnow. cbn [length]. lia.
Qed.

(** X11. The README's producer never waits for its reader, whatever the reader
    does, even if there is none: the stream has room for all the numbers.
    It puts the numbers on the stream in order up to the first one at which
    it sees the context closed, then closes the stream and returns; it
    never looks at the failure signal. *)
Theorem Produce_never_blocks :
  forall (ctx : nat -> Context) (r : reader) (numbers : list Z),
    exists k,
      k <= length numbers /\
      (forall j, j < k -> Closed (ctx j) = false) /\
      (k < length numbers -> Closed (ctx k) = true) /\
      ended (Produce ctx r numbers) = Some Returned /\
      Chan.closed (stream (Produce ctx r numbers)) = true /\
      Chan.contents (stream (Produce ctx r numbers)) = TInt <$> take k numbers /\
      polls (Produce ctx r numbers) = Nat.min (S k) (length numbers).
Proof.
  intros ctx r numbers.
  destruct (Produce_loop_runs ctx r numbers (WState (Chan.New (length numbers)) 0))
    as (k & w' & Hl & Hk & Hopen & Hstop & Hc & Hcont & Hnow); simpl; [done|lia|].
  exists k. unfold Produce, go. rewrite Hl. unfold Chan.close. rewrite Hc. simpl.
  split; [done|]. split; [done|]. split; [done|]. split; [done|]. split; [done|].
  split; [|done]. unfold Chan.contents in *. simpl in *. done.
Qed.

(** *** The hand-written filter *)

Lemma README_Filter_loop_runs ctx fn input :
  forall w,
    Chan.closed (out w) = false -> Chan.buf (out w) = [] ->
    exists k w',
      README_Filter_loop ctx fn input w = (Value tt, w') /\
      k <= length input /\
      (forall j, j < k -> Closed (ctx (now w + j)) = false) /\
      (k < length input -> Closed (ctx (now w + k)) = true) /\
      Chan.closed (out w') = false /\
      Chan.contents (out w') = Chan.contents (out w) ++ List.filter fn (take k input) /\
      now w' = S (now w + k).
Proof.
  induction input as [|d input IH]; intros w Hc Hb.
  - exists 0, (WState (out w) (S (now w))). simpl.
    unfold mbind, worker_bind, poll. rewrite app_nil_r, Nat.add_0_r.
    split; [by destruct (Closed (ctx (now w)))|].
    split; [done|]. split; [intros; lia|]. split; [intros; lia|]. done.
  - simpl. unfold mbind at 1, worker_bind at 1, poll.
    destruct (Closed (ctx (now w))) eqn:Hcl.
    + exists 0, (WState (out w) (S (now w))). simpl. rewrite app_nil_r, Nat.add_0_r.
      split; [done|]. split; [lia|]. split; [intros; lia|]. split; [done|]. done.
    + simpl.
      set (w1 := if fn d
                 then WState {| Chan.buf := []; Chan.cap := Chan.cap (out w);
                                Chan.closed := false;
                                Chan.taken := Chan.taken (out w) ++ [d] |} (S (now w))
                 else WState (out w) (S (now w))).
      assert (Chan.closed (out w1) = false /\ Chan.buf (out w1) = [] /\
              now w1 = S (now w) /\
              Chan.contents (out w1)
                = Chan.contents (out w) ++ (if fn d then [d] else [])) as (Hcc & Hcb & Hn1 & Hcont).
      { unfold w1, Chan.contents. destruct (fn d); simpl; rewrite ?Hb, ?app_nil_r; auto. }
      destruct (IH w1 Hcc Hcb)
        as (k & w' & Hl & Hk & Hopen & Hstop & Hc' & Hcont' & Hnow).
      rewrite Hn1 in Hopen, Hstop, Hnow.
      exists (S k), w'. split; [|split; [simpl; lia|split; [|split; [|split; [done|split]]]]].
      * unfold mbind, worker_bind. rewrite <-Hl. unfold w1.
        destruct (fn d); [|done].
        unfold Chan.write. simpl. by rewrite Hc, Hb.
      * intros [|j] Hj; [by rewrite Nat.add_0_r|].
        replace (now w + S j) with (S (now w) + j) by lia. apply Hopen. lia.
      * intros Hlt. replace (now w + S k) with (S (now w) + k) by lia. apply Hstop.
        simpl in Hlt. lia.
      * rewrite Hcont', Hcont. simpl. rewrite <-app_assoc. by destruct (fn d).
      * rewrite Hnow. lia.
Qed.

(** X12. The README's filter forwards, in order, the matching items among
    those it reads before it sees the context closed, closes its output
    and returns: what its reader gets is the filter of a prefix of the
    input, the whole input if the context is never seen closed.  The
    failure signal plays no part. *)
Theorem README_Filter_forwards_until_closed :
  forall (ctx : nat -> Context) (fn : T -> bool) (capacity : nat) (input : list T),
    exists k,
      k <= length input /\
      (forall j, j < k -> Closed (ctx j) = false) /\
      (k < length input -> Closed (ctx k) = true) /\
      ReadAll (README_Filter ctx fn capacity input)
        = Some (List.filter fn (take k input)) /\
      ended (README_Filter ctx fn capacity input) = Some Returned /\
      polls (README_Filter ctx fn capacity input) = S k.
Proof.
  intros ctx fn capacity input.
  destruct (README_Filter_loop_runs ctx fn input (WState (Chan.New capacity) 0))
    as (k & w' & Hl & Hk & Hopen & Hstop & Hc & Hcont & Hnow); simpl; [done|done|].
  exists k. unfold ReadAll, README_Filter, go. rewrite Hl.
  unfold Chan.close. rewrite Hc. simpl.
  split; [done|]. split; [done|]. split; [done|]. split; [|done].
  f_equal. unfold Chan.contents in *. simpl in *. done.
Qed.

(** X16. The producer feeding the filter, on a context that is never seen
    closed by either: the reader of the filter gets the numbers that match,
    in order, and both goroutines return.  Neither stage looks at the
    failure signal, so this holds on a failed context too. *)
Theorem Produce_then_README_Filter :
  forall (ctx1 ctx2 : nat -> Context) (r : reader) (fn : T -> bool)
         (capacity : nat) (numbers : list Z),
    (forall t, Closed (ctx1 t) = false) ->
    (forall t, Closed (ctx2 t) = false) ->
    let produced := Produce ctx1 r numbers in
    let filtered := README_Filter ctx2 fn capacity (Chan.contents (stream produced)) in
    ReadAll produced = Some (TInt <$> numbers) /\
    ReadAll filtered = Some (List.filter fn (TInt <$> numbers)) /\
    ended produced = Some Returned /\ ended filtered = Some Returned.
Proof.
  intros ctx1 ctx2 r fn capacity numbers Hopen1 Hopen2.
  destruct (Produce_loop_runs ctx1 r numbers (WState (Chan.New (length numbers)) 0))
    as (k & w1 & Hl1 & Hk & _ & Hstop & Hc1 & Hcont1 & _); simpl; [done|lia|].
  assert (k = length numbers) as ->.
  { destruct (decide (k < length numbers)) as [Hlt|]; [|lia].
    specialize (Hstop Hlt). by rewrite Hopen1 in Hstop. }
  rewrite firstn_all in Hcont1.
  assert (Chan.contents (stream (Produce ctx1 r numbers)) = TInt <$> numbers) as Hprod.
  { unfold Produce, go. rewrite Hl1. unfold Chan.close. rewrite Hc1. simpl.
    unfold Chan.contents in *. simpl in *. done. }
  assert (ReadAll (Produce ctx1 r numbers) = Some (TInt <$> numbers) /\
          ended (Produce ctx1 r numbers) = Some Returned) as [Hread1 Hend1].
  { unfold ReadAll. rewrite Hprod.
    unfold Produce, go. rewrite Hl1. unfold Chan.close. rewrite Hc1. done. }
  simpl. rewrite Hprod.
  destruct (README_Filter_loop_runs ctx2 fn (TInt <$> numbers) (WState (Chan.New capacity) 0))
    as (k & w2 & Hl2 & Hk2 & _ & Hstop2 & Hc2 & Hcont2 & _); simpl; [done|done|].
  assert (k = length (TInt <$> numbers)) as ->.
  { destruct (decide (k < length (TInt <$> numbers))) as [Hlt|]; [|lia].
    specialize (Hstop2 Hlt). by rewrite Hopen2 in Hstop2. }
  rewrite firstn_all in Hcont2.
  split; [done|]. split; [|split; [done|]].
  - unfold ReadAll, README_Filter, go. rewrite Hl2. unfold Chan.close. rewrite Hc2. simpl.
    f_equal. unfold Chan.contents in *. simpl in *. done.
  - unfold README_Filter, go. rewrite Hl2. unfold Chan.close. by rewrite Hc2.
Qed.

Lemma Produce_then_README_Filter_witness :
  ReadAll (README_Filter (always Emitter.failed_context) evens 3
             (Chan.contents
                (stream (Produce (always Emitter.failed_context) (fun _ => (0, false))
                           [1; 2; 3; 4]%Z))))
  = Some [TInt 2; TInt 4].
Proof.
  destruct (Produce_then_README_Filter (always Emitter.failed_context)
              (always Emitter.failed_context) (fun _ => (0, false)) evens 3
              [1; 2; 3; 4]%Z) as (_ & Hread & _).
  - intros t. reflexivity.
  - intros t. reflexivity.
  - exact Hread.
Defined.

(** *** Emitting each number *)

(** X13. The closure handed to the observable emits the numbers in order while
    the context has not failed; at the first emission that finds the
    failure signal up it unwinds with [Done], the numbers before it being
    on the stream and no other.  The closed signal plays no part. *)
Theorem emit_each_stops_at_failure :
  forall (ctx : nat -> Context) (numbers : list Z) (w : wstate),
    Chan.closed (out w) = false -> Chan.buf (out w) = [] ->
    exists k w',
      k <= length numbers /\
      (forall j, j < k -> Failure (ctx (now w + j)) = false) /\
      emit_each ctx numbers w
        = (if bool_decide (k < length numbers) then Unwind Done else Value tt, w') /\
      (k < length numbers -> Failure (ctx (now w + k)) = true) /\
      Chan.closed (out w') = false /\
      Chan.contents (out w') = Chan.contents (out w) ++ (TInt <$> take k numbers).
Proof.
  intros ctx numbers. induction numbers as [|n numbers IH]; intros w Hc Hb.
  - exists 0, w. simpl. rewrite app_nil_r.
    split; [done|]. split; [intros; lia|]. split; [done|]. split; [intros; lia|]. done.
  - simpl. destruct (Failure (ctx (now w))) eqn:Hf.
    + exists 0, (WState (out w) (S (now w))). simpl. rewrite app_nil_r, Nat.add_0_r.
      split; [lia|]. split; [intros; lia|]. split; [|done].
      unfold mbind, worker_bind, emit, Emitter.Emit. simpl. by rewrite Hf.
    + destruct (emit_through ctx (TInt n) w Hf Hc Hb) as (c & Hemit & Hcc & Hcb & Hcont).
      destruct (IH (WState c (S (now w)))) as (k & w' & Hk & Hopen & Hl & Hstop & Hc' & Hcont');
        simpl; [done|done|]. simpl in *.
      exists (S k), w'. unfold mbind, worker_bind. rewrite Hemit, Hl.
      split; [lia|]. split; [|split; [|split; [|split; [done|]]]].
      * intros [|j] Hj; [by rewrite Nat.add_0_r|].
        replace (now w + S j) with (S (now w + j)) by lia. apply Hopen. lia.
      * f_equal. do 2 case_bool_decide; try done; lia.
      * intros Hlt. replace (now w + S k) with (S (now w + k)) by lia. apply Hstop. lia.
      * rewrite Hcont', Hcont. by rewrite <-app_assoc.
Qed.

Lemma emit_each_stops_at_failure_witness :
  exists w',
    emit_each (fun t => if bool_decide (t < 2) then Emitter.cancelled_context
                        else Emitter.failed_context)
      [1; 2; 3]%Z (WState (Chan.New 3) 0) = (Unwind Done, w') /\
    Chan.contents (out w') = [TInt 1; TInt 2].
Proof.
  destruct (emit_each_stops_at_failure
              (fun t => if bool_decide (t < 2) then Emitter.cancelled_context
                        else Emitter.failed_context)
              [1; 2; 3]%Z (WState (Chan.New 3) 0) eq_refl eq_refl)
    as (k & w' & Hk & Hopen & Hrun & Hstop & _ & Hcont).
  destruct k as [|[|[|k]]].
  - assert (0 < 3) as Hlt by lia. discriminate (Hstop Hlt).
  - assert (1 < 3) as Hlt by lia. discriminate (Hstop Hlt).
  - exists w'. split; [exact Hrun | exact Hcont].
  - assert (2 < S (S (S k))) as Hlt by lia. discriminate (Hopen 2 Hlt).
Defined.

End Readme.

(** ** The batch policy of the test-suite *)
Module BatchPolicy.
Import Stage.

(** [batch.Add] called for each item of [l] in turn. *)
Definition add_all (b : batch) (l : list T) : batch := foldl Add b l.

Lemma add_all_is b l :
  add_all b l = Batch_ (size b) (items b ++ l).
Proof.
  unfold add_all. revert b. induction l as [|d l IH]; intros b; simpl.
  - rewrite app_nil_r. by destruct b.
  - rewrite IH. unfold Add. simpl. by rewrite <-app_assoc.
Qed.

(** X14. The policy counts with an equality: a batch is full exactly when it
    holds as many items as its size, so a batch that already holds more
    than its size is never full again, however many items are added; in
    particular a batch of size 0 is full only as long as it is empty.  It
    is empty only if it held nothing and nothing was added. *)
Theorem batch_is_full_at_its_size_only :
  forall (b : batch) (l : list T),
    (Full (add_all b l) = true <-> length (items b) + length l = size b) /\
    (size b < length (items b) -> Full (add_all b l) = false) /\
    (Empty (add_all b l) = true <-> items b = [] /\ l = []).
Proof.
  intros b l. rewrite add_all_is. unfold Full, Empty. simpl. rewrite length_app.
  split; [|split].
  - by rewrite bool_decide_eq_true.
  - intros Hlt. apply bool_decide_eq_false_2. lia.
  - rewrite bool_decide_eq_true. split.
    + intros H. split; apply length_zero_iff_nil; lia.
    + by intros [-> ->].
Qed.

(** X15. Adding the items of [l] to an empty batch and committing it, on a
    context that has not failed and with the output being read, puts one
    item on the output, the slice of the items of [l] in the order they
    were added, and leaves the batch empty with its size unchanged.
    [Commit] does not look at the batch: committing an empty batch emits an
    empty slice. *)
Theorem Commit_emits_the_batch_and_empties_it :
  forall (ctx : nat -> Context) (n : nat) (l : list T) (w : wstate),
    Failure (ctx (now w)) = false ->
    Chan.closed (out w) = false -> Chan.buf (out w) = [] ->
    exists w',
      Commit ctx (add_all (Batch_ n []) l) w = (Value (Batch_ n []), w') /\
      Empty (Batch_ n []) = true /\
      Chan.contents (out w') = Chan.contents (out w) ++ [TSlice l] /\
      Chan.closed (out w') = false /\ Chan.buf (out w') = [] /\
      now w' = S (now w).
Proof.
  intros ctx n l w Hf Hc Hb. rewrite add_all_is. simpl.
  destruct (emit_through ctx (TSlice l) w Hf Hc Hb) as (c & Hemit & Hcc & Hcb & Hcont).
  exists (WState c (S (now w))). unfold Commit, mbind, worker_bind. simpl.
  rewrite Hemit. done.
Qed.

Lemma Commit_emits_the_batch_and_empties_it_witness :
  exists w',
    Commit (always Emitter.running_context)
      (add_all (Batch_ 2 []) [TInt 1; TInt 2]) (WState (Chan.New 3) 0)
      = (Value (Batch_ 2 []), w') /\
    Chan.contents (out w') = [TSlice [TInt 1; TInt 2]].
Proof.
  destruct (Commit_emits_the_batch_and_empties_it (always Emitter.running_context) 2
              [TInt 1; TInt 2] (WState (Chan.New 3) 0) eq_refl eq_refl eq_refl)
    as (w' & Hrun & _ & Hcont & _).
  exists w'. split; [exact Hrun | exact Hcont].
Defined.

End BatchPolicy.
